(** * Record storage core: tuple codec, slotted page, paged heap file

    A shallow embedding of [db/Tuple.cpp], [db/HeapPage.cpp],
    [db/HeapFile.cpp] and the constructor of [db/DbFile.cpp], followed by
    the properties of the storage core that were checked against it.

    Conventions of the embedding.
    - [size_t] counters and indices are [nat].  No [size_t] computation of
      the code wraps for sizes that fit in memory, with two exceptions
      that are written out in [Z]: the guard [index > size - 1] of
      [offset_of], and the capacity computation of the page constructor
      ([HeapPage.capacity_u64], related to the [nat] one by
      [capacity_u64_exact]).
    - A byte of a buffer is a [Z]; a store into a [uint8_t] wraps modulo
      256.  A buffer is a [list Z]; a [uint8_t*] is a buffer together with
      a position in it.
    - A C++ exception is a [Throw] of the [result] type; an operation that
      mutates its argument before it may throw returns the outcome paired
      with the state it leaves behind.
    - A counting loop is a [Fixpoint] on the number of iterations that
      remain, a loop over a vector a [Fixpoint] on the list. *)

From Stdlib Require Import String Ascii ZArith List Bool Arith Lia Sorted.
Import ListNotations.

(** ** Exceptions *)

Inductive exn : Set :=
| invalid_argument
| out_of_range
| logic_error
| bad_variant_access.

Inductive result (A : Type) : Type :=
| Ok (a : A)
| Throw (e : exn).

Arguments Ok {A} a.
Arguments Throw {A} e.

Definition bind {A B : Type} (c : result A) (k : A -> result B) : result B :=
  match c with
  | Ok a => k a
  | Throw e => Throw e
  end.

Notation "x <- c ;; k" := (bind c (fun x => k))
  (at level 61, c at next level, right associativity).

(** [std::vector::at]: bounds-checked access. *)
Definition vec_at {A : Type} (v : list A) (i : nat) : result A :=
  match nth_error v i with
  | Some x => Ok x
  | None => Throw out_of_range
  end.

(** ** Bytes and buffers *)

Definition byte_of_ascii (c : ascii) : Z := Z.of_N (N_of_ascii c).
Definition ascii_of_byte (b : Z) : ascii := ascii_of_N (Z.to_N (b mod 256)).

Fixpoint bytes_of_string (s : string) : list Z :=
  match s with
  | EmptyString => []
  | String c r => byte_of_ascii c :: bytes_of_string r
  end.

(** [memcpy(buf + pos, src, |src|)]: the destination side. *)
Definition memcpy (buf : list Z) (pos : nat) (src : list Z) : list Z :=
  firstn pos buf ++ src ++ skipn (pos + length src) buf.

(** The [n] bytes at [buf + pos]: the source side of a [memcpy]. *)
Definition read_bytes (buf : list Z) (pos n : nat) : list Z :=
  firstn n (skipn pos buf).

(** Object representation of integers: little endian, [n] bytes. *)
Fixpoint le_bytes (n : nat) (z : Z) : list Z :=
  match n with
  | O => []
  | S k => (z mod 256)%Z :: le_bytes k (z / 256)%Z
  end.

Fixpoint le_value (bs : list Z) : Z :=
  match bs with
  | [] => 0%Z
  | b :: r => (b + 256 * le_value r)%Z
  end.

(** Reading an [n]-byte object as a signed integer (two's complement). *)
Definition signed (n : nat) (u : Z) : Z :=
  if (u <? 2 ^ (8 * Z.of_nat n - 1))%Z then u else (u - 2 ^ (8 * Z.of_nat n))%Z.

(** ** What lies next to a string in memory

    [serialize] copies [CHAR_SIZE] bytes out of [str.c_str()] and
    [deserialize] builds a [std::string] from a [char*] block of
    [CHAR_SIZE] bytes; both may run past the object they start in.  What
    they find there is not determined by the program, so it is a
    parameter of the codec. *)
Record Memory : Type := {
  (** the [k]-th byte after the terminating NUL of the string copied for
      field [i] of the tuple *)
  beyond_string : nat -> nat -> ascii;
  (** the bytes after the [new char[CHAR_SIZE]] block of field [i], up to
      the first NUL *)
  beyond_block : nat -> string
}.

(** [str.c_str()] followed by [n] bytes of what comes after it. *)
Definition c_str_storage (m : Memory) (i : nat) (str : string) (n : nat)
  : list Z :=
  bytes_of_string str ++ 0%Z :: map (fun k => byte_of_ascii (beyond_string m i k)) (seq 0 n).

(** A C string stops at the first NUL. *)
Fixpoint until_nul (s : string) : string :=
  match s with
  | EmptyString => EmptyString
  | String c r => if Ascii.eqb c zero then EmptyString else String c (until_nul r)
  end.

(** The [std::string] built from a [char] pointer to a block that is
    followed by [tail]. *)
Fixpoint string_of_c_str (block : list Z) (tail : string) : string :=
  match block with
  | [] => until_nul tail
  | b :: r =>
      if (b mod 256 =? 0)%Z then EmptyString
      else String (ascii_of_byte b) (string_of_c_str r tail)
  end.

(** ** Fields and tuples ([db/types.hpp], [db/Tuple.cpp]) *)

Inductive type_t : Set := INT | CHAR | DOUBLE.

Definition type_eqb (a b : type_t) : bool :=
  match a, b with
  | INT, INT | CHAR, CHAR | DOUBLE, DOUBLE => true
  | _, _ => false
  end.

(** [field_t = std::variant<int, double, std::string>].  An [int] is its
    value, a [double] its 64-bit pattern. *)
Inductive field_t : Type :=
| f_int (n : Z)
| f_double (bits : Z)
| f_string (s : string).

(** Modelled from the spec: the byte widths of [db/types.hpp], which is
    not part of the sources at hand.  The spec fixes a 32-bit signed
    integer and a 64-bit floating point number; the width of a text field
    ([CHAR_SIZE]) and the page size ([DEFAULT_PAGE_SIZE]) are parameters
    of the sections below. *)
Definition INT_SIZE : nat := 4.
Definition DOUBLE_SIZE : nat := 8.

Record Tuple : Type := mkTuple { fields : list field_t }.

Module Tuple.

Definition field_type (t : Tuple) (i : nat) : result type_t :=
  field <- vec_at (fields t) i ;;
  match field with
  | f_int _ => Ok INT
  | f_double _ => Ok DOUBLE
  | f_string _ => Ok CHAR
  end.

Definition size (t : Tuple) : nat := length (fields t).

Definition get_field (t : Tuple) (i : nat) : result field_t :=
  vec_at (fields t) i.

(** [std::get<T>] on a field. *)
Definition get_string (f : field_t) : result string :=
  match f with f_string s => Ok s | _ => Throw bad_variant_access end.
Definition get_double (f : field_t) : result Z :=
  match f with f_double d => Ok d | _ => Throw bad_variant_access end.
Definition get_int (f : field_t) : result Z :=
  match f with f_int n => Ok n | _ => Throw bad_variant_access end.

End Tuple.

(** A value of the C++ type: an [int] in the 32-bit range, a [double]
    with a 64-bit pattern. *)
Definition field_valid (f : field_t) : bool :=
  match f with
  | f_int n => ((- 2 ^ 31 <=? n) && (n <? 2 ^ 31))%Z
  | f_double d => ((0 <=? d) && (d <? 2 ^ 64))%Z
  | f_string _ => true
  end.

Definition tuple_valid (t : Tuple) : bool := forallb field_valid (fields t).

(** ** Schemas ([db/Tuple.cpp]) *)

Record TupleDesc : Type := mkTupleDesc {
  tupleSchema : list (string * nat);
  tupleTypes : list type_t;
  tupleNames : list string
}.

(** [std::unordered_map::insert]: the binding is added unless the key is
    already bound. *)
Definition schema_insert (m : list (string * nat)) (k : string) (v : nat)
  : list (string * nat) :=
  if existsb (fun kv => String.eqb (fst kv) k) m then m else m ++ [(k, v)].

Module TupleDesc.

(** *** Constructor *)

(** [for (j = ...; j < names.size(); ++j) if (names[i] == names[j]) throw]:
    [n] iterations remain, starting at [j]. *)
Fixpoint duplicate_inner (names : list string) (name_i : string) (n j : nat)
  : bool :=
  match n with
  | O => false
  | S n' =>
      if String.eqb name_i (nth j names EmptyString) then true
      else duplicate_inner names name_i n' (S j)
  end.

(** [for (i = ...; i < names.size(); ++i)] around it. *)
Fixpoint duplicate_outer (names : list string) (n i : nat) : bool :=
  match n with
  | O => false
  | S n' =>
      if duplicate_inner names (nth i names EmptyString)
           (length names - (i + 1)) (i + 1)
      then true
      else duplicate_outer names n' (S i)
  end.

(** The loop that fills the three members. *)
Fixpoint build (types : list type_t) (names : list string) (n i : nat)
    (td : TupleDesc) : result TupleDesc :=
  match n with
  | O => Ok td
  | S n' =>
      ty <- vec_at types i ;;
      name <- vec_at names i ;;
      build types names n' (S i)
        {| tupleSchema := schema_insert (tupleSchema td) (nth i names EmptyString) i;
           tupleTypes := tupleTypes td ++ [ty];
           tupleNames := tupleNames td ++ [name] |}
  end.

(** [TupleDesc::TupleDesc(types, names)] *)
Definition make (types : list type_t) (names : list string)
  : result TupleDesc :=
  if duplicate_outer names (length names) 0 then Throw invalid_argument
  else if negb (length types =? length names) then Throw invalid_argument
  else build types names (length types) 0
         {| tupleSchema := []; tupleTypes := []; tupleNames := [] |}.

(** *** Queries *)

(** [TupleDesc::size] *)
Definition size (td : TupleDesc) : nat := length (tupleTypes td).

Fixpoint compatible_loop (td : TupleDesc) (tuple : Tuple) (n i : nat)
  : result bool :=
  match n with
  | O => Ok true
  | S n' =>
      type <- Tuple.field_type tuple i ;;
      expectedType <- vec_at (tupleTypes td) i ;;
      if negb (type_eqb type expectedType) then Ok false
      else compatible_loop td tuple n' (S i)
  end.

(** [TupleDesc::compatible] *)
Definition compatible (td : TupleDesc) (tuple : Tuple) : result bool :=
  if negb (Tuple.size tuple =? length (tupleTypes td)) then Ok false
  else compatible_loop td tuple (Tuple.size tuple) 0.

(** The loop of [index_of]: [n] names remain, starting at [i]. *)
Fixpoint index_of_loop (td : TupleDesc) (name : string) (n i : nat)
  : result nat :=
  match n with
  | O => Throw out_of_range
  | S n' =>
      name_i <- vec_at (tupleNames td) i ;;
      if String.eqb name_i name then Ok i
      else index_of_loop td name n' (S i)
  end.

(** [TupleDesc::index_of] *)
Definition index_of (td : TupleDesc) (name : string) : result nat :=
  index_of_loop td name (Datatypes.length (tupleNames td)) 0.

Section Widths.

Variable CHAR_SIZE : nat.

Definition type_size (type : type_t) : nat :=
  match type with
  | INT => INT_SIZE
  | DOUBLE => DOUBLE_SIZE
  | CHAR => CHAR_SIZE
  end.

Fixpoint offset_of_loop (td : TupleDesc) (n i offset : nat) : result nat :=
  match n with
  | O => Ok offset
  | S n' =>
      type <- vec_at (tupleTypes td) i ;;
      offset_of_loop td n' (S i) (offset + type_size type)
  end.

(** [TupleDesc::offset_of].  The guard compares [index] with
    [tupleTypes.size() - 1] computed in [size_t], 64 bits wide. *)
Definition offset_of (td : TupleDesc) (index : nat) : result nat :=
  if index =? 0 then Ok 0
  else if (Z.of_nat index >? (Z.of_nat (length (tupleTypes td)) - 1) mod 2 ^ 64)%Z
  then Throw out_of_range
  else offset_of_loop td index 0 0.

Fixpoint length_loop (types : list type_t) (len : nat) : nat :=
  match types with
  | [] => len
  | type :: rest => length_loop rest (len + type_size type)
  end.

(** [TupleDesc::length] *)
Definition length (td : TupleDesc) : nat := length_loop (tupleTypes td) 0.

(** *** Codec *)

Variable mem : Memory.

(** The loop of [deserialize]: [data] is the pointer that the loop
    advances, [fields] the vector it fills. *)
Fixpoint deserialize_loop (types : list type_t) (buf : list Z) (data : nat)
    (fields : list field_t) : list field_t :=
  match types with
  | [] => fields
  | CHAR :: rest =>
      let str := read_bytes buf data CHAR_SIZE in
      deserialize_loop rest buf (data + CHAR_SIZE)
        (fields ++ [f_string (string_of_c_str str
                                (beyond_block mem (List.length fields)))])
  | INT :: rest =>
      let num := signed INT_SIZE (le_value (read_bytes buf data INT_SIZE)) in
      deserialize_loop rest buf (data + INT_SIZE) (fields ++ [f_int num])
  | DOUBLE :: rest =>
      let num := le_value (read_bytes buf data DOUBLE_SIZE) in
      deserialize_loop rest buf (data + DOUBLE_SIZE) (fields ++ [f_double num])
  end.

(** [TupleDesc::deserialize(data)], [data] pointing at [buf + pos]. *)
Definition deserialize (td : TupleDesc) (buf : list Z) (pos : nat) : Tuple :=
  mkTuple (deserialize_loop (tupleTypes td) buf pos []).

(** The loop of [serialize].  An exception leaves the bytes written so
    far in the buffer. *)
Fixpoint serialize_loop (types : list type_t) (t : Tuple) (buf : list Z)
    (data offset i : nat) : result unit * list Z :=
  match types with
  | [] => (Ok tt, buf)
  | CHAR :: rest =>
      match field <- Tuple.get_field t i ;; Tuple.get_string field with
      | Throw e => (Throw e, buf)
      | Ok str =>
          serialize_loop rest t
            (memcpy buf (data + offset)
               (firstn CHAR_SIZE (c_str_storage mem i str CHAR_SIZE)))
            data (offset + CHAR_SIZE) (S i)
      end
  | DOUBLE :: rest =>
      match field <- Tuple.get_field t i ;; Tuple.get_double field with
      | Throw e => (Throw e, buf)
      | Ok num =>
          serialize_loop rest t
            (memcpy buf (data + offset) (le_bytes DOUBLE_SIZE num))
            data (offset + DOUBLE_SIZE) (S i)
      end
  | INT :: rest =>
      match field <- Tuple.get_field t i ;; Tuple.get_int field with
      | Throw e => (Throw e, buf)
      | Ok num =>
          serialize_loop rest t
            (memcpy buf (data + offset) (le_bytes INT_SIZE num))
            data (offset + INT_SIZE) (S i)
      end
  end.

(** [TupleDesc::serialize(data, t)], [data] pointing at [buf + pos]. *)
Definition serialize (td : TupleDesc) (buf : list Z) (pos : nat) (t : Tuple)
  : result unit * list Z :=
  serialize_loop (tupleTypes td) t buf pos 0 0.

End Widths.

(** *** Merge *)

Fixpoint merge_check_inner (td1 td2 : TupleDesc) (i n j : nat) : result unit :=
  match n with
  | O => Ok tt
  | S n' =>
      a <- vec_at (tupleNames td1) i ;;
      b <- vec_at (tupleNames td2) j ;;
      if String.eqb a b then Throw invalid_argument
      else merge_check_inner td1 td2 i n' (S j)
  end.

Fixpoint merge_check (td1 td2 : TupleDesc) (n i : nat) : result unit :=
  match n with
  | O => Ok tt
  | S n' =>
      _ <- merge_check_inner td1 td2 i (size td2) 0 ;;
      merge_check td1 td2 n' (S i)
  end.

(** One of the two loops that copy a schema into [types] and [names]. *)
Fixpoint merge_copy (td : TupleDesc) (n i : nat)
    (acc : list type_t * list string) : result (list type_t * list string) :=
  match n with
  | O => Ok acc
  | S n' =>
      ty <- vec_at (tupleTypes td) i ;;
      name <- vec_at (tupleNames td) i ;;
      merge_copy td n' (S i) (fst acc ++ [ty], snd acc ++ [name])
  end.

(** [TupleDesc::merge(td1, td2)] *)
Definition merge (td1 td2 : TupleDesc) : result TupleDesc :=
  _ <- merge_check td1 td2 (size td1) 0 ;;
  acc1 <- merge_copy td1 (size td1) 0 ([], []) ;;
  acc2 <- merge_copy td2 (size td2) 0 acc1 ;;
  make (fst acc2) (snd acc2).

End TupleDesc.

(** ** Slotted pages ([db/HeapPage.cpp]) *)

(** [Page = std::array<uint8_t, DEFAULT_PAGE_SIZE>] *)
Definition Page : Type := list Z.

(** [buf[i] = v] on a [uint8_t] buffer. *)
Fixpoint store_byte (buf : list Z) (i : nat) (v : Z) : list Z :=
  match buf, i with
  | [], _ => []
  | _ :: r, O => (v mod 256)%Z :: r
  | b :: r, S j => b :: store_byte r j v
  end.

Module HeapPage.

(** The members of [db::HeapPage]; [header] and [data] point into the
    buffer of [page]: they are positions in it. *)
Record t : Type := mk {
  page : Page;
  td : TupleDesc;
  capacity : nat;
  header : nat;
  data : nat
}.

(** The capacity computation of the constructor as the machine does it,
    on 64-bit [size_t]. *)
Definition capacity_u64 (P T : Z) : Z :=
  (((P * 8) mod 2 ^ 64) / (((T * 8) mod 2 ^ 64 + 1) mod 2 ^ 64))%Z.

Section Pages.

Variable CHAR_SIZE : nat.
Variable DEFAULT_PAGE_SIZE : nat.
Variable mem : Memory.

(** [HeapPage::HeapPage(page, td)]; [page.size()] is the constant
    [DEFAULT_PAGE_SIZE]. *)
Definition make (page : Page) (td : TupleDesc) : t :=
  let capacity :=
    (DEFAULT_PAGE_SIZE * 8) / (TupleDesc.length CHAR_SIZE td * 8 + 1) in
  let header := 0 in
  let offset := DEFAULT_PAGE_SIZE - capacity * TupleDesc.length CHAR_SIZE td in
  {| page := page; td := td; capacity := capacity;
     header := header; data := header + offset |}.

(** [HeapPage::empty] *)
Definition empty (hp : t) (slot : nat) : bool :=
  let offset := 7 - slot mod 8 in
  (Z.land (nth (header hp + slot / 8) (page hp) 0%Z)
          (Z.shiftl 1 (Z.of_nat offset)) =? 0)%Z.

(** [while (slot < capacity && empty(slot)) slot++]; at most [n]
    iterations remain. *)
Fixpoint begin_loop (hp : t) (n slot : nat) : nat :=
  match n with
  | O => slot
  | S n' =>
      if (slot <? capacity hp) && empty hp slot
      then begin_loop hp n' (S slot)
      else slot
  end.

(** [HeapPage::begin] *)
Definition begin (hp : t) : nat := begin_loop hp (capacity hp) 0.

(** [HeapPage::end] *)
Definition end_ (hp : t) : nat := capacity hp.

(** [while (!empty(slot) && slot < capacity) slot++] *)
Fixpoint insert_loop (hp : t) (n slot : nat) : nat :=
  match n with
  | O => slot
  | S n' =>
      if negb (empty hp slot) && (slot <? capacity hp)
      then insert_loop hp n' (S slot)
      else slot
  end.

(** [HeapPage::insertTuple] *)
Definition insertTuple (hp : t) (tup : Tuple) : result bool * t :=
  let slot := insert_loop hp (capacity hp) 0 in
  if slot =? capacity hp then (Ok false, hp)
  else
    match TupleDesc.serialize CHAR_SIZE mem (td hp) (page hp)
            (data hp + slot * TupleDesc.length CHAR_SIZE (td hp)) tup with
    | (Throw e, buf) =>
        (Throw e, {| page := buf; td := td hp; capacity := capacity hp;
                     header := header hp; data := data hp |})
    | (Ok _, buf) =>
        let b := nth (header hp + slot / 8) buf 0%Z in
        let buf' :=
          store_byte buf (header hp + slot / 8)
            (Z.lor b (Z.shiftl 1 (Z.of_nat (7 - slot mod 8)))) in
        (Ok true, {| page := buf'; td := td hp; capacity := capacity hp;
                     header := header hp; data := data hp |})
    end.

(** [HeapPage::deleteTuple] *)
Definition deleteTuple (hp : t) (slot : nat) : result unit * t :=
  if empty hp slot then (Throw logic_error, hp)
  else
    let b := nth (header hp + slot / 8) (page hp) 0%Z in
    let buf' :=
      store_byte (page hp) (header hp + slot / 8)
        (Z.land b (Z.lnot (Z.shiftl 1 (Z.of_nat (7 - slot mod 8))))) in
    (Ok tt, {| page := buf'; td := td hp; capacity := capacity hp;
               header := header hp; data := data hp |}).

(** [HeapPage::getTuple] *)
Definition getTuple (hp : t) (slot : nat) : Tuple :=
  let offset := slot * TupleDesc.length CHAR_SIZE (td hp) in
  TupleDesc.deserialize CHAR_SIZE mem (td hp) (page hp) (data hp + offset).

(** [while (empty(slot) && slot < capacity) slot++] *)
Fixpoint next_loop (hp : t) (n slot : nat) : nat :=
  match n with
  | O => slot
  | S n' =>
      if empty hp slot && (slot <? capacity hp)
      then next_loop hp n' (S slot)
      else slot
  end.

(** [HeapPage::next(slot)]: the new value of [slot]. *)
Definition next (hp : t) (slot : nat) : nat :=
  next_loop hp (capacity hp) (slot + 1).

End Pages.

End HeapPage.

(** ** Heap files ([db/DbFile.cpp], [db/HeapFile.cpp]) *)

Module Iterator.

(** A cursor: the page and slot members of [db::Iterator]. *)
Record t : Set := mk { page : nat; slot : nat }.

(** [operator==] of two cursors of one file. *)
Definition eqb (a b : t) : bool :=
  (page a =? page b) && (slot a =? slot b).

End Iterator.

Module DbFile.

(** The page count that [DbFile::DbFile] derives from the size of the
    backing file. *)
Definition initial_numPages (DEFAULT_PAGE_SIZE st_size : nat) : nat :=
  let numPages := st_size / DEFAULT_PAGE_SIZE in
  if numPages =? 0 then 1 else numPages.

End DbFile.

Module HeapFile.

Section Files.

Variable CHAR_SIZE : nat.
Variable DEFAULT_PAGE_SIZE : nat.
Variable mem : Memory.

(** The I/O collaborator.  [DbFile::readPage] and [DbFile::writePage] are
    left to be written in [db/DbFile.cpp]; the heap file is verified
    against any pair of operations on a backing store. *)
Variable Store : Type.
Variable readPage : Store -> nat -> Page.
Variable writePage : Store -> Page -> nat -> Store.

(** The members of [DbFile] that the heap file uses. *)
Record t : Type := mk {
  td : TupleDesc;
  numPages : nat;
  store : Store
}.

(** [Page{}] *)
Definition zero_page : Page := repeat 0%Z DEFAULT_PAGE_SIZE.

(** [HeapFile::HeapFile(name, td)] on a backing file of [st_size] bytes. *)
Definition make (td : TupleDesc) (st_size : nat) (s : Store) : t :=
  {| td := td;
     numPages := DbFile.initial_numPages DEFAULT_PAGE_SIZE st_size;
     store := s |}.

(** [HeapFile::insertTuple] *)
Definition insertTuple (f : t) (tup : Tuple) : result unit * t :=
  let page := readPage (store f) (numPages f - 1) in
  let hp := HeapPage.make CHAR_SIZE DEFAULT_PAGE_SIZE page (td f) in
  match HeapPage.insertTuple CHAR_SIZE mem hp tup with
  | (Throw e, _) => (Throw e, f)
  | (Ok true, hp') =>
      (Ok tt, {| td := td f; numPages := numPages f;
                 store := writePage (store f) (HeapPage.page hp') (numPages f - 1) |})
  | (Ok false, _) =>
      let page := zero_page in
      let newhp := HeapPage.make CHAR_SIZE DEFAULT_PAGE_SIZE page (td f) in
      match HeapPage.insertTuple CHAR_SIZE mem newhp tup with
      | (Throw e, _) => (Throw e, f)
      | (Ok _, newhp') =>
          let numPages' := numPages f + 1 in
          (Ok tt, {| td := td f; numPages := numPages';
                     store := writePage (store f) (HeapPage.page newhp') (numPages' - 1) |})
      end
  end.

(** [HeapFile::deleteTuple] *)
Definition deleteTuple (f : t) (it : Iterator.t) : result unit * t :=
  let page := readPage (store f) (Iterator.page it) in
  let hp := HeapPage.make CHAR_SIZE DEFAULT_PAGE_SIZE page (td f) in
  match HeapPage.deleteTuple hp (Iterator.slot it) with
  | (Throw e, _) => (Throw e, f)
  | (Ok _, hp') =>
      (Ok tt, {| td := td f; numPages := numPages f;
                 store := writePage (store f) (HeapPage.page hp') (Iterator.page it) |})
  end.

(** [HeapFile::getTuple] *)
Definition getTuple (f : t) (it : Iterator.t) : Tuple :=
  let page := readPage (store f) (Iterator.page it) in
  let hp := HeapPage.make CHAR_SIZE DEFAULT_PAGE_SIZE page (td f) in
  HeapPage.getTuple CHAR_SIZE mem hp (Iterator.slot it).

(** [HeapFile::end] *)
Definition end_ (f : t) : Iterator.t :=
  let p := readPage (store f) 0 in
  let hp := HeapPage.make CHAR_SIZE DEFAULT_PAGE_SIZE p (td f) in
  Iterator.mk (numPages f - 1) (HeapPage.end_ hp).

(** The loop of [HeapFile::begin]: [n] pages remain, starting at [i]. *)
Fixpoint begin_loop (f : t) (n i : nat) : Iterator.t :=
  match n with
  | O => end_ f
  | S n' =>
      let page := readPage (store f) i in
      let hp := HeapPage.make CHAR_SIZE DEFAULT_PAGE_SIZE page (td f) in
      let slot := HeapPage.begin hp in
      if negb (slot =? HeapPage.end_ hp) then Iterator.mk i slot
      else begin_loop f n' (S i)
  end.

(** [HeapFile::begin] *)
Definition begin (f : t) : Iterator.t := begin_loop f (numPages f) 0.

(** The loop [while (!found)] of [HeapFile::next]; [None] when the [n]
    iterations granted do not reach [found]. *)
Fixpoint next_loop (f : t) (n : nat) (it : Iterator.t) : option Iterator.t :=
  match n with
  | O => None
  | S n' =>
      let page := readPage (store f) (Iterator.page it) in
      let hp := HeapPage.make CHAR_SIZE DEFAULT_PAGE_SIZE page (td f) in
      let slot := HeapPage.next hp (Iterator.slot it) in
      if (slot =? HeapPage.end_ hp) && (Iterator.page it <? numPages f - 1)
      then
        let it' := Iterator.mk (Iterator.page it + 1) 0 in
        let page := readPage (store f) (Iterator.page it') in
        let checkhp := HeapPage.make CHAR_SIZE DEFAULT_PAGE_SIZE page (td f) in
        if negb (HeapPage.empty checkhp (Iterator.slot it')) then Some it'
        else next_loop f n' it'
      else Some (Iterator.mk (Iterator.page it) slot)
  end.

(** [HeapFile::next(it)]: the new value of [it].  Every iteration that
    does not set [found] moves to the next page, so one iteration per
    page and one more are granted. *)
Definition next (f : t) (it : Iterator.t) : option Iterator.t :=
  next_loop f (S (numPages f)) it.

(** The scan of a client: [for (it = begin(); it != end(); next(it))],
    collecting the cursors it stops at; [None] when [n] steps do not reach
    [end()]. *)
Fixpoint scan_from (f : t) (n : nat) (it : Iterator.t)
  : option (list Iterator.t) :=
  match n with
  | O => None
  | S n' =>
      if Iterator.eqb it (end_ f) then Some []
      else
        match next f it with
        | None => None
        | Some it' =>
            match scan_from f n' it' with
            | None => None
            | Some l => Some (it :: l)
            end
        end
  end.

Definition scan (f : t) (n : nat) : option (list Iterator.t) :=
  scan_from f n (begin f).

(** A slot of a page of the file holds a tuple. *)
Definition occupied (f : t) (p s : nat) : bool :=
  let hp := HeapPage.make CHAR_SIZE DEFAULT_PAGE_SIZE (readPage (store f) p) (td f) in
  (s <? HeapPage.capacity hp) && negb (HeapPage.empty hp s).

(** The occupied cursors of page [p] from slot [s] on, in slot order. *)
Definition occupied_in_page (f : t) (p s : nat) : list Iterator.t :=
  let hp := HeapPage.make CHAR_SIZE DEFAULT_PAGE_SIZE (readPage (store f) p) (td f) in
  map (Iterator.mk p)
    (filter (occupied f p) (seq s (HeapPage.capacity hp - s))).

(** The occupied cursors of the file from page [p], slot [s] on, in
    (page, slot) order. *)
Definition occupied_from (f : t) (p s : nat) : list Iterator.t :=
  occupied_in_page f p s
  ++ flat_map (fun q => occupied_in_page f q 0) (seq (S p) (numPages f - S p)).

Definition occupied_cursors (f : t) : list Iterator.t :=
  flat_map (fun q => occupied_in_page f q 0) (seq 0 (numPages f)).

End Files.

Arguments mk {Store} td numPages store.
Arguments td {Store} t.
Arguments numPages {Store} t.
Arguments store {Store} t.
Arguments make DEFAULT_PAGE_SIZE {Store} td st_size s.
Arguments insertTuple CHAR_SIZE DEFAULT_PAGE_SIZE mem {Store} readPage writePage f tup.
Arguments deleteTuple CHAR_SIZE DEFAULT_PAGE_SIZE {Store} readPage writePage f it.
Arguments getTuple CHAR_SIZE DEFAULT_PAGE_SIZE mem {Store} readPage f it.
Arguments end_ CHAR_SIZE DEFAULT_PAGE_SIZE {Store} readPage f.
Arguments begin_loop CHAR_SIZE DEFAULT_PAGE_SIZE {Store} readPage f n i.
Arguments begin CHAR_SIZE DEFAULT_PAGE_SIZE {Store} readPage f.
Arguments next_loop CHAR_SIZE DEFAULT_PAGE_SIZE {Store} readPage f n it.
Arguments next CHAR_SIZE DEFAULT_PAGE_SIZE {Store} readPage f it.
Arguments scan_from CHAR_SIZE DEFAULT_PAGE_SIZE {Store} readPage f n it.
Arguments scan CHAR_SIZE DEFAULT_PAGE_SIZE {Store} readPage f n.
Arguments occupied CHAR_SIZE DEFAULT_PAGE_SIZE {Store} readPage f p s.
Arguments occupied_in_page CHAR_SIZE DEFAULT_PAGE_SIZE {Store} readPage f p s.
Arguments occupied_from CHAR_SIZE DEFAULT_PAGE_SIZE {Store} readPage f p s.
Arguments occupied_cursors CHAR_SIZE DEFAULT_PAGE_SIZE {Store} readPage f.

End HeapFile.

(** Cursors in (page, slot) order. *)
Definition cursor_lt (a b : Iterator.t) : Prop :=
  Iterator.page a < Iterator.page b
  \/ (Iterator.page a = Iterator.page b /\ Iterator.slot a < Iterator.slot b).

(** ** Vocabulary of the properties *)

(** A name occurs twice in a list. *)
Fixpoint has_duplicate (names : list string) : bool :=
  match names with
  | [] => false
  | x :: r => existsb (String.eqb x) r || has_duplicate r
  end.

(** The alternative that a field holds. *)
Definition type_of_field (f : field_t) : type_t :=
  match f with
  | f_int _ => INT
  | f_double _ => DOUBLE
  | f_string _ => CHAR
  end.

(** The string holds no NUL character. *)
Fixpoint no_nul (s : string) : bool :=
  match s with
  | EmptyString => true
  | String c r => negb (Ascii.eqb c zero) && no_nul r
  end.

(** The byte width of a list of field types. *)
Definition width (CHAR_SIZE : nat) (types : list type_t) : nat :=
  list_sum (map (TupleDesc.type_size CHAR_SIZE) types).

(** A text field that [serialize] and [deserialize] carry over: shorter
    than the fixed width, without a NUL character. *)
Definition text_fits (CHAR_SIZE : nat) (f : field_t) : bool :=
  match f with
  | f_string s => (String.length s <? CHAR_SIZE) && no_nul s
  | _ => true
  end.

(** The bytes that [serialize] copies for field [i]. *)
Definition field_bytes (CHAR_SIZE : nat) (mem : Memory) (i : nat)
    (f : field_t) : list Z :=
  match f with
  | f_string str => firstn CHAR_SIZE (c_str_storage mem i str CHAR_SIZE)
  | f_double num => le_bytes DOUBLE_SIZE num
  | f_int num => le_bytes INT_SIZE num
  end.

(** The field that [deserialize] builds from the bytes of a field. *)
Definition decode_field (ty : type_t) (bytes : list Z) (tail : string)
  : field_t :=
  match ty with
  | CHAR => f_string (string_of_c_str bytes tail)
  | INT => f_int (signed INT_SIZE (le_value bytes))
  | DOUBLE => f_double (le_value bytes)
  end.

(** *** Sample data *)

(** Nothing but NUL bytes after every object. *)
Definition zero_memory : Memory :=
  {| beyond_string := fun _ _ => zero; beyond_block := fun _ => EmptyString |}.

(** The letter [c] after every string. *)
Definition memory_of (c : ascii) : Memory :=
  {| beyond_string := fun _ _ => c; beyond_block := fun _ => EmptyString |}.

(** The schema of one text field. *)
Definition name_schema : TupleDesc :=
  {| tupleSchema := [("name"%string, 0)];
     tupleTypes := [CHAR];
     tupleNames := ["name"%string] |}.

(** The schema of an integer, a text and a floating point field. *)
Definition record_schema : TupleDesc :=
  {| tupleSchema := [("id"%string, 0); ("name"%string, 1); ("weight"%string, 2)];
     tupleTypes := [INT; CHAR; DOUBLE];
     tupleNames := ["id"%string; "name"%string; "weight"%string] |}.

(** A text of [n] letters a. *)
Definition letters (n : nat) : string :=
  string_of_list_ascii (repeat "a"%char n).

(** The header bit of a slot in a buffer whose header starts at [h]. *)
Definition header_bit (buf : list Z) (h slot : nat) : bool :=
  Z.testbit (nth (h + slot / 8) buf 0%Z) (Z.of_nat (7 - slot mod 8)).

(** The byte that [insertTuple] stores in the header for [slot]. *)
Definition header_byte_set (buf : list Z) (h slot : nat) : Z :=
  Z.lor (nth (h + slot / 8) buf 0%Z) (Z.shiftl 1 (Z.of_nat (7 - slot mod 8))).

(** Insertion of a list of tuples into a page, one after the other: the
    outcomes and the page at the end. *)
Fixpoint insert_all (CHAR_SIZE : nat) (mem : Memory) (hp : HeapPage.t)
    (ts : list Tuple) : list (result bool) * HeapPage.t :=
  match ts with
  | [] => ([], hp)
  | tup :: r =>
      let (o, hp') := HeapPage.insertTuple CHAR_SIZE mem hp tup in
      let (os, hp'') := insert_all CHAR_SIZE mem hp' r in
      (o :: os, hp'')
  end.

(** The first [k] slots of a page are occupied, the others empty. *)
Definition filled_to (k : nat) (hp : HeapPage.t) : Prop :=
  forall j, j < HeapPage.capacity hp -> HeapPage.empty hp j = (k <=? j).

(** The capacity of the pages of a file. *)
Definition file_capacity (CHAR_SIZE DEFAULT_PAGE_SIZE : nat) {Store : Type}
    (f : HeapFile.t Store) : nat :=
  (DEFAULT_PAGE_SIZE * 8) / (TupleDesc.length CHAR_SIZE (HeapFile.td f) * 8 + 1).

(** Page [p] of a file, as the heap file wraps it. *)
Definition heap_page (CHAR_SIZE DEFAULT_PAGE_SIZE : nat) {Store : Type}
    (readPage : Store -> nat -> Page) (f : HeapFile.t Store) (p : nat)
  : HeapPage.t :=
  HeapPage.make CHAR_SIZE DEFAULT_PAGE_SIZE
    (readPage (HeapFile.store f) p) (HeapFile.td f).

(** No slot of the page is empty: the scan of [insertTuple] reaches the
    capacity. *)
Definition page_full (hp : HeapPage.t) : bool :=
  HeapPage.insert_loop hp (HeapPage.capacity hp) 0 =? HeapPage.capacity hp.

(** Insertion of a list of tuples into a file, one after the other: the
    outcomes and the file at the end. *)
Fixpoint file_insert_all (CHAR_SIZE DEFAULT_PAGE_SIZE : nat) (mem : Memory)
    {Store : Type} (readPage : Store -> nat -> Page)
    (writePage : Store -> Page -> nat -> Store) (f : HeapFile.t Store)
    (ts : list Tuple) : list (result unit) * HeapFile.t Store :=
  match ts with
  | [] => ([], f)
  | tup :: r =>
      let (o, f') :=
        HeapFile.insertTuple CHAR_SIZE DEFAULT_PAGE_SIZE mem readPage writePage f tup in
      let (os, f'') :=
        file_insert_all CHAR_SIZE DEFAULT_PAGE_SIZE mem readPage writePage f' r in
      (o :: os, f'')
  end.

(** *** A backing store for the examples: the page of each index *)

Definition fun_store : Type := nat -> Page.

Definition fun_read (s : fun_store) (i : nat) : Page := s i.

Definition fun_write (s : fun_store) (pg : Page) (i : nat) : fun_store :=
  fun j => if j =? i then pg else s j.

(** The store of a new file of pages of [P] bytes. *)
Definition new_store (P : nat) : fun_store := fun _ => repeat 0%Z P.

(** The schema of one integer field. *)
Definition int_schema : TupleDesc :=
  {| tupleSchema := [("id"%string, 0)];
     tupleTypes := [INT];
     tupleNames := ["id"%string] |}.

(** Three pages of 16 bytes with three slots each: slot 1 of page 0 and
    slots 1 and 2 of page 2 hold a tuple, page 1 holds none. *)
Definition sample_file : HeapFile.t fun_store :=
  HeapFile.mk int_schema 3
    (fun i =>
       match i with
       | 0 => [64; 0; 0; 0; 1; 0; 0; 0; 2; 0; 0; 0; 3; 0; 0; 0]%Z
       | 2 => [96; 0; 0; 0; 4; 0; 0; 0; 5; 0; 0; 0; 6; 0; 0; 0]%Z
       | _ => repeat 0%Z 16
       end).

(** *** The collaborator as [db/DbFile.cpp] has it

    [DbFile::readPage] and [DbFile::writePage] only log the page index:
    the buffer, which every caller has zeroed, is left as it is, and
    nothing is stored. *)

Definition stub_read (P : nat) (s : unit) (i : nat) : Page := repeat 0%Z P.

Definition stub_write (s : unit) (pg : Page) (i : nat) : unit := s.

(** The outcome of [serialize] as the types of the schema and the fields
    of the tuple decide it: the first field that is missing or of another
    type than the schema declares ends the call. *)
Fixpoint serialize_outcome (types : list type_t) (fs : list field_t)
  : result unit :=
  match types, fs with
  | [], _ => Ok tt
  | _ :: _, [] => Throw out_of_range
  | ty :: r, f :: fs' =>
      if type_eqb (type_of_field f) ty then serialize_outcome r fs'
      else Throw bad_variant_access
  end.

(** A record, and the page of 4096 bytes that holds it in slot 0. *)
Definition sample_record : Tuple :=
  mkTuple [f_int 7; f_string "ab"; f_double 0].

Definition one_record_page : Page :=
  HeapPage.page
    (snd (HeapPage.insertTuple 64 zero_memory
            (HeapPage.make 64 4096 (repeat 0%Z 4096) record_schema)
            sample_record)).

(** The text of the letter a, a NUL character and the letter b. *)
Definition nul_text : string :=
  String "a" (String zero (String "b" EmptyString)).

(** * Properties *)

(** ** Bounds-checked access and index loops *)

Lemma vec_at_lt (A : Type) (v : list A) (i : nat) (d : A) :
  i < length v -> vec_at v i = Ok (nth i v d).
Proof.
  intros Hi. unfold vec_at.
  destruct (nth_error v i) as [x|] eqn:E.
  - now rewrite (nth_error_nth v i d E).
  - apply nth_error_None in E. lia.
Qed.

Lemma vec_at_ge (A : Type) (v : list A) (i : nat) :
  length v <= i -> vec_at v i = @Throw A out_of_range.
Proof.
  intros Hi. unfold vec_at.
  now rewrite (proj2 (nth_error_None v i) Hi).
Qed.

Lemma vec_at_skipn (A : Type) (v : list A) (i : nat) (x : A) (r : list A) :
  skipn i v = x :: r -> vec_at v i = Ok x /\ skipn (S i) v = r.
Proof.
  revert v. induction i as [|i IH]; intros [|y v] E; simpl in E; try discriminate.
  - inversion E; subst. now split.
  - now apply IH.
Qed.

Lemma skipn_cons_nth (A : Type) (v : list A) (i : nat) (d : A) :
  i < length v -> skipn i v = nth i v d :: skipn (S i) v.
Proof.
  revert v. induction i as [|i IH]; intros [|y v] Hi; simpl in *; try lia.
  - reflexivity.
  - apply IH. lia.
Qed.

(** ** Schemas: widths and offsets *)

Section Offsets.

Variable CHAR_SIZE : nat.

Lemma length_loop_width (types : list type_t) (len : nat) :
  TupleDesc.length_loop CHAR_SIZE types len = len + width CHAR_SIZE types.
Proof.
  revert len. induction types as [|ty r IH]; intros len; simpl.
  - unfold width. simpl. lia.
  - rewrite IH. unfold width. simpl. lia.
Qed.

Lemma length_width (td : TupleDesc) :
  TupleDesc.length CHAR_SIZE td = width CHAR_SIZE (tupleTypes td).
Proof. unfold TupleDesc.length. now rewrite length_loop_width. Qed.

Lemma offset_of_loop_in_range (td : TupleDesc) (n i offset : nat) :
  i + n <= length (tupleTypes td) ->
  TupleDesc.offset_of_loop CHAR_SIZE td n i offset
  = Ok (offset + width CHAR_SIZE (firstn n (skipn i (tupleTypes td)))).
Proof.
  revert i offset. induction n as [|n IH]; intros i offset Hn; simpl.
  - unfold width. simpl. f_equal. lia.
  - rewrite (vec_at_lt _ _ i INT) by lia. simpl.
    rewrite IH by lia.
    rewrite (skipn_cons_nth _ (tupleTypes td) i INT) by lia.
    simpl. unfold width. simpl. f_equal. lia.
Qed.

Lemma offset_of_loop_out_of_range (td : TupleDesc) (n i offset : nat) :
  0 < n -> length (tupleTypes td) < i + n ->
  TupleDesc.offset_of_loop CHAR_SIZE td n i offset = Throw out_of_range.
Proof.
  revert i offset. induction n as [|n IH]; intros i offset Hpos Hn; simpl.
  - lia.
  - destruct (Nat.lt_ge_cases i (length (tupleTypes td))) as [Hi|Hi].
    + rewrite (vec_at_lt _ _ i INT) by lia. simpl. apply IH; lia.
    + now rewrite vec_at_ge.
Qed.

(** Within the range of the schema, [offset_of] is the width of the
    fields before [index]. *)
Lemma offset_of_in_range (td : TupleDesc) (index : nat) :
  (Z.of_nat (TupleDesc.size td) <= 2 ^ 64)%Z ->
  index < TupleDesc.size td ->
  TupleDesc.offset_of CHAR_SIZE td index
  = Ok (width CHAR_SIZE (firstn index (tupleTypes td))).
Proof.
  unfold TupleDesc.size, TupleDesc.offset_of. intros Hsz Hi.
  destruct (Nat.eqb_spec index 0) as [->|Hne]; [reflexivity|].
  rewrite Z.mod_small by lia.
  destruct (Z.gtb_spec (Z.of_nat index) (Z.of_nat (length (tupleTypes td)) - 1)); [lia|].
  now rewrite offset_of_loop_in_range by lia.
Qed.

(** Out of the range of the schema, [offset_of] fails, except at index 0. *)
Lemma offset_of_out_of_range (td : TupleDesc) (index : nat) :
  TupleDesc.size td <= index -> index <> 0 ->
  TupleDesc.offset_of CHAR_SIZE td index = Throw out_of_range.
Proof.
  unfold TupleDesc.size, TupleDesc.offset_of. intros Hi Hne.
  destruct (Nat.eqb_spec index 0) as [->|_]; [easy|].
  match goal with |- context [(?a >? ?b)%Z] => destruct (Z.gtb_spec a b) as [|Hle] end;
    [reflexivity|].
  destruct (length (tupleTypes td)) as [|n] eqn:E.
  - apply offset_of_loop_out_of_range; lia.
  - exfalso.
    assert (H : ((Z.of_nat (S n) - 1) mod 2 ^ 64 <= Z.of_nat (S n) - 1)%Z)
      by (apply Z.mod_le; lia).
    lia.
Qed.

End Offsets.

(** C9.  The specification asks [offset_of] to fail for every index out
    of the schema's range, index 0 of a schema without fields included.  The
    code returns offset 0 for index 0 before it looks at the schema: on
    the schema without fields, which the constructor accepts, the call
    succeeds. *)
Theorem offset_of_index_0_on_empty_schema :
  forall CHAR_SIZE : nat,
    exists td : TupleDesc,
      TupleDesc.make [] [] = Ok td
      /\ TupleDesc.size td = 0
      /\ TupleDesc.offset_of CHAR_SIZE td 0 = Ok 0.
Proof.
  intros CHAR_SIZE. eexists. split; [reflexivity|]. split; reflexivity.
Qed.

(** ** Schemas: construction and merge *)

(** The sample schemas are schemas that the constructor builds. *)
Lemma sample_schemas_made :
  TupleDesc.make [CHAR] ["name"%string] = Ok name_schema
  /\ TupleDesc.make [INT] ["id"%string] = Ok int_schema
  /\ TupleDesc.make [INT; CHAR; DOUBLE]
       ["id"%string; "name"%string; "weight"%string] = Ok record_schema.
Proof. repeat split. Qed.

Lemma existsb_eqb_In (x : string) (l : list string) :
  existsb (String.eqb x) l = true <-> In x l.
Proof.
  rewrite existsb_exists. split.
  - intros (y & Hy & E). apply String.eqb_eq in E. now subst.
  - intros H. exists x. split; [assumption|apply String.eqb_refl].
Qed.

Lemma has_duplicate_NoDup (names : list string) :
  has_duplicate names = false <-> NoDup names.
Proof.
  induction names as [|x r IH]; simpl.
  - split; [constructor|reflexivity].
  - rewrite orb_false_iff, IH. split.
    + intros [Hx Hr]. constructor; [|assumption].
      intros Hin. apply existsb_eqb_In in Hin. congruence.
    + intros H. inversion H as [|? ? Hx Hr]; subst. split; [|assumption].
      destruct (existsb (String.eqb x) r) eqn:E; [|reflexivity].
      apply existsb_eqb_In in E. contradiction.
Qed.

Lemma duplicate_inner_spec (names : list string) (x : string) (n j : nat) :
  j + n <= length names ->
  TupleDesc.duplicate_inner names x n j
  = existsb (String.eqb x) (firstn n (skipn j names)).
Proof.
  revert j. induction n as [|n IH]; intros j Hj; simpl; [reflexivity|].
  rewrite (skipn_cons_nth _ names j EmptyString) by lia. simpl.
  destruct (String.eqb x (nth j names EmptyString)); [reflexivity|].
  apply IH. lia.
Qed.

Lemma duplicate_outer_spec (names : list string) (n i : nat) :
  i + n = length names ->
  TupleDesc.duplicate_outer names n i = has_duplicate (skipn i names).
Proof.
  revert i. induction n as [|n IH]; intros i Hi;
    cbn [TupleDesc.duplicate_outer].
  - now rewrite skipn_all2 by lia.
  - rewrite (skipn_cons_nth _ names i EmptyString) by lia.
    cbn [has_duplicate].
    rewrite duplicate_inner_spec by lia.
    replace (length names - (i + 1)) with (length (skipn (i + 1) names))
      by (rewrite length_skipn; lia).
    rewrite firstn_all. replace (i + 1) with (S i) by lia.
    destruct (existsb _ (skipn (S i) names)); [reflexivity|].
    apply IH. lia.
Qed.

Lemma build_spec (types : list type_t) (names : list string) (n i : nat)
    (td : TupleDesc) :
  i + n <= length types -> i + n <= length names ->
  exists td' : TupleDesc,
    TupleDesc.build types names n i td = Ok td'
    /\ tupleTypes td' = tupleTypes td ++ firstn n (skipn i types)
    /\ tupleNames td' = tupleNames td ++ firstn n (skipn i names).
Proof.
  revert i td. induction n as [|n IH]; intros i td Ht Hn; simpl.
  - exists td. now rewrite !app_nil_r.
  - rewrite (vec_at_lt _ types i INT), (vec_at_lt _ names i EmptyString) by lia.
    simpl.
    edestruct IH as (td' & E & HT & HN); [| |rewrite E]; try (simpl; lia).
    exists td'. split; [reflexivity|]. simpl in HT, HN.
    rewrite HT, HN, <- !app_assoc. simpl.
    now rewrite (skipn_cons_nth _ types i INT),
      (skipn_cons_nth _ names i EmptyString) by lia.
Qed.

(** The constructor accepts exactly the lists of equal length without a
    repeated name, and keeps them as they are. *)
Lemma make_Ok (types : list type_t) (names : list string) :
  NoDup names -> length types = length names ->
  exists td : TupleDesc,
    TupleDesc.make types names = Ok td
    /\ tupleTypes td = types /\ tupleNames td = names.
Proof.
  intros Hnd Hlen. unfold TupleDesc.make.
  rewrite duplicate_outer_spec by lia. simpl.
  rewrite (proj2 (has_duplicate_NoDup names) Hnd).
  rewrite Hlen, Nat.eqb_refl. simpl.
  destruct (build_spec types names (length names) 0
              {| tupleSchema := []; tupleTypes := []; tupleNames := [] |})
    as (td & E & HT & HN); try lia.
  exists td. split; [assumption|]. simpl in HT, HN.
  rewrite HT, HN. rewrite <- Hlen at 1. now rewrite !firstn_all.
Qed.

Lemma make_inv (types : list type_t) (names : list string) (td : TupleDesc) :
  TupleDesc.make types names = Ok td ->
  NoDup names /\ length types = length names
  /\ tupleTypes td = types /\ tupleNames td = names.
Proof.
  unfold TupleDesc.make. rewrite duplicate_outer_spec by lia. simpl.
  destruct (has_duplicate names) eqn:Hd; [discriminate|].
  destruct (Nat.eqb_spec (length types) (length names)) as [Hlen|];
    [simpl|discriminate].
  intros E. apply has_duplicate_NoDup in Hd.
  destruct (make_Ok types names Hd Hlen) as (td' & E' & HT & HN).
  unfold TupleDesc.make in E'. rewrite duplicate_outer_spec in E' by lia.
  simpl in E'. rewrite (proj2 (has_duplicate_NoDup names) Hd) in E'.
  rewrite Hlen, Nat.eqb_refl in E'. simpl in E'. rewrite Hlen in E.
  assert (td' = td) by congruence. subst. tauto.
Qed.

Lemma merge_check_inner_spec (td1 td2 : TupleDesc) (a : string) (i n j : nat) :
  vec_at (tupleNames td1) i = Ok a ->
  j + n <= length (tupleNames td2) ->
  TupleDesc.merge_check_inner td1 td2 i n j
  = if existsb (String.eqb a) (firstn n (skipn j (tupleNames td2)))
    then Throw invalid_argument else Ok tt.
Proof.
  intros Ha. revert j. induction n as [|n IH]; intros j Hj; simpl;
    [reflexivity|].
  rewrite Ha, (vec_at_lt _ _ j EmptyString) by lia. simpl.
  rewrite (skipn_cons_nth _ (tupleNames td2) j EmptyString) by lia. simpl.
  destruct (String.eqb a (nth j (tupleNames td2) EmptyString));
    [reflexivity|].
  apply IH. lia.
Qed.

Lemma merge_check_spec (td1 td2 : TupleDesc) (n i : nat) :
  i + n <= length (tupleNames td1) ->
  TupleDesc.size td2 = length (tupleNames td2) ->
  TupleDesc.merge_check td1 td2 n i
  = if existsb (fun a => existsb (String.eqb a) (tupleNames td2))
         (firstn n (skipn i (tupleNames td1)))
    then Throw invalid_argument else Ok tt.
Proof.
  intros Hi Hsz. revert i Hi. induction n as [|n IH]; intros i Hi; simpl;
    [reflexivity|].
  rewrite (merge_check_inner_spec td1 td2 (nth i (tupleNames td1) EmptyString))
    by (try apply vec_at_lt; simpl; lia).
  rewrite Hsz, firstn_all. simpl.
  rewrite (skipn_cons_nth _ (tupleNames td1) i EmptyString) by lia. simpl.
  destruct (existsb _ (tupleNames td2)); [reflexivity|]. simpl.
  apply IH. lia.
Qed.

Lemma merge_copy_spec (td : TupleDesc) (n i : nat)
    (acc : list type_t * list string) :
  i + n <= length (tupleTypes td) -> i + n <= length (tupleNames td) ->
  TupleDesc.merge_copy td n i acc
  = Ok (fst acc ++ firstn n (skipn i (tupleTypes td)),
        snd acc ++ firstn n (skipn i (tupleNames td))).
Proof.
  revert i acc. induction n as [|n IH]; intros i [ts ns] Ht Hn; simpl.
  - now rewrite !app_nil_r.
  - rewrite (vec_at_lt _ _ i INT), (vec_at_lt _ _ i EmptyString) by lia.
    simpl. rewrite IH by lia. simpl. rewrite <- !app_assoc. simpl.
    now rewrite (skipn_cons_nth _ (tupleTypes td) i INT),
      (skipn_cons_nth _ (tupleNames td) i EmptyString) by lia.
Qed.

(** C8.  Two schemas built by the constructor merge into the schema of
    the first one's fields followed by the second one's, names and types
    kept, when no name occurs in both; when a name occurs in both, at any
    two positions and whatever the types of the two fields, the merge
    fails. *)
Theorem merge_disjoint_or_fails :
  forall (types1 types2 : list type_t) (names1 names2 : list string)
         (td1 td2 : TupleDesc),
    TupleDesc.make types1 names1 = Ok td1 ->
    TupleDesc.make types2 names2 = Ok td2 ->
    ((forall name, In name names1 -> ~ In name names2) ->
     exists td : TupleDesc,
       TupleDesc.merge td1 td2 = Ok td
       /\ tupleTypes td = types1 ++ types2
       /\ tupleNames td = names1 ++ names2)
    /\ ((exists name, In name names1 /\ In name names2) ->
        TupleDesc.merge td1 td2 = Throw invalid_argument).
Proof.
  intros types1 types2 names1 names2 td1 td2 E1 E2.
  apply make_inv in E1. destruct E1 as (Hnd1 & Hlen1 & <- & <-).
  apply make_inv in E2. destruct E2 as (Hnd2 & Hlen2 & <- & <-).
  unfold TupleDesc.merge, TupleDesc.size.
  rewrite merge_check_spec by (unfold TupleDesc.size; lia).
  assert (F1 : firstn (length (tupleTypes td1)) (tupleNames td1)
               = tupleNames td1) by (rewrite Hlen1; apply firstn_all).
  assert (F2 : firstn (length (tupleTypes td2)) (tupleNames td2)
               = tupleNames td2) by (rewrite Hlen2; apply firstn_all).
  cbn [skipn]. rewrite F1. split.
  - intros Hdisj.
    destruct (existsb _ (tupleNames td1)) eqn:Ex.
    { apply existsb_exists in Ex. destruct Ex as (a & Ha & Hb).
      apply existsb_eqb_In in Hb. now destruct (Hdisj a). }
    cbn [bind].
    rewrite merge_copy_spec by lia. cbn [bind].
    rewrite merge_copy_spec by lia. cbn [bind fst snd skipn app].
    rewrite !firstn_all, F1, F2.
    apply make_Ok.
    + apply NoDup_app; auto.
    + rewrite !length_app. lia.
  - intros (a & Ha & Hb).
    replace (existsb _ (tupleNames td1)) with true; [reflexivity|].
    symmetry. apply existsb_exists. exists a. split; [assumption|].
    now apply existsb_eqb_In.
Qed.

(** Two schemas of one field each, with different names. *)
Lemma merge_disjoint_or_fails_witness :
  exists td : TupleDesc,
    TupleDesc.merge
      {| tupleSchema := [("id"%string, 0)]; tupleTypes := [INT];
         tupleNames := ["id"%string] |}
      {| tupleSchema := [("name"%string, 0)]; tupleTypes := [CHAR];
         tupleNames := ["name"%string] |} = Ok td
    /\ tupleTypes td = [INT] ++ [CHAR]
    /\ tupleNames td = ["id"%string] ++ ["name"%string].
Proof.
  apply (merge_disjoint_or_fails [INT] [CHAR] ["id"%string] ["name"%string]
           _ _ eq_refl eq_refl).
  intros name [<-|[]] [E|[]]. discriminate.
Defined.

(** ** Compatibility of a tuple with a schema *)

Lemma type_eqb_eq (a b : type_t) : type_eqb a b = true <-> a = b.
Proof. destruct a, b; simpl; split; congruence. Qed.

Lemma field_type_nth (t : Tuple) (i : nat) :
  i < length (fields t) ->
  Tuple.field_type t i = Ok (type_of_field (nth i (fields t) (f_int 0))).
Proof.
  intros Hi. unfold Tuple.field_type.
  rewrite (vec_at_lt _ _ i (f_int 0)) by assumption. simpl.
  now destruct (nth i (fields t) (f_int 0)).
Qed.

(** Every tuple field carries one of the three types: [field_type] is
    [at] on the list of the fields' types. *)
Lemma field_type_vec_at (t : Tuple) (i : nat) :
  Tuple.field_type t i = vec_at (map type_of_field (fields t)) i.
Proof.
  unfold Tuple.field_type, vec_at. rewrite nth_error_map.
  destruct (nth_error (fields t) i) as [[]|]; reflexivity.
Qed.

Lemma compatible_loop_spec (td : TupleDesc) (t : Tuple) (n i : nat) :
  i + n <= length (fields t) -> i + n <= length (tupleTypes td) ->
  TupleDesc.compatible_loop td t n i
  = Ok (forallb (fun k => type_eqb (type_of_field (nth k (fields t) (f_int 0)))
                            (nth k (tupleTypes td) INT))
          (seq i n)).
Proof.
  revert i. induction n as [|n IH]; intros i Hf Ht; cbn [TupleDesc.compatible_loop seq forallb].
  - reflexivity.
  - rewrite field_type_nth by lia. cbn [bind].
    rewrite (vec_at_lt _ _ i INT) by lia. cbn [bind].
    destruct (type_eqb _ _); [|reflexivity]. simpl. apply IH; lia.
Qed.

(** [compatible] never throws; it answers whether the types of the
    tuple's fields are the types of the schema. *)
Lemma compatible_spec (td : TupleDesc) (t : Tuple) :
  TupleDesc.compatible td t = Ok true
  <-> map type_of_field (fields t) = tupleTypes td.
Proof.
  unfold TupleDesc.compatible, Tuple.size.
  destruct (Nat.eqb_spec (length (fields t)) (length (tupleTypes td)))
    as [Hlen|Hlen]; simpl.
  - rewrite compatible_loop_spec by lia. split.
    + intros E. injection E as E. rewrite forallb_forall in E.
      apply (nth_ext _ _ INT INT); [now rewrite length_map|].
      intros k Hk. rewrite length_map in Hk.
      rewrite (nth_indep _ INT (type_of_field (f_int 0)))
        by now rewrite length_map.
      rewrite map_nth. apply type_eqb_eq. apply E. apply in_seq. lia.
    + intros E. f_equal. apply forallb_forall. intros k Hk.
      apply in_seq in Hk. apply type_eqb_eq. rewrite <- E.
      rewrite (nth_indep _ INT (type_of_field (f_int 0)))
        by (rewrite length_map; lia).
      now rewrite map_nth.
  - split; [discriminate|]. intros E. exfalso. apply Hlen.
    now rewrite <- E, length_map.
Qed.

Section Decoding.

Variable CHAR_SIZE : nat.
Variable mem : Memory.

Lemma deserialize_loop_types (types : list type_t) (buf : list Z)
    (data : nat) (acc : list field_t) :
  map type_of_field (TupleDesc.deserialize_loop CHAR_SIZE mem types buf data acc)
  = map type_of_field acc ++ types.
Proof.
  revert data acc.
  induction types as [|ty r IH]; intros data acc;
    cbn [TupleDesc.deserialize_loop].
  - now rewrite app_nil_r.
  - destruct ty; rewrite IH, map_app, <- app_assoc; reflexivity.
Qed.

(** C10.  Whatever the buffer holds, the tuple that [deserialize] builds
    is compatible with the schema: it has as many fields as the schema,
    the field at each index has the type that the schema declares there,
    and [compatible] answers true. *)
Theorem deserialize_compatible :
  forall (td : TupleDesc) (buf : list Z) (pos : nat),
    let t := TupleDesc.deserialize CHAR_SIZE mem td buf pos in
    Tuple.size t = TupleDesc.size td
    /\ (forall i : nat, Tuple.field_type t i = vec_at (tupleTypes td) i)
    /\ TupleDesc.compatible td t = Ok true.
Proof.
  intros td buf pos t.
  assert (H : map type_of_field (fields t) = tupleTypes td).
  { unfold t, TupleDesc.deserialize. cbn [fields].
    now rewrite deserialize_loop_types. }
  split; [|split].
  - unfold Tuple.size, TupleDesc.size. now rewrite <- H, length_map.
  - intros i. now rewrite field_type_vec_at, H.
  - now apply compatible_spec.
Qed.

End Decoding.

(** ** Page layout *)

(** On 64-bit [size_t] the constructor computes the capacity of the
    model as long as the two products are representable. *)
Lemma capacity_u64_exact (P T : nat) :
  (Z.of_nat P * 8 < 2 ^ 64)%Z -> (Z.of_nat T * 8 + 1 < 2 ^ 64)%Z ->
  HeapPage.capacity_u64 (Z.of_nat P) (Z.of_nat T)
  = Z.of_nat ((P * 8) / (T * 8 + 1)).
Proof.
  intros HP HT. unfold HeapPage.capacity_u64.
  rewrite (Z.mod_small (Z.of_nat P * 8)), (Z.mod_small (Z.of_nat T * 8)),
    (Z.mod_small (Z.of_nat T * 8 + 1)) by lia.
  rewrite Nat2Z.inj_div, Nat2Z.inj_add, !Nat2Z.inj_mul. reflexivity.
Qed.

(** [c] slots fit in a page: one header bit and [T] data bytes each. *)
Lemma slots_fit_iff (P T c : nat) :
  c <= (P * 8) / (T * 8 + 1) <-> c * (T * 8 + 1) <= P * 8.
Proof.
  pose proof (Nat.Div0.mul_div_le (P * 8) (T * 8 + 1)) as Hle.
  assert (Hgt : P * 8 < (T * 8 + 1) * S ((P * 8) / (T * 8 + 1)))
    by (apply Nat.mul_succ_div_gt; lia).
  set (C := (P * 8) / (T * 8 + 1)) in *.
  split; intros H; nia.
Qed.

Lemma capacity_fits (P T : nat) :
  let C := (P * 8) / (T * 8 + 1) in
  C * T <= P /\ C <= 8 * (P - C * T).
Proof.
  intros C. assert (H : C * (T * 8 + 1) <= P * 8) by now apply slots_fit_iff.
  nia.
Qed.

Section Layout.

Variable CHAR_SIZE : nat.
Variable DEFAULT_PAGE_SIZE : nat.

(** C4.  For a schema of positive width [T], the capacity of a page of
    [P] bytes is [P * 8 / (T * 8 + 1)], rounded down; the slots and the
    header, which takes the [P - capacity * T] bytes before the data,
    fit in the page; no larger number of slots does, neither next to
    that header nor next to any header with one bit for each slot; and
    the data start at byte [P - capacity * T]. *)
Theorem page_capacity :
  forall (pg : Page) (td : TupleDesc),
    let P := DEFAULT_PAGE_SIZE in
    let T := TupleDesc.length CHAR_SIZE td in
    let hp := HeapPage.make CHAR_SIZE DEFAULT_PAGE_SIZE pg td in
    let headerBytes := P - HeapPage.capacity hp * T in
    0 < T ->
    HeapPage.capacity hp = (P * 8) / (T * 8 + 1)
    /\ HeapPage.capacity hp * T + headerBytes <= P
    /\ (forall c : nat, c * T + headerBytes <= P -> c <= HeapPage.capacity hp)
    /\ (forall c : nat,
          c * T + (c + 7) / 8 <= P <-> c <= HeapPage.capacity hp)
    /\ HeapPage.data hp = P - HeapPage.capacity hp * T
    /\ HeapPage.header hp = 0.
Proof.
  intros pg td P T hp headerBytes HT.
  unfold headerBytes, hp, HeapPage.make. cbn [HeapPage.capacity HeapPage.data HeapPage.header].
  fold P T. set (C := (P * 8) / (T * 8 + 1)).
  destruct (capacity_fits P T) as [HCT HC8]. fold C in HCT, HC8.
  split; [reflexivity|]. split; [lia|]. split; [|split].
  - intros c Hc. nia.
  - intros c. unfold C. rewrite slots_fit_iff.
    pose proof (Nat.Div0.mul_div_le (c + 7) 8) as Hle.
    assert (Hgt : c + 7 < 8 * S ((c + 7) / 8))
      by (apply Nat.mul_succ_div_gt; lia).
    split; intros Hc; nia.
  - split; reflexivity.
Qed.

End Layout.

(** The schema of records on pages of 4096 bytes: 53 slots. *)
Lemma page_capacity_witness :
  0 < TupleDesc.length 64 record_schema
  /\ HeapPage.capacity (HeapPage.make 64 4096 (repeat 0%Z 4096) record_schema)
     = (4096 * 8) / (TupleDesc.length 64 record_schema * 8 + 1).
Proof.
  split.
  - vm_compute. lia.
  - apply (page_capacity 64 4096 (repeat 0%Z 4096) record_schema).
    vm_compute. lia.
Defined.

(** ** Buffers *)

Lemma length_memcpy (buf : list Z) (pos : nat) (src : list Z) :
  pos + length src <= length buf ->
  length (memcpy buf pos src) = length buf.
Proof.
  intros H. unfold memcpy.
  rewrite !length_app, length_firstn, length_skipn. lia.
Qed.

Lemma length_memcpy_ge (buf : list Z) (pos : nat) (src : list Z) :
  length buf <= length (memcpy buf pos src).
Proof.
  unfold memcpy. rewrite !length_app, length_firstn, length_skipn. lia.
Qed.

(** A copy leaves the bytes before its destination as they are. *)
Lemma firstn_memcpy (buf : list Z) (pos : nat) (src : list Z) (n : nat) :
  n <= pos -> pos <= length buf ->
  firstn n (memcpy buf pos src) = firstn n buf.
Proof.
  intros H Hpos. unfold memcpy. rewrite firstn_app, firstn_firstn.
  rewrite length_firstn. replace (Nat.min n pos) with n by lia.
  replace (n - Nat.min pos (length buf)) with 0 by lia.
  simpl. apply app_nil_r.
Qed.

Lemma nth_memcpy_before (buf : list Z) (pos : nat) (src : list Z) (k : nat) :
  k < pos -> k < length buf ->
  nth k (memcpy buf pos src) 0%Z = nth k buf 0%Z.
Proof.
  intros Hk Hlen. unfold memcpy.
  rewrite app_nth1 by (rewrite length_firstn; lia).
  rewrite nth_firstn. destruct (Nat.ltb_spec k pos); [reflexivity|lia].
Qed.

(** What a copy wrote can be read back. *)
Lemma read_bytes_memcpy (buf : list Z) (pos : nat) (src : list Z) :
  pos <= length buf ->
  read_bytes (memcpy buf pos src) pos (length src) = src.
Proof.
  intros H. unfold read_bytes, memcpy.
  rewrite skipn_app, length_firstn.
  replace (Nat.min pos (length buf)) with pos by lia.
  rewrite skipn_all2 by (rewrite length_firstn; lia).
  rewrite Nat.sub_diag. simpl.
  rewrite firstn_app, Nat.sub_diag, firstn_all. simpl. apply app_nil_r.
Qed.

(** A read depends on the bytes up to its end only. *)
Lemma read_bytes_firstn (buf buf' : list Z) (pos n m : nat) :
  pos + n <= m -> firstn m buf' = firstn m buf ->
  read_bytes buf' pos n = read_bytes buf pos n.
Proof.
  intros Hm E. unfold read_bytes. rewrite !firstn_skipn_comm.
  replace (pos + n) with (Nat.min (pos + n) m) by lia.
  now rewrite <- !firstn_firstn, E.
Qed.

(** ** Object representations *)

Lemma length_le_bytes (n : nat) (z : Z) : length (le_bytes n z) = n.
Proof. revert z. induction n as [|n IH]; intros z; simpl; auto. Qed.

Lemma le_value_le_bytes (n : nat) (z : Z) :
  le_value (le_bytes n z) = (z mod 256 ^ Z.of_nat n)%Z.
Proof.
  revert z. induction n as [|n IH]; intros z.
  - simpl. now rewrite Z.mod_1_r.
  - cbn [le_bytes le_value]. rewrite IH, Nat2Z.inj_succ, Z.pow_succ_r by lia.
    rewrite Z.rem_mul_r by lia. reflexivity.
Qed.

Lemma signed_int_roundtrip (z : Z) :
  (- 2 ^ 31 <= z < 2 ^ 31)%Z ->
  signed INT_SIZE (le_value (le_bytes INT_SIZE z)) = z.
Proof.
  intros Hz. rewrite le_value_le_bytes. unfold signed, INT_SIZE.
  change (8 * Z.of_nat 4 - 1)%Z with 31%Z.
  change (8 * Z.of_nat 4)%Z with 32%Z.
  change (256 ^ Z.of_nat 4)%Z with (2 ^ 32)%Z.
  destruct (Z.le_gt_cases 0 z) as [Hpos|Hneg].
  - rewrite Z.mod_small by lia.
    destruct (Z.ltb_spec z (2 ^ 31)); lia.
  - replace (z mod 2 ^ 32)%Z with (z + 2 ^ 32)%Z.
    + destruct (Z.ltb_spec (z + 2 ^ 32) (2 ^ 31)); lia.
    + symmetry. rewrite <- (Z.mod_add z 1 (2 ^ 32)) by lia.
      rewrite Z.mod_small; lia.
Qed.

Lemma double_roundtrip (d : Z) :
  (0 <= d < 2 ^ 64)%Z -> le_value (le_bytes DOUBLE_SIZE d) = d.
Proof.
  intros Hd. rewrite le_value_le_bytes. unfold DOUBLE_SIZE.
  change (256 ^ Z.of_nat 8)%Z with (2 ^ 64)%Z. now apply Z.mod_small.
Qed.

Lemma byte_of_ascii_range (c : ascii) : (0 <= byte_of_ascii c < 256)%Z.
Proof.
  unfold byte_of_ascii. pose proof (N_ascii_bounded c). lia.
Qed.

Lemma ascii_of_byte_of_ascii (c : ascii) : ascii_of_byte (byte_of_ascii c) = c.
Proof.
  unfold ascii_of_byte. rewrite Z.mod_small by apply byte_of_ascii_range.
  unfold byte_of_ascii. now rewrite N2Z.id, ascii_N_embedding.
Qed.

Lemma byte_of_ascii_zero (c : ascii) : byte_of_ascii c = 0%Z -> c = zero.
Proof.
  intros E. rewrite <- (ascii_of_byte_of_ascii c), E. reflexivity.
Qed.

Lemma length_bytes_of_string (s : string) :
  length (bytes_of_string s) = String.length s.
Proof. induction s; simpl; auto. Qed.

(** A text that is shorter than the block it was copied to and holds no
    NUL is read back from the block, whatever follows it. *)
Lemma string_of_c_str_storage (s : string) (n : nat) (rest : list Z)
    (tail : string) :
  String.length s < n -> no_nul s = true ->
  string_of_c_str (firstn n (bytes_of_string s ++ 0%Z :: rest)) tail = s.
Proof.
  revert n. induction s as [|c r IH]; intros n Hn Hs; simpl in Hn.
  - destruct n; [lia|]. reflexivity.
  - destruct n; [lia|]. simpl in Hs. apply andb_prop in Hs.
    destruct Hs as [Hc Hr].
    cbn [bytes_of_string app firstn string_of_c_str].
    rewrite Z.mod_small by apply byte_of_ascii_range.
    destruct (Z.eqb_spec (byte_of_ascii c) 0) as [E|_].
    + apply byte_of_ascii_zero in E. subst. discriminate.
    + rewrite ascii_of_byte_of_ascii, IH; auto. lia.
Qed.

(** ** The codec *)

Section Codec.

Variable CHAR_SIZE : nat.

Lemma width_cons (ty : type_t) (r : list type_t) :
  width CHAR_SIZE (ty :: r)
  = TupleDesc.type_size CHAR_SIZE ty + width CHAR_SIZE r.
Proof. reflexivity. Qed.

Lemma length_field_bytes (mem : Memory) (i : nat) (f : field_t) :
  length (field_bytes CHAR_SIZE mem i f)
  = TupleDesc.type_size CHAR_SIZE (type_of_field f).
Proof.
  destruct f; cbn [field_bytes type_of_field TupleDesc.type_size].
  - apply length_le_bytes.
  - apply length_le_bytes.
  - rewrite length_firstn. unfold c_str_storage.
    rewrite length_app. cbn [length]. rewrite length_map, length_seq. lia.
Qed.

(** One iteration of the loop of [serialize] on a field of the type that
    the schema declares. *)
Lemma serialize_loop_step (mem : Memory) (ty : type_t) (r : list type_t)
    (t : Tuple) (f : field_t) (buf : list Z) (data offset i : nat) :
  vec_at (fields t) i = Ok f -> type_of_field f = ty ->
  TupleDesc.serialize_loop CHAR_SIZE mem (ty :: r) t buf data offset i
  = TupleDesc.serialize_loop CHAR_SIZE mem r t
      (memcpy buf (data + offset) (field_bytes CHAR_SIZE mem i f))
      data (offset + TupleDesc.type_size CHAR_SIZE ty) (S i).
Proof.
  intros Hf <-. cbn [TupleDesc.serialize_loop]. unfold Tuple.get_field.
  destruct f; cbn [type_of_field]; rewrite Hf; reflexivity.
Qed.

(** One iteration of the loop of [deserialize]. *)
Lemma deserialize_loop_step (mem : Memory) (ty : type_t) (r : list type_t)
    (buf : list Z) (data : nat) (acc : list field_t) :
  TupleDesc.deserialize_loop CHAR_SIZE mem (ty :: r) buf data acc
  = TupleDesc.deserialize_loop CHAR_SIZE mem r buf
      (data + TupleDesc.type_size CHAR_SIZE ty)
      (acc ++ [decode_field ty
                 (read_bytes buf data (TupleDesc.type_size CHAR_SIZE ty))
                 (beyond_block mem (length acc))]).
Proof. destruct ty; reflexivity. Qed.

Lemma decode_field_bytes (mem : Memory) (i : nat) (f : field_t)
    (tail : string) :
  field_valid f = true -> text_fits CHAR_SIZE f = true ->
  decode_field (type_of_field f) (field_bytes CHAR_SIZE mem i f) tail = f.
Proof.
  destruct f as [n|d|s]; cbn [field_valid text_fits type_of_field
                                field_bytes decode_field]; intros Hv Ht.
  - apply andb_prop in Hv. destruct Hv as [H1 H2].
    apply Z.leb_le in H1. apply Z.ltb_lt in H2.
    now rewrite signed_int_roundtrip.
  - apply andb_prop in Hv. destruct Hv as [H1 H2].
    apply Z.leb_le in H1. apply Z.ltb_lt in H2.
    now rewrite double_roundtrip.
  - apply andb_prop in Ht. destruct Ht as [H1 H2].
    apply Nat.ltb_lt in H1. unfold c_str_storage.
    now rewrite string_of_c_str_storage.
Qed.

(** For a tuple of the schema's types [serialize] does not throw, keeps
    the size of a buffer that has room for the tuple, and leaves the
    bytes before the tuple as they are. *)
Lemma serialize_loop_frame (mem : Memory) (types : list type_t) (t : Tuple)
    (buf : list Z) (data offset i : nat) :
  map type_of_field (skipn i (fields t)) = types ->
  data + offset + width CHAR_SIZE types <= length buf ->
  exists buf' : list Z,
    TupleDesc.serialize_loop CHAR_SIZE mem types t buf data offset i
    = (Ok tt, buf')
    /\ length buf' = length buf
    /\ firstn (data + offset) buf' = firstn (data + offset) buf.
Proof.
  revert buf offset i.
  induction types as [|ty r IH]; intros buf offset i Hty Hlen.
  - exists buf. repeat split; reflexivity.
  - destruct (skipn i (fields t)) as [|f rest] eqn:Hs; [discriminate|].
    injection Hty as Hf Hr.
    destruct (vec_at_skipn _ _ _ _ _ Hs) as [Hat Hs'].
    rewrite (serialize_loop_step mem ty r t f buf data offset i Hat Hf).
    rewrite width_cons in Hlen.
    set (src := field_bytes CHAR_SIZE mem i f).
    assert (Hsrc : length src = TupleDesc.type_size CHAR_SIZE ty)
      by (unfold src; rewrite length_field_bytes; congruence).
    destruct (IH (memcpy buf (data + offset) src)
                (offset + TupleDesc.type_size CHAR_SIZE ty) (S i))
      as (buf' & E & Hl & Hfirst).
    + now rewrite Hs'.
    + rewrite length_memcpy; lia.
    + exists buf'. split; [assumption|]. split.
      * rewrite Hl. apply length_memcpy. lia.
      * replace (data + offset)
          with (Nat.min (data + offset)
                  (data + (offset + TupleDesc.type_size CHAR_SIZE ty))) by lia.
        rewrite <- !firstn_firstn, Hfirst, !firstn_firstn.
        rewrite firstn_memcpy by lia.
        reflexivity.
Qed.

(** What [serialize] wrote, [deserialize] reads back, field by field. *)
Lemma roundtrip_loop (mem mem' : Memory) (types : list type_t) (t : Tuple)
    (buf buf' : list Z) (data offset i : nat) (acc : list field_t) :
  map type_of_field (skipn i (fields t)) = types ->
  forallb field_valid (skipn i (fields t)) = true ->
  forallb (text_fits CHAR_SIZE) (skipn i (fields t)) = true ->
  data + offset + width CHAR_SIZE types <= length buf ->
  TupleDesc.serialize_loop CHAR_SIZE mem types t buf data offset i
  = (Ok tt, buf') ->
  TupleDesc.deserialize_loop CHAR_SIZE mem' types buf' (data + offset) acc
  = acc ++ skipn i (fields t).
Proof.
  revert buf offset i acc.
  induction types as [|ty r IH]; intros buf offset i acc Hty Hv Ht Hlen E.
  - destruct (skipn i (fields t)); [|discriminate].
    cbn [TupleDesc.deserialize_loop]. now rewrite app_nil_r.
  - destruct (skipn i (fields t)) as [|f rest] eqn:Hs; [discriminate|].
    injection Hty as Hf Hr.
    cbn [forallb] in Hv, Ht.
    apply andb_prop in Hv. destruct Hv as [Hvf Hvr].
    apply andb_prop in Ht. destruct Ht as [Htf Htr].
    destruct (vec_at_skipn _ _ _ _ _ Hs) as [Hat Hs'].
    rewrite (serialize_loop_step mem ty r t f buf data offset i Hat Hf) in E.
    rewrite width_cons in Hlen.
    set (w := TupleDesc.type_size CHAR_SIZE ty) in *.
    set (src := field_bytes CHAR_SIZE mem i f) in *.
    assert (Hsrc : length src = w)
      by (unfold src, w; rewrite length_field_bytes; congruence).
    set (buf1 := memcpy buf (data + offset) src) in *.
    assert (Hl1 : length buf1 = length buf)
      by (apply length_memcpy; lia).
    destruct (serialize_loop_frame mem r t buf1 data (offset + w) (S i))
      as (buf2 & E2 & Hl2 & Hfirst); [now rewrite Hs'|lia|].
    assert (buf2 = buf') by congruence. subst buf2.
    assert (Hread : read_bytes buf' (data + offset) w = src).
    { rewrite (read_bytes_firstn buf1 buf' (data + offset) w
                 (data + (offset + w))) by (lia || assumption).
      unfold buf1. rewrite <- Hsrc. apply read_bytes_memcpy. lia. }
    rewrite deserialize_loop_step. fold w. rewrite Hread.
    rewrite <- Hf. unfold src. rewrite decode_field_bytes by assumption.
    replace (data + offset + w) with (data + (offset + w)) by lia.
    rewrite (IH buf1 (offset + w) (S i)); try rewrite Hs'; try assumption;
      try lia.
    now rewrite <- app_assoc.
Qed.

End Codec.

(** C2, as the code has it.  A tuple that is compatible with the schema,
    whose text fields are shorter than the fixed width and hold no NUL
    character, is read back by [deserialize] from the buffer that
    [serialize] wrote it to, whatever lies in memory after the strings and
    in the buffer before. *)
Theorem serialize_deserialize_roundtrip :
  forall (CHAR_SIZE : nat) (mem mem' : Memory) (td : TupleDesc)
         (buf : list Z) (pos : nat) (t : Tuple),
    TupleDesc.compatible td t = Ok true ->
    tuple_valid t = true ->
    forallb (text_fits CHAR_SIZE) (fields t) = true ->
    pos + TupleDesc.length CHAR_SIZE td <= length buf ->
    exists buf' : list Z,
      TupleDesc.serialize CHAR_SIZE mem td buf pos t = (Ok tt, buf')
      /\ length buf' = length buf
      /\ TupleDesc.deserialize CHAR_SIZE mem' td buf' pos = t.
Proof.
  intros CHAR_SIZE mem mem' td buf pos t Hc Hv Ht Hlen.
  apply compatible_spec in Hc. rewrite length_width in Hlen.
  unfold TupleDesc.serialize, TupleDesc.deserialize.
  destruct (serialize_loop_frame CHAR_SIZE mem (tupleTypes td) t buf pos 0 0)
    as (buf' & E & Hl & _); [assumption|lia|].
  exists buf'. split; [assumption|]. split; [assumption|].
  replace pos with (pos + 0) at 1 by lia.
  rewrite (roundtrip_loop CHAR_SIZE mem mem' (tupleTypes td) t buf buf' pos 0 0 []);
    try assumption; try lia.
  now destruct t.
Qed.

(** A record with a negative number and a short name, written in the
    middle of a buffer. *)
Lemma serialize_deserialize_roundtrip_witness :
  exists buf' : list Z,
    TupleDesc.serialize 64 (memory_of "x") record_schema (repeat 7%Z 100) 10
      (mkTuple [f_int (-5); f_string "ab"; f_double 4614253070214989087])
    = (Ok tt, buf')
    /\ length buf' = length (repeat 7%Z 100)
    /\ TupleDesc.deserialize 64 zero_memory record_schema buf' 10
       = mkTuple [f_int (-5); f_string "ab"; f_double 4614253070214989087].
Proof.
  apply serialize_deserialize_roundtrip.
  - reflexivity.
  - reflexivity.
  - reflexivity.
  - vm_compute. lia.
Defined.

(** C2 as stated fails on a text that holds a NUL character, whatever
    lies in memory after the string when the tuple is written and after
    the block when it is read: [serialize] returns, and [deserialize]
    reads the text back up to that character only. *)
Lemma roundtrip_fails_on_text_with_nul :
  TupleDesc.compatible name_schema (mkTuple [f_string nul_text]) = Ok true
  /\ tuple_valid (mkTuple [f_string nul_text]) = true
  /\ (forall mem mem' : Memory,
        fst (TupleDesc.serialize 64 mem name_schema (repeat 0%Z 64) 0
               (mkTuple [f_string nul_text])) = Ok tt
        /\ TupleDesc.deserialize 64 mem' name_schema
             (snd (TupleDesc.serialize 64 mem name_schema (repeat 0%Z 64) 0
                     (mkTuple [f_string nul_text]))) 0
           = mkTuple [f_string "a"]
        /\ TupleDesc.deserialize 64 mem' name_schema
             (snd (TupleDesc.serialize 64 mem name_schema (repeat 0%Z 64) 0
                     (mkTuple [f_string nul_text]))) 0
           <> mkTuple [f_string nul_text]).
Proof.
  split; [reflexivity|]. split; [reflexivity|].
  intros mem mem'.
  assert (E : TupleDesc.deserialize 64 mem' name_schema
                (snd (TupleDesc.serialize 64 mem name_schema (repeat 0%Z 64) 0
                        (mkTuple [f_string nul_text]))) 0
              = mkTuple [f_string "a"]) by reflexivity.
  split; [reflexivity|]. rewrite E. split; [reflexivity|].
  unfold nul_text. discriminate.
Qed.

(** A text that is longer than the fixed width is cut to it: with a
    width of 64 bytes and zero bytes after the block that [deserialize]
    reads, a name of 65 letters is read back as 64 letters. *)
Lemma roundtrip_fails_on_long_text :
  TupleDesc.compatible name_schema (mkTuple [f_string (letters 65)]) = Ok true
  /\ tuple_valid (mkTuple [f_string (letters 65)]) = true
  /\ (let buf' := snd (TupleDesc.serialize 64 zero_memory name_schema
                         (repeat 0%Z 64) 0 (mkTuple [f_string (letters 65)])) in
      TupleDesc.deserialize 64 zero_memory name_schema buf' 0
      = mkTuple [f_string (letters 64)]
      /\ TupleDesc.deserialize 64 zero_memory name_schema buf' 0
         <> mkTuple [f_string (letters 65)]).
Proof.
  split; [reflexivity|]. split; [reflexivity|].
  assert (E : TupleDesc.deserialize 64 zero_memory name_schema
                (snd (TupleDesc.serialize 64 zero_memory name_schema
                        (repeat 0%Z 64) 0 (mkTuple [f_string (letters 65)]))) 0
              = mkTuple [f_string (letters 64)]) by (vm_compute; reflexivity).
  cbv zeta. rewrite E. split; [reflexivity|].
  vm_compute. discriminate.
Qed.

(** A text of exactly the fixed width leaves no NUL in its field:
    [deserialize] reads on past its block, and what it returns depends on
    what follows the block. *)
Lemma roundtrip_exact_width_depends_on_memory :
  (let buf' := snd (TupleDesc.serialize 64 zero_memory name_schema
                      (repeat 0%Z 64) 0 (mkTuple [f_string (letters 64)])) in
   TupleDesc.deserialize 64 zero_memory name_schema buf' 0
   = mkTuple [f_string (letters 64)]
   /\ TupleDesc.deserialize 64
        {| beyond_string := fun _ _ => zero; beyond_block := fun _ => "zz"%string |}
        name_schema buf' 0
      <> mkTuple [f_string (letters 64)]).
Proof. split; [vm_compute; reflexivity|vm_compute; discriminate]. Qed.

(** C3.  The specification asks [serialize] to fill a text field with
    determined bytes after a short text and to read nothing past the
    text's own storage.  The code copies the whole fixed width out of
    the string: with a width of 64 bytes, the two letters of the name ab
    and the NUL that ends it are followed in the buffer by the 61 bytes
    that follow the string in memory. *)
Theorem serialize_short_text_copies_what_follows :
  forall mem : Memory,
    TupleDesc.serialize 64 mem name_schema (repeat 0%Z 64) 0
      (mkTuple [f_string "ab"])
    = (Ok tt,
       [97%Z; 98%Z; 0%Z]
       ++ map (fun k => byte_of_ascii (beyond_string mem 0 k)) (seq 0 61)).
Proof. intros mem. reflexivity. Qed.

(** The same tuple gives two different buffers in two states of the
    memory around it. *)
Lemma serialize_short_text_not_determined :
  snd (TupleDesc.serialize 64 (memory_of "x") name_schema (repeat 0%Z 64) 0
         (mkTuple [f_string "ab"]))
  <> snd (TupleDesc.serialize 64 (memory_of "y") name_schema (repeat 0%Z 64) 0
            (mkTuple [f_string "ab"])).
Proof. vm_compute. discriminate. Qed.

(** What the code does have: a text of the fixed width or more is cut to
    the fixed width. *)
Lemma field_bytes_long_text (CHAR_SIZE : nat) (mem : Memory) (i : nat)
    (s : string) :
  CHAR_SIZE <= String.length s ->
  field_bytes CHAR_SIZE mem i (f_string s)
  = firstn CHAR_SIZE (bytes_of_string s).
Proof.
  intros H. cbn [field_bytes]. unfold c_str_storage.
  rewrite firstn_app, length_bytes_of_string.
  replace (CHAR_SIZE - String.length s) with 0 by lia.
  simpl. apply app_nil_r.
Qed.

(** ** The occupancy bitmap *)

Lemma land_pow2_eqb (b k : Z) :
  (0 <= k)%Z -> (Z.land b (2 ^ k) =? 0)%Z = negb (Z.testbit b k).
Proof.
  intros Hk. destruct (Z.testbit b k) eqn:Hb; simpl.
  - apply Z.eqb_neq. intros E.
    assert (H : Z.testbit (Z.land b (2 ^ k)) k = true)
      by (rewrite Z.land_spec, Hb, Z.pow2_bits_true; auto).
    rewrite E, Z.bits_0 in H. discriminate.
  - apply Z.eqb_eq. apply Z.bits_inj'. intros n Hn.
    rewrite Z.land_spec, Z.bits_0, Z.pow2_bits_eqb by assumption.
    destruct (Z.eqb_spec k n) as [->|]; [now rewrite Hb|apply andb_false_r].
Qed.

Lemma length_store_byte (buf : list Z) (i : nat) (v : Z) :
  length (store_byte buf i v) = length buf.
Proof.
  revert i. induction buf as [|b r IH]; intros [|i]; simpl; auto.
Qed.

Lemma nth_store_byte_eq (buf : list Z) (i : nat) (v d : Z) :
  i < length buf -> nth i (store_byte buf i v) d = (v mod 256)%Z.
Proof.
  revert i. induction buf as [|b r IH]; intros [|i] H; simpl in *;
    try reflexivity; try lia.
  apply IH. lia.
Qed.

Lemma nth_store_byte_neq (buf : list Z) (i j : nat) (v d : Z) :
  i <> j -> nth j (store_byte buf i v) d = nth j buf d.
Proof.
  revert i j. induction buf as [|b r IH]; intros [|i] [|j] H; simpl;
    try reflexivity; try lia.
  apply IH. lia.
Qed.

Lemma empty_header_bit (hp : HeapPage.t) (slot : nat) :
  HeapPage.empty hp slot
  = negb (header_bit (HeapPage.page hp) (HeapPage.header hp) slot).
Proof.
  unfold HeapPage.empty, header_bit. rewrite Z.shiftl_1_l.
  apply land_pow2_eqb. lia.
Qed.

Lemma slot_position (s s' : nat) :
  s / 8 = s' / 8 -> 7 - s mod 8 = 7 - s' mod 8 -> s = s'.
Proof.
  intros Hq Hr.
  pose proof (Nat.div_mod_eq s 8). pose proof (Nat.div_mod_eq s' 8).
  pose proof (Nat.mod_upper_bound s 8). pose proof (Nat.mod_upper_bound s' 8).
  lia.
Qed.

(** [header[slot / 8] |= 1 << (7 - slot % 8)] sets the bit of [slot] and
    no other. *)
Lemma header_bit_set (buf : list Z) (h s s' : nat) :
  h + s / 8 < length buf ->
  header_bit
    (store_byte buf (h + s / 8)
       (Z.lor (nth (h + s / 8) buf 0%Z) (Z.shiftl 1 (Z.of_nat (7 - s mod 8)))))
    h s'
  = if s' =? s then true else header_bit buf h s'.
Proof.
  intros Hlen. unfold header_bit.
  destruct (Nat.eq_dec (s' / 8) (s / 8)) as [Hq|Hq].
  - rewrite Hq, nth_store_byte_eq by assumption.
    change 256%Z with (2 ^ 8)%Z.
    pose proof (Nat.mod_upper_bound s' 8).
    rewrite Z.mod_pow2_bits_low by lia.
    rewrite Z.lor_spec, Z.shiftl_1_l, Z.pow2_bits_eqb by lia.
    destruct (Nat.eqb_spec s' s) as [->|Hne].
    + rewrite Z.eqb_refl. apply orb_true_r.
    + destruct (Z.eqb_spec (Z.of_nat (7 - s mod 8)) (Z.of_nat (7 - s' mod 8)))
        as [E|_]; [|apply orb_false_r].
      exfalso. apply Hne. apply slot_position; [assumption|lia].
  - rewrite nth_store_byte_neq by lia.
    destruct (Nat.eqb_spec s' s) as [->|_]; [congruence|reflexivity].
Qed.

(** [header[slot / 8] &= ~(1 << (7 - slot % 8))] clears the bit of
    [slot] and no other. *)
Lemma header_bit_clear (buf : list Z) (h s s' : nat) :
  h + s / 8 < length buf ->
  header_bit
    (store_byte buf (h + s / 8)
       (Z.land (nth (h + s / 8) buf 0%Z)
          (Z.lnot (Z.shiftl 1 (Z.of_nat (7 - s mod 8))))))
    h s'
  = if s' =? s then false else header_bit buf h s'.
Proof.
  intros Hlen. unfold header_bit.
  destruct (Nat.eq_dec (s' / 8) (s / 8)) as [Hq|Hq].
  - rewrite Hq, nth_store_byte_eq by assumption.
    change 256%Z with (2 ^ 8)%Z.
    pose proof (Nat.mod_upper_bound s' 8).
    rewrite Z.mod_pow2_bits_low by lia.
    rewrite Z.land_spec, Z.lnot_spec, Z.shiftl_1_l, Z.pow2_bits_eqb by lia.
    destruct (Nat.eqb_spec s' s) as [->|Hne].
    + rewrite Z.eqb_refl. apply andb_false_r.
    + destruct (Z.eqb_spec (Z.of_nat (7 - s mod 8)) (Z.of_nat (7 - s' mod 8)))
        as [E|_]; [|apply andb_true_r].
      exfalso. apply Hne. apply slot_position; [assumption|lia].
  - rewrite nth_store_byte_neq by lia.
    destruct (Nat.eqb_spec s' s) as [->|_]; [congruence|reflexivity].
Qed.

(** A bit that is set lies in the buffer. *)
Lemma header_bit_in_buffer (buf : list Z) (h s : nat) :
  header_bit buf h s = true -> h + s / 8 < length buf.
Proof.
  unfold header_bit. intros H.
  destruct (Nat.lt_ge_cases (h + s / 8) (length buf)) as [|Hge];
    [assumption|].
  rewrite nth_overflow, Z.bits_0 in H by assumption. discriminate.
Qed.

(** ** Scans of the header *)

Section Scans.

Variable hp : HeapPage.t.

(** The loop of [insertTuple] stops at the first slot from [s] on that
    is empty, or at the capacity. *)
Lemma insert_loop_spec (n s : nat) :
  (HeapPage.capacity hp) <= s + n ->
  let r := HeapPage.insert_loop hp n s in
  s <= r
  /\ (forall j, s <= j < r -> HeapPage.empty hp j = false /\ j < (HeapPage.capacity hp))
  /\ negb (HeapPage.empty hp r) && (r <? (HeapPage.capacity hp)) = false.
Proof.
  revert s. induction n as [|n IH]; intros s Hn; cbn [HeapPage.insert_loop].
  - split; [lia|]. split; [intros j Hj; lia|].
    destruct (Nat.ltb_spec s (HeapPage.capacity hp)); [lia|apply andb_false_r].
  - destruct (negb (HeapPage.empty hp s) && (s <? (HeapPage.capacity hp))) eqn:Hc.
    + destruct (IH (S s)) as (H1 & H2 & H3); [lia|].
      split; [lia|]. split; [|assumption].
      intros j Hj. destruct (Nat.eq_dec j s) as [->|Hne].
      * apply andb_prop in Hc. destruct Hc as [He Hl].
        apply negb_true_iff in He. apply Nat.ltb_lt in Hl. now split.
      * apply H2. lia.
    + split; [lia|]. split; [intros j Hj; lia|assumption].
Qed.

(** The loops of [begin] and [next] stop at the first slot from [s] on
    that is occupied, or at the capacity. *)
Lemma begin_loop_spec (n s : nat) :
  (HeapPage.capacity hp) <= s + n ->
  let r := HeapPage.begin_loop hp n s in
  s <= r
  /\ (forall j, s <= j < r -> HeapPage.empty hp j = true /\ j < (HeapPage.capacity hp))
  /\ (r <? (HeapPage.capacity hp)) && HeapPage.empty hp r = false.
Proof.
  revert s. induction n as [|n IH]; intros s Hn; cbn [HeapPage.begin_loop].
  - split; [lia|]. split; [intros j Hj; lia|].
    destruct (Nat.ltb_spec s (HeapPage.capacity hp)); [lia|reflexivity].
  - destruct ((s <? (HeapPage.capacity hp)) && HeapPage.empty hp s) eqn:Hc.
    + destruct (IH (S s)) as (H1 & H2 & H3); [lia|].
      split; [lia|]. split; [|assumption].
      intros j Hj. destruct (Nat.eq_dec j s) as [->|Hne].
      * apply andb_prop in Hc. destruct Hc as [Hl He].
        apply Nat.ltb_lt in Hl. now split.
      * apply H2. lia.
    + split; [lia|]. split; [intros j Hj; lia|assumption].
Qed.

Lemma next_loop_begin_loop (n s : nat) :
  HeapPage.next_loop hp n s = HeapPage.begin_loop hp n s.
Proof.
  revert s. induction n as [|n IH]; intros s; simpl; [reflexivity|].
  now rewrite andb_comm, IH.
Qed.

(** The slot that [insertTuple] picks: the smallest empty one. *)
Lemma insert_slot_spec :
  let s := HeapPage.insert_loop hp (HeapPage.capacity hp) 0 in
  s <= (HeapPage.capacity hp)
  /\ (forall j, j < s -> HeapPage.empty hp j = false)
  /\ (s < (HeapPage.capacity hp) -> HeapPage.empty hp s = true).
Proof.
  destruct (insert_loop_spec (HeapPage.capacity hp) 0) as (_ & H2 & H3); [lia|].
  cbv zeta in *. set (s := HeapPage.insert_loop hp (HeapPage.capacity hp) 0) in *.
  assert (Hle : s <= (HeapPage.capacity hp)).
  { destruct (Nat.le_gt_cases s (HeapPage.capacity hp)) as [|Hgt]; [assumption|].
    destruct (H2 (HeapPage.capacity hp)); lia. }
  split; [assumption|]. split.
  - intros j Hj. apply H2. lia.
  - intros Hlt. apply andb_false_iff in H3. destruct H3 as [H3|H3].
    + now apply negb_false_iff in H3.
    + apply Nat.ltb_ge in H3. lia.
Qed.

Lemma insert_slot_unique (k : nat) :
  k <= (HeapPage.capacity hp) ->
  (forall j, j < k -> HeapPage.empty hp j = false) ->
  (k < (HeapPage.capacity hp) -> HeapPage.empty hp k = true) ->
  HeapPage.insert_loop hp (HeapPage.capacity hp) 0 = k.
Proof.
  intros Hk Hbefore Hat.
  destruct insert_slot_spec as (Hs & Hb & Ha).
  set (s := HeapPage.insert_loop hp (HeapPage.capacity hp) 0) in *.
  destruct (Nat.lt_trichotomy s k) as [Hlt|[E|Hgt]]; [|assumption|].
  - rewrite Hbefore in Ha by assumption. specialize (Ha ltac:(lia)).
    discriminate.
  - rewrite Hb in Hat by assumption. specialize (Hat ltac:(lia)).
    discriminate.
Qed.

(** The slot that [begin] and [next] stop at. *)
Lemma first_occupied_spec (s : nat) :
  s <= (HeapPage.capacity hp) ->
  let r := HeapPage.begin_loop hp (HeapPage.capacity hp) s in
  s <= r <= (HeapPage.capacity hp)
  /\ (forall j, s <= j < r -> HeapPage.empty hp j = true)
  /\ (r < (HeapPage.capacity hp) -> HeapPage.empty hp r = false).
Proof.
  intros Hs.
  destruct (begin_loop_spec (HeapPage.capacity hp) s) as (H1 & H2 & H3); [lia|].
  cbv zeta in *. set (r := HeapPage.begin_loop hp (HeapPage.capacity hp) s) in *.
  assert (Hle : r <= (HeapPage.capacity hp)).
  { destruct (Nat.le_gt_cases r (HeapPage.capacity hp)) as [|Hgt]; [assumption|].
    destruct (H2 (HeapPage.capacity hp)); lia. }
  split; [lia|]. split.
  - intros j Hj. now apply H2.
  - intros Hlt. apply andb_false_iff in H3. destruct H3 as [H3|H3].
    + apply Nat.ltb_ge in H3. lia.
    + assumption.
Qed.

End Scans.

(** ** Operations of a page *)

Section PageOps.

Variable CHAR_SIZE : nat.
Variable DEFAULT_PAGE_SIZE : nat.
Variable mem : Memory.

Lemma serialize_loop_length_ge (types : list type_t) (t : Tuple)
    (buf : list Z) (data offset i : nat) :
  length buf
  <= length (snd (TupleDesc.serialize_loop CHAR_SIZE mem types t buf data offset i)).
Proof.
  revert buf offset i.
  induction types as [|ty r IH]; intros buf offset i;
    cbn [TupleDesc.serialize_loop]; [simpl; lia|].
  destruct ty;
    match goal with
    | |- context [match ?c with Ok _ => _ | Throw _ => _ end] =>
        destruct c; [|simpl; lia]
    end;
    (eapply Nat.le_trans; [apply length_memcpy_ge|apply IH]).
Qed.

(** Where the header bits and the slots of a page lie. *)
Lemma slot_in_page (pg : Page) (td : TupleDesc) (s : nat) :
  let hp := HeapPage.make CHAR_SIZE DEFAULT_PAGE_SIZE pg td in
  let T := TupleDesc.length CHAR_SIZE td in
  s < HeapPage.capacity hp ->
  HeapPage.header hp + s / 8 < HeapPage.data hp
  /\ HeapPage.data hp + s * T + T <= DEFAULT_PAGE_SIZE.
Proof.
  intros hp T. unfold hp, HeapPage.make.
  cbn [HeapPage.capacity HeapPage.header HeapPage.data]. fold T.
  destruct (capacity_fits DEFAULT_PAGE_SIZE T) as [HCT HC8].
  set (C := (DEFAULT_PAGE_SIZE * 8) / (T * 8 + 1)) in *.
  intros Hs. split.
  - rewrite !Nat.add_0_l. apply Nat.Div0.div_lt_upper_bound. lia.
  - rewrite Nat.add_0_l. nia.
Qed.

(** [insertTuple] on a page with an empty slot and a compatible tuple. *)
Lemma insertTuple_spec (pg : Page) (td : TupleDesc) (tup : Tuple) :
  let hp := HeapPage.make CHAR_SIZE DEFAULT_PAGE_SIZE pg td in
  let T := TupleDesc.length CHAR_SIZE td in
  let s := HeapPage.insert_loop hp (HeapPage.capacity hp) 0 in
  length pg = DEFAULT_PAGE_SIZE ->
  TupleDesc.compatible td tup = Ok true ->
  s < HeapPage.capacity hp ->
  exists buf : list Z,
    TupleDesc.serialize CHAR_SIZE mem td pg (HeapPage.data hp + s * T) tup
    = (Ok tt, buf)
    /\ length buf = DEFAULT_PAGE_SIZE
    /\ firstn (HeapPage.data hp + s * T) buf
       = firstn (HeapPage.data hp + s * T) pg
    /\ HeapPage.insertTuple CHAR_SIZE mem hp tup
       = (Ok true,
          HeapPage.make CHAR_SIZE DEFAULT_PAGE_SIZE
            (store_byte buf (s / 8) (header_byte_set buf 0 s)) td).
Proof.
  intros hp T s Hlen Hc Hs.
  destruct (slot_in_page pg td s Hs) as [Hh Hd]. fold hp T in Hh, Hd.
  apply compatible_spec in Hc.
  destruct (serialize_loop_frame CHAR_SIZE mem (tupleTypes td) tup pg
              (HeapPage.data hp + s * T) 0 0)
    as (buf & E & Hl & Hf).
  { assumption. }
  { rewrite <- length_width. fold T. lia. }
  exists buf. unfold TupleDesc.serialize. rewrite E.
  split; [reflexivity|]. split; [lia|]. split.
  { now rewrite Nat.add_0_r in Hf. }
  unfold HeapPage.insertTuple. fold s.
  destruct (Nat.eqb_spec s (HeapPage.capacity hp)) as [Heq|_]; [lia|].
  unfold TupleDesc.serialize.
  change (HeapPage.td hp) with td. change (HeapPage.page hp) with pg.
  fold T. rewrite E. reflexivity.
Qed.

(** The header after [insertTuple]: the bit of the slot is set, the other
    bits are as before. *)
Lemma insertTuple_header (pg buf : Page) (td : TupleDesc) (s j : nat) :
  let hp := HeapPage.make CHAR_SIZE DEFAULT_PAGE_SIZE pg td in
  let T := TupleDesc.length CHAR_SIZE td in
  let hp' := HeapPage.make CHAR_SIZE DEFAULT_PAGE_SIZE
               (store_byte buf (s / 8) (header_byte_set buf 0 s)) td in
  length pg = DEFAULT_PAGE_SIZE ->
  length buf = DEFAULT_PAGE_SIZE ->
  firstn (HeapPage.data hp + s * T) buf = firstn (HeapPage.data hp + s * T) pg ->
  s < HeapPage.capacity hp ->
  j < HeapPage.capacity hp ->
  HeapPage.empty hp' j = if j =? s then false else HeapPage.empty hp j.
Proof.
  intros hp T hp' Hlen Hl Hf Hs Hj.
  destruct (slot_in_page pg td s Hs) as [Hh Hd]. fold hp T in Hh, Hd.
  destruct (slot_in_page pg td j Hj) as [Hhj _]. fold hp in Hhj.
  rewrite !empty_header_bit.
  unfold hp', header_byte_set. cbn [HeapPage.page HeapPage.header HeapPage.make hp].
  pose proof (header_bit_set buf 0 s j) as Hset.
  change (HeapPage.header hp) with 0 in Hh, Hhj.
  cbn [Nat.add] in Hset, Hh, Hhj |- *.
  rewrite Hset by lia.
  destruct (Nat.eqb_spec j s); [reflexivity|]. f_equal.
  unfold header_bit.
  assert (E : forall k, k < HeapPage.data hp -> nth k buf 0%Z = nth k pg 0%Z).
  { intros k Hk.
    rewrite <- (firstn_skipn (HeapPage.data hp + s * T) buf), Hf.
    rewrite <- (firstn_skipn (HeapPage.data hp + s * T) pg) at 2.
    rewrite !app_nth1; [reflexivity| |];
      rewrite length_firstn; lia. }
  cbn [Nat.add]. rewrite E by lia. reflexivity.
Qed.

End PageOps.

Section PageClaims.

Variable CHAR_SIZE : nat.
Variable DEFAULT_PAGE_SIZE : nat.
Variable mem : Memory.

Lemma insertTuple_full (hp : HeapPage.t) (tup : Tuple) :
  HeapPage.insert_loop hp (HeapPage.capacity hp) 0 = HeapPage.capacity hp ->
  HeapPage.insertTuple CHAR_SIZE mem hp tup = (Ok false, hp).
Proof.
  intros E. unfold HeapPage.insertTuple. now rewrite E, Nat.eqb_refl.
Qed.

Lemma deleteTuple_empty (hp : HeapPage.t) (i : nat) :
  HeapPage.empty hp i = true ->
  HeapPage.deleteTuple hp i = (Throw logic_error, hp).
Proof. intros E. unfold HeapPage.deleteTuple. now rewrite E. Qed.

Lemma deleteTuple_occupied (hp hp' : HeapPage.t) (i : nat) :
  HeapPage.deleteTuple hp i = (Ok tt, hp') ->
  HeapPage.empty hp i = false
  /\ HeapPage.empty hp' i = true
  /\ (forall j, j <> i -> HeapPage.empty hp' j = HeapPage.empty hp j).
Proof.
  unfold HeapPage.deleteTuple. destruct (HeapPage.empty hp i) eqn:He;
    [discriminate|].
  intros E. apply (f_equal snd) in E. cbn [snd] in E. subst hp'.
  split; [reflexivity|].
  rewrite empty_header_bit in He. apply negb_false_iff in He.
  pose proof (header_bit_in_buffer _ _ _ He) as Hin.
  split.
  - rewrite empty_header_bit. cbn [HeapPage.page HeapPage.header].
    now rewrite header_bit_clear, Nat.eqb_refl.
  - intros j Hj. rewrite !empty_header_bit. cbn [HeapPage.page HeapPage.header].
    rewrite header_bit_clear by assumption.
    destruct (Nat.eqb_spec j i); [contradiction|reflexivity].
Qed.

(** The delete of a slot that is not empty succeeds and clears it. *)
Lemma deleteTuple_succeeds (hp : HeapPage.t) (i : nat) :
  HeapPage.empty hp i = false ->
  exists hp' : HeapPage.t,
    HeapPage.deleteTuple hp i = (Ok tt, hp')
    /\ HeapPage.empty hp' i = true
    /\ HeapPage.deleteTuple hp' i = (Throw logic_error, hp').
Proof.
  intros He.
  assert (E : HeapPage.deleteTuple hp i
              = (Ok tt, snd (HeapPage.deleteTuple hp i)))
    by (unfold HeapPage.deleteTuple; now rewrite He).
  destruct (deleteTuple_occupied hp _ i E) as (_ & He' & _).
  eexists. split; [exact E|]. split; [exact He'|].
  now apply deleteTuple_empty.
Qed.

(** C5.  On a page of any contents: the slot that a successful insert
    picks is not empty afterwards, and its delete then succeeds; the
    delete of a slot that is not empty succeeds, the slot is empty
    afterwards and the other slots are as before, and a second delete of
    it fails; a delete succeeds on no other slot; the delete of an empty
    slot fails with the error of an invalid delete and leaves the page as
    it was. *)
Theorem occupancy_bitmap :
  forall (pg : Page) (td : TupleDesc),
    length pg = DEFAULT_PAGE_SIZE ->
    let hp := HeapPage.make CHAR_SIZE DEFAULT_PAGE_SIZE pg td in
    (forall (tup : Tuple) (hp' : HeapPage.t),
        HeapPage.insertTuple CHAR_SIZE mem hp tup = (Ok true, hp') ->
        let i := HeapPage.insert_loop hp (HeapPage.capacity hp) 0 in
        i < HeapPage.capacity hp /\ HeapPage.empty hp' i = false
        /\ exists hp'' : HeapPage.t,
             HeapPage.deleteTuple hp' i = (Ok tt, hp'')
             /\ HeapPage.empty hp'' i = true
             /\ HeapPage.deleteTuple hp'' i = (Throw logic_error, hp''))
    /\ (forall i : nat,
          HeapPage.empty hp i = false ->
          exists hp' : HeapPage.t,
            HeapPage.deleteTuple hp i = (Ok tt, hp')
            /\ HeapPage.empty hp' i = true
            /\ (forall j, j <> i -> HeapPage.empty hp' j = HeapPage.empty hp j)
            /\ HeapPage.deleteTuple hp' i = (Throw logic_error, hp'))
    /\ (forall (i : nat) (hp' : HeapPage.t),
          HeapPage.deleteTuple hp i = (Ok tt, hp') ->
          HeapPage.empty hp i = false
          /\ HeapPage.empty hp' i = true
          /\ HeapPage.deleteTuple hp' i = (Throw logic_error, hp'))
    /\ (forall i : nat,
          HeapPage.empty hp i = true ->
          HeapPage.deleteTuple hp i = (Throw logic_error, hp)).
Proof.
  intros pg td Hlen hp. split; [|split; [|split]].
  - intros tup hp' E i.
    cut (i < HeapPage.capacity hp /\ HeapPage.empty hp' i = false).
    { intros [Hi He]. split; [exact Hi|]. split; [exact He|].
      apply deleteTuple_succeeds. exact He. }
    destruct (insert_slot_spec hp) as (Hle & _ & _). fold i in Hle.
    unfold HeapPage.insertTuple in E. fold i in E.
    destruct (Nat.eqb_spec i (HeapPage.capacity hp)) as [|Hne];
      [discriminate|].
    assert (Hi : i < HeapPage.capacity hp) by lia.
    split; [assumption|].
    destruct (slot_in_page CHAR_SIZE DEFAULT_PAGE_SIZE pg td i Hi) as [Hh Hd].
    fold hp in Hh, Hd.
    pose proof (serialize_loop_length_ge CHAR_SIZE mem (tupleTypes (HeapPage.td hp))
                  tup (HeapPage.page hp)
                  (HeapPage.data hp + i * TupleDesc.length CHAR_SIZE (HeapPage.td hp))
                  0 0) as Hge.
    unfold TupleDesc.serialize in E.
    destruct (TupleDesc.serialize_loop _ _ _ _ _ _ _ _) as [[u|e] buf];
      [|discriminate].
    apply (f_equal snd) in E. cbn [snd] in E. subst hp'. cbn [snd] in Hge.
    change (HeapPage.page hp) with pg in Hge.
    rewrite empty_header_bit. cbn [HeapPage.page HeapPage.header].
    rewrite header_bit_set, Nat.eqb_refl; [reflexivity|].
    change (HeapPage.data hp)
      with (0 + (DEFAULT_PAGE_SIZE
                 - HeapPage.capacity hp * TupleDesc.length CHAR_SIZE td)) in Hh.
    lia.
  - intros i He.
    destruct (deleteTuple_succeeds hp i He) as (hp' & E & He' & Ht).
    exists hp'. split; [exact E|]. split; [exact He'|]. split; [|exact Ht].
    now destruct (deleteTuple_occupied hp hp' i E) as (_ & _ & Ho).
  - intros i hp' E.
    destruct (deleteTuple_occupied hp hp' i E) as (Hocc & He & _).
    split; [assumption|]. split; [assumption|]. now apply deleteTuple_empty.
  - intros i. apply deleteTuple_empty.
Qed.

End PageClaims.

(** On a page of 4096 zero bytes the first insert picks slot 0, which is
    then not empty; its delete succeeds and empties it, and the delete
    after that fails. *)
Lemma occupancy_bitmap_witness :
  length (repeat 0%Z 4096) = 4096
  /\ HeapPage.insertTuple 64 zero_memory
       (HeapPage.make 64 4096 (repeat 0%Z 4096) record_schema) sample_record
     = (Ok true, HeapPage.make 64 4096 one_record_page record_schema)
  /\ HeapPage.empty (HeapPage.make 64 4096 one_record_page record_schema) 0
     = false
  /\ exists hp'' : HeapPage.t,
       HeapPage.deleteTuple
         (HeapPage.make 64 4096 one_record_page record_schema) 0
       = (Ok tt, hp'')
       /\ HeapPage.empty hp'' 0 = true
       /\ HeapPage.deleteTuple hp'' 0 = (Throw logic_error, hp'').
Proof.
  assert (Ei : HeapPage.insertTuple 64 zero_memory
                 (HeapPage.make 64 4096 (repeat 0%Z 4096) record_schema)
                 sample_record
               = (Ok true, HeapPage.make 64 4096 one_record_page record_schema))
    by (vm_compute; reflexivity).
  split; [reflexivity|]. split; [exact Ei|].
  destruct (proj1 (occupancy_bitmap 64 4096 zero_memory (repeat 0%Z 4096)
                     record_schema eq_refl)
              sample_record _ Ei) as (_ & He & Hd).
  split; [exact He|exact Hd].
Defined.

Section PageFill.

Variable CHAR_SIZE : nat.
Variable DEFAULT_PAGE_SIZE : nat.
Variable mem : Memory.

Lemma empty_zero_page (td : TupleDesc) (j : nat) :
  HeapPage.empty
    (HeapPage.make CHAR_SIZE DEFAULT_PAGE_SIZE (repeat 0%Z DEFAULT_PAGE_SIZE) td) j
  = true.
Proof.
  unfold HeapPage.empty. cbn [HeapPage.page HeapPage.make].
  rewrite nth_repeat. reflexivity.
Qed.

Lemma filled_to_insert_slot (k : nat) (hp : HeapPage.t) :
  k <= HeapPage.capacity hp -> filled_to k hp ->
  HeapPage.insert_loop hp (HeapPage.capacity hp) 0 = k.
Proof.
  intros Hk Hf. apply insert_slot_unique; [assumption| |].
  - intros j Hj. rewrite Hf by lia. apply Nat.leb_gt. lia.
  - intros Hlt. rewrite Hf by lia. apply Nat.leb_refl.
Qed.

(** Inserting compatible tuples into a page whose first [k] slots are
    taken fills the slots that follow, one by one. *)
Lemma insert_all_filled (td : TupleDesc) (ts : list Tuple) (pg : Page)
    (k : nat) :
  length pg = DEFAULT_PAGE_SIZE ->
  k + length ts
  <= (DEFAULT_PAGE_SIZE * 8) / (TupleDesc.length CHAR_SIZE td * 8 + 1) ->
  filled_to k (HeapPage.make CHAR_SIZE DEFAULT_PAGE_SIZE pg td) ->
  Forall (fun t => TupleDesc.compatible td t = Ok true) ts ->
  exists pg' : Page,
    insert_all CHAR_SIZE mem (HeapPage.make CHAR_SIZE DEFAULT_PAGE_SIZE pg td) ts
    = (repeat (Ok true) (length ts),
       HeapPage.make CHAR_SIZE DEFAULT_PAGE_SIZE pg' td)
    /\ length pg' = DEFAULT_PAGE_SIZE
    /\ filled_to (k + length ts)
         (HeapPage.make CHAR_SIZE DEFAULT_PAGE_SIZE pg' td).
Proof.
  set (cap := (DEFAULT_PAGE_SIZE * 8) / (TupleDesc.length CHAR_SIZE td * 8 + 1)).
  revert pg k.
  induction ts as [|tup r IH]; intros pg k Hlen Hk Hf Hc.
  - exists pg. cbn [insert_all length repeat]. rewrite Nat.add_0_r. auto.
  - cbn [length] in Hk. apply Forall_cons_iff in Hc. destruct Hc as [Hct Hcr].
    set (hp := HeapPage.make CHAR_SIZE DEFAULT_PAGE_SIZE pg td) in *.
    assert (Hcap : HeapPage.capacity hp = cap) by reflexivity.
    assert (Hslot : HeapPage.insert_loop hp (HeapPage.capacity hp) 0 = k)
      by (apply filled_to_insert_slot; [lia|assumption]).
    destruct (insertTuple_spec CHAR_SIZE DEFAULT_PAGE_SIZE mem pg td tup Hlen Hct)
      as (buf & Es & Hl & Hfirst & Ei).
    { fold hp. rewrite Hslot. lia. }
    fold hp in Es, Hfirst, Ei. rewrite Hslot in Es, Hfirst, Ei.
    set (pg1 := store_byte buf (k / 8) (header_byte_set buf 0 k)) in *.
    destruct (IH pg1 (S k)) as (pg' & Ea & Hl' & Hf'); try assumption.
    + unfold pg1. now rewrite length_store_byte.
    + lia.
    + intros j Hj.
      change (HeapPage.capacity _) with (HeapPage.capacity hp) in Hj.
      pose proof (insertTuple_header CHAR_SIZE DEFAULT_PAGE_SIZE pg buf td k j
                    Hlen Hl Hfirst) as Hh.
      fold hp pg1 in Hh. rewrite Hh by lia.
      destruct (Nat.eqb_spec j k) as [->|Hne].
      * symmetry. apply Nat.leb_gt. lia.
      * rewrite Hf by exact Hj.
        destruct (Nat.leb_spec k j), (Nat.leb_spec (S k) j); (reflexivity || lia).
    + exists pg'. cbn [insert_all length repeat]. rewrite Ei, Ea.
      split; [reflexivity|]. split; [assumption|].
      now replace (k + S (length r)) with (S k + length r) by lia.
Qed.

(** C6.  With a compatible tuple, [insertTuple] picks the smallest empty
    slot of the page; when there is one, it answers true, the tuple's
    bytes are in the data of the page, the header bit of the slot is set
    and the others are as before; when there is none, it answers false
    and the page is as before; a page of zero bytes takes as many tuples
    as its capacity and refuses the next one. *)
Theorem insert_first_empty_slot :
  forall (pg : Page) (td : TupleDesc) (tup : Tuple),
    length pg = DEFAULT_PAGE_SIZE ->
    TupleDesc.compatible td tup = Ok true ->
    let hp := HeapPage.make CHAR_SIZE DEFAULT_PAGE_SIZE pg td in
    let fresh := HeapPage.make CHAR_SIZE DEFAULT_PAGE_SIZE
                   (repeat 0%Z DEFAULT_PAGE_SIZE) td in
    let cap := HeapPage.capacity hp in
    let T := TupleDesc.length CHAR_SIZE td in
    let s := HeapPage.insert_loop hp cap 0 in
    (s <= cap
     /\ (forall j, j < s -> HeapPage.empty hp j = false)
     /\ (s < cap -> HeapPage.empty hp s = true))
    /\ (s < cap ->
        exists (hp' : HeapPage.t) (buf : list Z),
          HeapPage.insertTuple CHAR_SIZE mem hp tup = (Ok true, hp')
          /\ HeapPage.empty hp' s = false
          /\ (forall j, j < cap -> j <> s ->
                        HeapPage.empty hp' j = HeapPage.empty hp j)
          /\ TupleDesc.serialize CHAR_SIZE mem td pg (HeapPage.data hp + s * T) tup
             = (Ok tt, buf)
          /\ (forall k, HeapPage.data hp <= k ->
                        nth k (HeapPage.page hp') 0%Z = nth k buf 0%Z))
    /\ (s = cap -> HeapPage.insertTuple CHAR_SIZE mem hp tup = (Ok false, hp))
    /\ (forall ts : list Tuple,
          length ts = cap ->
          Forall (fun t => TupleDesc.compatible td t = Ok true) ts ->
          fst (insert_all CHAR_SIZE mem fresh ts) = repeat (Ok true) cap
          /\ fst (HeapPage.insertTuple CHAR_SIZE mem
                    (snd (insert_all CHAR_SIZE mem fresh ts)) tup)
             = Ok false).
Proof.
  intros pg td tup Hlen Hc hp fresh cap T s.
  split; [exact (insert_slot_spec hp)|]. split; [|split].
  - intros Hs.
    destruct (insertTuple_spec CHAR_SIZE DEFAULT_PAGE_SIZE mem pg td tup Hlen Hc Hs)
      as (buf & Es & Hl & Hfirst & Ei).
    fold hp T s in Es, Hfirst, Ei.
    eexists. exists buf. split; [exact Ei|].
    pose proof (fun j => insertTuple_header CHAR_SIZE DEFAULT_PAGE_SIZE pg buf td s j
                           Hlen Hl Hfirst Hs) as Hh.
    fold hp in Hh. split; [|split; [|split]].
    + rewrite Hh by exact Hs. now rewrite Nat.eqb_refl.
    + intros j Hj Hne. rewrite Hh by exact Hj.
      destruct (Nat.eqb_spec j s); [contradiction|reflexivity].
    + exact Es.
    + intros k Hk. cbn [HeapPage.page HeapPage.make].
      destruct (slot_in_page CHAR_SIZE DEFAULT_PAGE_SIZE pg td s Hs) as [Hlt _].
      fold hp in Hlt. change (HeapPage.header hp) with 0 in Hlt.
      rewrite Nat.add_0_l in Hlt. apply nth_store_byte_neq.
      change (HeapPage.insert_loop hp (HeapPage.capacity hp) 0) with s. lia.
  - intros E. now apply insertTuple_full.
  - intros ts Hts Hcs.
    destruct (insert_all_filled td ts (repeat 0%Z DEFAULT_PAGE_SIZE) 0)
      as (pg' & Ea & Hl' & Hf'); try assumption.
    + apply repeat_length.
    + rewrite Hts. apply Nat.le_refl.
    + intros j _. rewrite empty_zero_page. reflexivity.
    + fold fresh in Ea. rewrite Ea. cbn [fst snd]. rewrite Hts.
      split; [reflexivity|].
      rewrite insertTuple_full; [reflexivity|].
      apply filled_to_insert_slot; [reflexivity|].
      cbn [Nat.add] in Hf'. rewrite Hts in Hf'. exact Hf'.
Qed.

End PageFill.

(** A page of zero bytes takes a first tuple in slot 0. *)
Lemma insert_first_empty_slot_witness :
  length (repeat 0%Z 4096) = 4096
  /\ TupleDesc.compatible record_schema
       (mkTuple [f_int 7; f_string "ab"; f_double 0]) = Ok true
  /\ (HeapPage.insert_loop
        (HeapPage.make 64 4096 (repeat 0%Z 4096) record_schema)
        (HeapPage.capacity
           (HeapPage.make 64 4096 (repeat 0%Z 4096) record_schema)) 0
      <= HeapPage.capacity
           (HeapPage.make 64 4096 (repeat 0%Z 4096) record_schema)).
Proof.
  split; [reflexivity|]. split; [reflexivity|].
  apply (insert_first_empty_slot 64 4096 zero_memory (repeat 0%Z 4096)
           record_schema (mkTuple [f_int 7; f_string "ab"; f_double 0])
           eq_refl eq_refl).
Defined.

(** ** Lists of cursors *)

Lemma filter_nil_on (A : Type) (g : A -> bool) (l : list A) :
  (forall x, In x l -> g x = false) -> filter g l = [].
Proof.
  induction l as [|x r IH]; intros H; simpl; [reflexivity|].
  rewrite (H x) by now left. apply IH. intros y Hy. apply H. now right.
Qed.

Lemma StronglySorted_app (A : Type) (R : A -> A -> Prop) (l1 l2 : list A) :
  StronglySorted R l1 -> StronglySorted R l2 ->
  (forall a b, In a l1 -> In b l2 -> R a b) ->
  StronglySorted R (l1 ++ l2).
Proof.
  induction l1 as [|x r IH]; intros H1 H2 H; simpl; [assumption|].
  inversion H1 as [|? ? Hr Hx]; subst. constructor.
  - apply IH; auto. intros a b Ha Hb. apply H; [now right|assumption].
  - apply Forall_app. split; [assumption|].
    apply Forall_forall. intros b Hb. apply H; [now left|assumption].
Qed.

Lemma StronglySorted_irrefl_NoDup (A : Type) (R : A -> A -> Prop)
    (l : list A) :
  (forall a, ~ R a a) -> StronglySorted R l -> NoDup l.
Proof.
  intros Hirr. induction 1 as [|x r Hs IH Hx]; constructor; [|assumption].
  intros Hin. rewrite Forall_forall in Hx. exact (Hirr x (Hx x Hin)).
Qed.

Lemma cursor_lt_irrefl (a : Iterator.t) : ~ cursor_lt a a.
Proof. unfold cursor_lt. lia. Qed.

(** ** Scanning a heap file *)

Section FileScan.

Variable CHAR_SIZE : nat.
Variable DEFAULT_PAGE_SIZE : nat.
Variable Store : Type.
Variable readPage : Store -> nat -> Page.
Variable f : HeapFile.t Store.

Lemma occupied_in_page_eq (p s : nat) :
  HeapFile.occupied_in_page CHAR_SIZE DEFAULT_PAGE_SIZE readPage f p s
  = map (Iterator.mk p)
      (filter (HeapFile.occupied CHAR_SIZE DEFAULT_PAGE_SIZE readPage f p)
         (seq s (file_capacity CHAR_SIZE DEFAULT_PAGE_SIZE f - s))).
Proof. reflexivity. Qed.

Lemma occupied_eq (p s : nat) :
  HeapFile.occupied CHAR_SIZE DEFAULT_PAGE_SIZE readPage f p s
  = (s <? file_capacity CHAR_SIZE DEFAULT_PAGE_SIZE f)
    && negb (HeapPage.empty (heap_page CHAR_SIZE DEFAULT_PAGE_SIZE readPage f p) s).
Proof. reflexivity. Qed.

Lemma capacity_heap_page (p : nat) :
  HeapPage.capacity (heap_page CHAR_SIZE DEFAULT_PAGE_SIZE readPage f p)
  = file_capacity CHAR_SIZE DEFAULT_PAGE_SIZE f.
Proof. reflexivity. Qed.

(** The occupied cursors of a page from [s] on start at the slot where
    the scan of the header from [s] stops. *)
Lemma occupied_in_page_first (p s : nat) :
  s <= file_capacity CHAR_SIZE DEFAULT_PAGE_SIZE f ->
  let r := HeapPage.begin_loop
             (heap_page CHAR_SIZE DEFAULT_PAGE_SIZE readPage f p)
             (file_capacity CHAR_SIZE DEFAULT_PAGE_SIZE f) s in
  r <= file_capacity CHAR_SIZE DEFAULT_PAGE_SIZE f
  /\ HeapFile.occupied_in_page CHAR_SIZE DEFAULT_PAGE_SIZE readPage f p s
     = if r <? file_capacity CHAR_SIZE DEFAULT_PAGE_SIZE f
       then Iterator.mk p r
            :: HeapFile.occupied_in_page CHAR_SIZE DEFAULT_PAGE_SIZE readPage f p (S r)
       else [].
Proof.
  intros Hs r.
  set (cap := file_capacity CHAR_SIZE DEFAULT_PAGE_SIZE f) in *.
  set (hp := heap_page CHAR_SIZE DEFAULT_PAGE_SIZE readPage f p) in *.
  destruct (first_occupied_spec hp s) as ([Hsr Hrc] & Hempty & Hocc);
    [exact Hs|].
  change (HeapPage.capacity hp) with cap in Hsr, Hrc, Hempty, Hocc.
  change (HeapPage.begin_loop hp cap s) with r in Hsr, Hrc, Hempty, Hocc.
  split; [exact Hrc|].
  rewrite !occupied_in_page_eq. fold cap.
  replace (cap - s) with ((r - s) + (cap - r)) by lia.
  rewrite seq_app, filter_app.
  rewrite filter_nil_on.
  2:{ intros j Hj. apply in_seq in Hj. rewrite occupied_eq. fold hp.
      rewrite Hempty by lia. apply andb_false_r. }
  replace (s + (r - s)) with r by lia. cbn [app].
  destruct (Nat.ltb_spec r cap) as [Hlt|Hge].
  - replace (cap - r) with (S (cap - S r)) by lia. cbn [seq filter].
    rewrite occupied_eq. fold hp cap. rewrite Hocc by exact Hlt.
    rewrite (proj2 (Nat.ltb_lt r cap) Hlt). reflexivity.
  - replace (cap - r) with 0 by lia. reflexivity.
Qed.

(** One slot of a page: taken, it heads the occupied cursors from it on;
    empty, it is skipped. *)
Lemma occupied_in_page_step (p s : nat) :
  s < file_capacity CHAR_SIZE DEFAULT_PAGE_SIZE f ->
  HeapFile.occupied_in_page CHAR_SIZE DEFAULT_PAGE_SIZE readPage f p s
  = if HeapPage.empty (heap_page CHAR_SIZE DEFAULT_PAGE_SIZE readPage f p) s
    then HeapFile.occupied_in_page CHAR_SIZE DEFAULT_PAGE_SIZE readPage f p (S s)
    else Iterator.mk p s
         :: HeapFile.occupied_in_page CHAR_SIZE DEFAULT_PAGE_SIZE readPage f p (S s).
Proof.
  intros Hs. rewrite !occupied_in_page_eq.
  set (cap := file_capacity CHAR_SIZE DEFAULT_PAGE_SIZE f) in *.
  replace (cap - s) with (S (cap - S s)) by lia. cbn [seq filter].
  rewrite occupied_eq. fold cap. rewrite (proj2 (Nat.ltb_lt s cap) Hs).
  now destruct (HeapPage.empty _ s).
Qed.

Lemma occupied_from_next_page (p : nat) :
  S p < HeapFile.numPages f ->
  flat_map (fun q => HeapFile.occupied_in_page CHAR_SIZE DEFAULT_PAGE_SIZE readPage f q 0)
    (seq (S p) (HeapFile.numPages f - S p))
  = HeapFile.occupied_from CHAR_SIZE DEFAULT_PAGE_SIZE readPage f (S p) 0.
Proof.
  intros Hp. unfold HeapFile.occupied_from.
  replace (HeapFile.numPages f - S p)
    with (S (HeapFile.numPages f - S (S p))) by lia.
  reflexivity.
Qed.

Lemma iterator_eqb_refl (c : Iterator.t) : Iterator.eqb c c = true.
Proof. unfold Iterator.eqb. now rewrite !Nat.eqb_refl. Qed.

Lemma end_eq :
  HeapFile.end_ CHAR_SIZE DEFAULT_PAGE_SIZE readPage f
  = Iterator.mk (HeapFile.numPages f - 1)
      (file_capacity CHAR_SIZE DEFAULT_PAGE_SIZE f).
Proof. reflexivity. Qed.

(** [next] from a slot of a page of the file: it stops at the first
    occupied cursor after it, or at [end()] when there is none. *)
Lemma next_loop_spec (n p s : nat) :
  p < HeapFile.numPages f ->
  s < file_capacity CHAR_SIZE DEFAULT_PAGE_SIZE f ->
  HeapFile.numPages f - p <= n ->
  match HeapFile.occupied_from CHAR_SIZE DEFAULT_PAGE_SIZE readPage f p (S s) with
  | [] =>
      HeapFile.next_loop CHAR_SIZE DEFAULT_PAGE_SIZE readPage f n (Iterator.mk p s)
      = Some (HeapFile.end_ CHAR_SIZE DEFAULT_PAGE_SIZE readPage f)
  | c :: rest =>
      HeapFile.next_loop CHAR_SIZE DEFAULT_PAGE_SIZE readPage f n (Iterator.mk p s)
      = Some c
      /\ Iterator.page c < HeapFile.numPages f
      /\ Iterator.slot c < file_capacity CHAR_SIZE DEFAULT_PAGE_SIZE f
      /\ HeapFile.occupied_from CHAR_SIZE DEFAULT_PAGE_SIZE readPage f
           (Iterator.page c) (S (Iterator.slot c)) = rest
  end.
Proof.
  set (cap := file_capacity CHAR_SIZE DEFAULT_PAGE_SIZE f).
  revert p s. induction n as [|n IH]; intros p s Hp Hs Hn; [lia|].
  cbn [HeapFile.next_loop Iterator.page Iterator.slot].
  change (HeapPage.make CHAR_SIZE DEFAULT_PAGE_SIZE
            (readPage (HeapFile.store f) p) (HeapFile.td f))
    with (heap_page CHAR_SIZE DEFAULT_PAGE_SIZE readPage f p).
  change (HeapPage.make CHAR_SIZE DEFAULT_PAGE_SIZE
            (readPage (HeapFile.store f) (p + 1)) (HeapFile.td f))
    with (heap_page CHAR_SIZE DEFAULT_PAGE_SIZE readPage f (p + 1)).
  unfold HeapPage.next, HeapPage.end_.
  rewrite next_loop_begin_loop, !capacity_heap_page, !Nat.add_1_r. fold cap.
  destruct (occupied_in_page_first p (S s)) as [Hr Hfirst]; [exact Hs|].
  fold cap in Hr, Hfirst.
  set (r := HeapPage.begin_loop
              (heap_page CHAR_SIZE DEFAULT_PAGE_SIZE readPage f p) cap (S s)) in *.
  unfold HeapFile.occupied_from at 1. rewrite Hfirst.
  destruct (Nat.ltb_spec r cap) as [Hlt|Hge].
  - rewrite (proj2 (Nat.eqb_neq r cap)) by lia. cbn [andb app].
    repeat split; assumption.
  - assert (r = cap) by lia. subst r. rewrite H, Nat.eqb_refl. cbn [andb app].
    destruct (Nat.ltb_spec p (HeapFile.numPages f - 1)) as [Hp'|Hp'].
    + rewrite occupied_from_next_page by lia.
      unfold HeapFile.occupied_from at 1.
      rewrite occupied_in_page_step by (fold cap; lia).
      destruct (HeapPage.empty
                  (heap_page CHAR_SIZE DEFAULT_PAGE_SIZE readPage f (S p)) 0)
        eqn:He; cbn [negb app].
      * apply IH; lia.
      * repeat split; cbn [Iterator.page Iterator.slot]; lia.
    + replace (HeapFile.numPages f - S p) with 0 by lia. cbn [seq flat_map].
      rewrite end_eq. fold cap. do 2 f_equal. lia.
Qed.

(** [next] returns from every cursor: each iteration that does not end
    the loop moves one page on, and the last page ends it. *)
Lemma next_loop_returns (n : nat) (it : Iterator.t) :
  HeapFile.numPages f <= Iterator.page it + n ->
  exists it' : Iterator.t,
    HeapFile.next_loop CHAR_SIZE DEFAULT_PAGE_SIZE readPage f (S n) it = Some it'.
Proof.
  revert it. induction n as [|n IH]; intros it Hn;
    cbn [HeapFile.next_loop];
    match goal with
    | |- context [if ?c then _ else _] => destruct c eqn:Hc
    end;
    try (eexists; reflexivity).
  - apply andb_prop in Hc. destruct Hc as [_ Hp]. apply Nat.ltb_lt in Hp. lia.
  - destruct (negb _); [eexists; reflexivity|].
    apply IH. cbn [Iterator.page]. lia.
Qed.

Lemma next_returns (it : Iterator.t) :
  exists it' : Iterator.t,
    HeapFile.next CHAR_SIZE DEFAULT_PAGE_SIZE readPage f it = Some it'.
Proof. apply next_loop_returns. lia. Qed.

(** [begin]: the first occupied cursor of the file, or [end()]. *)
Lemma begin_loop_spec_file (n i : nat) :
  i + n = HeapFile.numPages f ->
  match flat_map
          (fun q => HeapFile.occupied_in_page CHAR_SIZE DEFAULT_PAGE_SIZE readPage f q 0)
          (seq i n) with
  | [] =>
      HeapFile.begin_loop CHAR_SIZE DEFAULT_PAGE_SIZE readPage f n i
      = HeapFile.end_ CHAR_SIZE DEFAULT_PAGE_SIZE readPage f
  | c :: rest =>
      HeapFile.begin_loop CHAR_SIZE DEFAULT_PAGE_SIZE readPage f n i = c
      /\ Iterator.page c < HeapFile.numPages f
      /\ Iterator.slot c < file_capacity CHAR_SIZE DEFAULT_PAGE_SIZE f
      /\ HeapFile.occupied_from CHAR_SIZE DEFAULT_PAGE_SIZE readPage f
           (Iterator.page c) (S (Iterator.slot c)) = rest
  end.
Proof.
  set (cap := file_capacity CHAR_SIZE DEFAULT_PAGE_SIZE f).
  revert i. induction n as [|n IH]; intros i Hi; [reflexivity|].
  cbn [HeapFile.begin_loop seq flat_map].
  change (HeapPage.make CHAR_SIZE DEFAULT_PAGE_SIZE
            (readPage (HeapFile.store f) i) (HeapFile.td f))
    with (heap_page CHAR_SIZE DEFAULT_PAGE_SIZE readPage f i).
  unfold HeapPage.begin, HeapPage.end_. rewrite !capacity_heap_page. fold cap.
  destruct (occupied_in_page_first i 0) as [Hr Hfirst]; [lia|].
  fold cap in Hr, Hfirst.
  set (r := HeapPage.begin_loop
              (heap_page CHAR_SIZE DEFAULT_PAGE_SIZE readPage f i) cap 0) in *.
  rewrite Hfirst.
  destruct (Nat.ltb_spec r cap) as [Hlt|Hge].
  - rewrite (proj2 (Nat.eqb_neq r cap)) by lia. cbn [negb app].
    repeat split; cbn [Iterator.page Iterator.slot]; try lia.
    unfold HeapFile.occupied_from.
    replace (HeapFile.numPages f - S i) with n by lia. reflexivity.
  - assert (r = cap) by lia. subst r. rewrite H, Nat.eqb_refl. cbn [negb app].
    apply IH. lia.
Qed.

(** The scan from an occupied cursor collects it and the occupied
    cursors after it. *)
Lemma scan_from_spec (l : list Iterator.t) (n : nat) (c : Iterator.t) :
  Iterator.page c < HeapFile.numPages f ->
  Iterator.slot c < file_capacity CHAR_SIZE DEFAULT_PAGE_SIZE f ->
  HeapFile.occupied_from CHAR_SIZE DEFAULT_PAGE_SIZE readPage f
    (Iterator.page c) (S (Iterator.slot c)) = l ->
  length l + 2 <= n ->
  HeapFile.scan_from CHAR_SIZE DEFAULT_PAGE_SIZE readPage f n c = Some (c :: l).
Proof.
  revert n c. induction l as [|c' rest IH]; intros n c Hp Hs Hl Hn;
    (destruct n as [|n]; [simpl in Hn; lia|]); cbn [HeapFile.scan_from];
    assert (Hne : Iterator.eqb c (HeapFile.end_ CHAR_SIZE DEFAULT_PAGE_SIZE readPage f)
                  = false)
      by (rewrite end_eq; unfold Iterator.eqb; cbn [Iterator.slot];
          rewrite (proj2 (Nat.eqb_neq (Iterator.slot c) _)) by lia;
          apply andb_false_r);
    rewrite Hne; unfold HeapFile.next;
    pose proof (next_loop_spec (S (HeapFile.numPages f)) (Iterator.page c)
                  (Iterator.slot c) Hp Hs ltac:(lia)) as Hnext;
    rewrite Hl in Hnext; destruct c as [p s]; cbn [Iterator.page Iterator.slot] in *.
  - rewrite Hnext. destruct n as [|n]; [simpl in Hn; lia|].
    cbn [HeapFile.scan_from]. now rewrite iterator_eqb_refl.
  - destruct Hnext as (E & Hp' & Hs' & Hl'). rewrite E.
    rewrite (IH n c' Hp' Hs' Hl'); [reflexivity|]. simpl in Hn. lia.
Qed.

End FileScan.

Section ScanClaim.

Variable CHAR_SIZE : nat.
Variable DEFAULT_PAGE_SIZE : nat.
Variable Store : Type.
Variable readPage : Store -> nat -> Page.
Variable f : HeapFile.t Store.

Lemma in_occupied_in_page (p s : nat) (c : Iterator.t) :
  In c (HeapFile.occupied_in_page CHAR_SIZE DEFAULT_PAGE_SIZE readPage f p s)
  <-> Iterator.page c = p /\ s <= Iterator.slot c
      /\ HeapFile.occupied CHAR_SIZE DEFAULT_PAGE_SIZE readPage f p (Iterator.slot c)
         = true.
Proof.
  rewrite occupied_in_page_eq, in_map_iff. split.
  - intros (j & <- & Hj). apply filter_In in Hj. destruct Hj as [Hj Ho].
    apply in_seq in Hj. cbn [Iterator.page Iterator.slot]. repeat split; (lia || assumption).
  - intros (Hp & Hs & Ho). exists (Iterator.slot c). split.
    + destruct c as [q j]. cbn [Iterator.page Iterator.slot] in *. now subst.
    + apply filter_In. split; [|assumption]. apply in_seq.
      rewrite occupied_eq in Ho. apply andb_prop in Ho. destruct Ho as [Ho _].
      apply Nat.ltb_lt in Ho. lia.
Qed.

Lemma sorted_occupied_in_page (p s : nat) :
  StronglySorted cursor_lt
    (HeapFile.occupied_in_page CHAR_SIZE DEFAULT_PAGE_SIZE readPage f p s).
Proof.
  rewrite occupied_in_page_eq.
  generalize (file_capacity CHAR_SIZE DEFAULT_PAGE_SIZE f - s) as n.
  intros n. revert s. induction n as [|n IH]; intros s; cbn [seq filter map].
  - constructor.
  - destruct (HeapFile.occupied CHAR_SIZE DEFAULT_PAGE_SIZE readPage f p s);
      [|apply IH].
    cbn [map]. constructor; [apply IH|].
    apply Forall_forall. intros c Hc. apply in_map_iff in Hc.
    destruct Hc as (j & <- & Hj). apply filter_In in Hj. destruct Hj as [Hj _].
    apply in_seq in Hj. right. cbn [Iterator.page Iterator.slot]. lia.
Qed.

Lemma in_occupied_pages (i n : nat) (c : Iterator.t) :
  In c (flat_map
          (fun q => HeapFile.occupied_in_page CHAR_SIZE DEFAULT_PAGE_SIZE readPage f q 0)
          (seq i n))
  <-> i <= Iterator.page c < i + n
      /\ HeapFile.occupied CHAR_SIZE DEFAULT_PAGE_SIZE readPage f
           (Iterator.page c) (Iterator.slot c) = true.
Proof.
  rewrite in_flat_map. split.
  - intros (q & Hq & Hc). apply in_seq in Hq.
    apply in_occupied_in_page in Hc. destruct Hc as (<- & _ & Ho). now split.
  - intros (Hp & Ho). exists (Iterator.page c). split; [now apply in_seq|].
    apply in_occupied_in_page. repeat split; (lia || assumption).
Qed.

Lemma sorted_occupied_pages (i n : nat) :
  StronglySorted cursor_lt
    (flat_map
       (fun q => HeapFile.occupied_in_page CHAR_SIZE DEFAULT_PAGE_SIZE readPage f q 0)
       (seq i n)).
Proof.
  revert i. induction n as [|n IH]; intros i; cbn [seq flat_map].
  - constructor.
  - apply StronglySorted_app; [apply sorted_occupied_in_page|apply IH|].
    intros a b Ha Hb. apply in_occupied_in_page in Ha.
    apply in_occupied_pages in Hb. left. lia.
Qed.

Lemma length_occupied_in_page (p s : nat) :
  length (HeapFile.occupied_in_page CHAR_SIZE DEFAULT_PAGE_SIZE readPage f p s)
  <= file_capacity CHAR_SIZE DEFAULT_PAGE_SIZE f - s.
Proof.
  rewrite occupied_in_page_eq, length_map.
  eapply Nat.le_trans; [apply filter_length_le|]. now rewrite length_seq.
Qed.

Lemma length_occupied_pages (i n : nat) :
  length (flat_map
            (fun q => HeapFile.occupied_in_page CHAR_SIZE DEFAULT_PAGE_SIZE readPage f q 0)
            (seq i n))
  <= n * file_capacity CHAR_SIZE DEFAULT_PAGE_SIZE f.
Proof.
  revert i. induction n as [|n IH]; intros i; cbn [seq flat_map].
  - simpl. lia.
  - rewrite length_app. pose proof (length_occupied_in_page i 0).
    pose proof (IH (S i)). lia.
Qed.

(** C1.  On a file of one page or more, the scan from [begin()] by
    [next()] up to [end()] terminates within one step for each slot of
    the file and one more, and the cursors it stops at are the occupied
    cursors of the file in (page, slot) order: a cursor is among them
    exactly when its page is a page of the file and its slot is occupied,
    they increase strictly, and none occurs twice. *)
Theorem scan_visits_occupied_cursors :
  1 <= HeapFile.numPages f ->
  forall n : nat,
    HeapFile.numPages f * file_capacity CHAR_SIZE DEFAULT_PAGE_SIZE f < n ->
    let visited := HeapFile.occupied_cursors CHAR_SIZE DEFAULT_PAGE_SIZE readPage f in
    HeapFile.scan CHAR_SIZE DEFAULT_PAGE_SIZE readPage f n = Some visited
    /\ (forall c : Iterator.t,
          In c visited
          <-> Iterator.page c < HeapFile.numPages f
              /\ Iterator.slot c < file_capacity CHAR_SIZE DEFAULT_PAGE_SIZE f
              /\ HeapPage.empty
                   (heap_page CHAR_SIZE DEFAULT_PAGE_SIZE readPage f (Iterator.page c))
                   (Iterator.slot c) = false)
    /\ StronglySorted cursor_lt visited
    /\ NoDup visited.
Proof.
  intros Hpages n Hn visited.
  pose proof (length_occupied_pages 0 (HeapFile.numPages f)) as Hlen.
  fold (HeapFile.occupied_cursors CHAR_SIZE DEFAULT_PAGE_SIZE readPage f) in Hlen.
  fold visited in Hlen.
  assert (Hsorted : StronglySorted cursor_lt visited)
    by apply sorted_occupied_pages.
  split; [|split; [|split]].
  - unfold HeapFile.scan, HeapFile.begin.
    pose proof (begin_loop_spec_file CHAR_SIZE DEFAULT_PAGE_SIZE Store readPage f
                  (HeapFile.numPages f) 0 eq_refl) as Hb.
    fold (HeapFile.occupied_cursors CHAR_SIZE DEFAULT_PAGE_SIZE readPage f) in Hb.
    fold visited in Hb.
    destruct visited as [|c rest].
    + rewrite Hb. destruct n as [|n]; [lia|].
      cbn [HeapFile.scan_from]. now rewrite iterator_eqb_refl.
    + destruct Hb as (E & Hp & Hs & Hl). rewrite E.
      apply scan_from_spec; try assumption. simpl in Hlen. lia.
  - intros c. unfold visited, HeapFile.occupied_cursors.
    rewrite in_occupied_pages, occupied_eq. split.
    + intros (Hp & Ho). apply andb_prop in Ho. destruct Ho as [Hs He].
      apply Nat.ltb_lt in Hs. apply negb_true_iff in He.
      repeat split; (lia || assumption).
    + intros (Hp & Hs & He). split; [lia|].
      now rewrite (proj2 (Nat.ltb_lt _ _) Hs), He.
  - exact Hsorted.
  - apply (StronglySorted_irrefl_NoDup _ cursor_lt);
      [apply cursor_lt_irrefl|exact Hsorted].
Qed.

End ScanClaim.

(** On a file of three pages, the first slot of the first page and the
    whole second page empty, the scan stops at the three occupied
    cursors. *)
Lemma scan_visits_occupied_cursors_witness :
  1 <= HeapFile.numPages sample_file
  /\ HeapFile.numPages sample_file * file_capacity 64 16 sample_file < 10
  /\ HeapFile.scan 64 16 fun_read sample_file 10
     = Some (HeapFile.occupied_cursors 64 16 fun_read sample_file).
Proof.
  assert (H1 : 1 <= HeapFile.numPages sample_file) by (vm_compute; lia).
  assert (H2 : HeapFile.numPages sample_file * file_capacity 64 16 sample_file < 10)
    by (vm_compute; lia).
  split; [exact H1|]. split; [exact H2|].
  apply (scan_visits_occupied_cursors 64 16 fun_store fun_read sample_file H1 10 H2).
Defined.

(** The scan of the sample file, computed. *)
Example scan_sample_file :
  HeapFile.scan 64 16 fun_read sample_file 10
  = Some [Iterator.mk 0 1; Iterator.mk 2 1; Iterator.mk 2 2].
Proof. reflexivity. Qed.

(** ** Growth of a heap file *)

Section FileInsert.

Variable CHAR_SIZE : nat.
Variable DEFAULT_PAGE_SIZE : nat.
Variable mem : Memory.
Variable Store : Type.
Variable readPage : Store -> nat -> Page.
Variable writePage : Store -> Page -> nat -> Store.

(** One more tuple in a page whose first [k] slots are taken. *)
Lemma insertTuple_filled (td : TupleDesc) (tup : Tuple) (pg : Page) (k : nat) :
  let hp := HeapPage.make CHAR_SIZE DEFAULT_PAGE_SIZE pg td in
  length pg = DEFAULT_PAGE_SIZE ->
  k < HeapPage.capacity hp ->
  filled_to k hp ->
  TupleDesc.compatible td tup = Ok true ->
  exists pg' : Page,
    HeapPage.insertTuple CHAR_SIZE mem hp tup
    = (Ok true, HeapPage.make CHAR_SIZE DEFAULT_PAGE_SIZE pg' td)
    /\ length pg' = DEFAULT_PAGE_SIZE
    /\ filled_to (S k) (HeapPage.make CHAR_SIZE DEFAULT_PAGE_SIZE pg' td).
Proof.
  intros hp Hlen Hk Hf Hc.
  destruct (insert_all_filled CHAR_SIZE DEFAULT_PAGE_SIZE mem td [tup] pg k)
    as (pg' & Ea & Hl & Hf'); try assumption.
  - cbn [length]. change ((DEFAULT_PAGE_SIZE * 8) / _) with (HeapPage.capacity hp).
    lia.
  - now constructor.
  - fold hp in Ea. cbn [insert_all length repeat] in Ea.
    destruct (HeapPage.insertTuple CHAR_SIZE mem hp tup) as [o hp'].
    exists pg'. injection Ea as -> ->. split; [reflexivity|].
    split; [assumption|].
    now replace (S k) with (k + length [tup]) by (simpl; lia).
Qed.

(** [HeapFile::insertTuple] when the last page, as [readPage] gave it,
    has an empty slot: the page count is as before, and that page is
    handed to [writePage] at its index with the tuple in it. *)
Lemma file_insert_room (f : HeapFile.t Store) (tup : Tuple) :
  let last := HeapFile.numPages f - 1 in
  let hp := heap_page CHAR_SIZE DEFAULT_PAGE_SIZE readPage f last in
  length (readPage (HeapFile.store f) last) = DEFAULT_PAGE_SIZE ->
  TupleDesc.compatible (HeapFile.td f) tup = Ok true ->
  page_full hp = false ->
  exists pg' : Page,
    HeapFile.insertTuple CHAR_SIZE DEFAULT_PAGE_SIZE mem readPage writePage f tup
    = (Ok tt,
       HeapFile.mk (HeapFile.td f) (HeapFile.numPages f)
         (writePage (HeapFile.store f) pg' last))
    /\ HeapPage.insertTuple CHAR_SIZE mem hp tup
       = (Ok true, HeapPage.make CHAR_SIZE DEFAULT_PAGE_SIZE pg' (HeapFile.td f))
    /\ length pg' = DEFAULT_PAGE_SIZE.
Proof.
  intros last hp Hlen Hc Hfull.
  unfold page_full in Hfull. apply Nat.eqb_neq in Hfull.
  destruct (insert_slot_spec hp) as (Hle & _ & _).
  destruct (insertTuple_spec CHAR_SIZE DEFAULT_PAGE_SIZE mem
              (readPage (HeapFile.store f) last) (HeapFile.td f) tup Hlen Hc)
    as (buf & _ & Hl & _ & Ei).
  { fold (heap_page CHAR_SIZE DEFAULT_PAGE_SIZE readPage f last). fold hp. lia. }
  fold (heap_page CHAR_SIZE DEFAULT_PAGE_SIZE readPage f last) in Ei.
  fold hp in Ei.
  unfold HeapFile.insertTuple. fold last.
  fold (heap_page CHAR_SIZE DEFAULT_PAGE_SIZE readPage f last). fold hp.
  rewrite Ei. eexists. split; [reflexivity|]. split; [reflexivity|].
  cbn [HeapPage.page HeapPage.make]. now rewrite length_store_byte.
Qed.

(** [HeapFile::insertTuple] when the last page, as [readPage] gave it, is
    full: the page count grows by one, and the page that is handed to
    [writePage] at the new last index is a page of zero bytes with the
    tuple in slot 0. *)
Lemma file_insert_full (f : HeapFile.t Store) (tup : Tuple) :
  let last := HeapFile.numPages f - 1 in
  let hp := heap_page CHAR_SIZE DEFAULT_PAGE_SIZE readPage f last in
  let fresh := HeapPage.make CHAR_SIZE DEFAULT_PAGE_SIZE
                 (repeat 0%Z DEFAULT_PAGE_SIZE) (HeapFile.td f) in
  1 <= file_capacity CHAR_SIZE DEFAULT_PAGE_SIZE f ->
  TupleDesc.compatible (HeapFile.td f) tup = Ok true ->
  page_full hp = true ->
  exists pg' : Page,
    HeapFile.insertTuple CHAR_SIZE DEFAULT_PAGE_SIZE mem readPage writePage f tup
    = (Ok tt,
       HeapFile.mk (HeapFile.td f) (HeapFile.numPages f + 1)
         (writePage (HeapFile.store f) pg' (HeapFile.numPages f + 1 - 1)))
    /\ HeapPage.insertTuple CHAR_SIZE mem fresh tup
       = (Ok true, HeapPage.make CHAR_SIZE DEFAULT_PAGE_SIZE pg' (HeapFile.td f))
    /\ length pg' = DEFAULT_PAGE_SIZE
    /\ HeapPage.insert_loop fresh (HeapPage.capacity fresh) 0 = 0
    /\ filled_to 1 (HeapPage.make CHAR_SIZE DEFAULT_PAGE_SIZE pg' (HeapFile.td f)).
Proof.
  intros last hp fresh Hcap Hc Hfull.
  unfold page_full in Hfull. apply Nat.eqb_eq in Hfull.
  assert (Hzero : filled_to 0 fresh)
    by (intros j _; unfold fresh; rewrite empty_zero_page; reflexivity).
  destruct (insertTuple_filled (HeapFile.td f) tup (repeat 0%Z DEFAULT_PAGE_SIZE) 0)
    as (pg' & Ei & Hl & Hf');
    [apply repeat_length|exact Hcap|exact Hzero|exact Hc|].
  fold fresh in Ei.
  unfold HeapFile.insertTuple. fold last.
  fold (heap_page CHAR_SIZE DEFAULT_PAGE_SIZE readPage f last). fold hp.
  rewrite (insertTuple_full CHAR_SIZE mem hp tup Hfull).
  unfold HeapFile.zero_page. fold fresh. rewrite Ei.
  exists pg'. split; [reflexivity|]. split; [reflexivity|].
  split; [exact Hl|]. split; [|exact Hf'].
  apply (filled_to_insert_slot 0); [apply Nat.le_0_l|exact Hzero].
Qed.

End FileInsert.

(** ** The heap file on the collaborator of [db/DbFile.cpp]

    [DbFile::readPage] leaves the buffer that its caller zeroed as it
    is, and [DbFile::writePage] writes nothing: nothing that is written
    is read back, and every insert finds the last page empty. *)
Lemma stub_collaborator_keeps_page_count (CHAR_SIZE DEFAULT_PAGE_SIZE : nat)
    (mem : Memory) (f : HeapFile.t unit) (tup : Tuple) :
  1 <= file_capacity CHAR_SIZE DEFAULT_PAGE_SIZE f ->
  TupleDesc.compatible (HeapFile.td f) tup = Ok true ->
  HeapFile.insertTuple CHAR_SIZE DEFAULT_PAGE_SIZE mem
    (stub_read DEFAULT_PAGE_SIZE) stub_write f tup = (Ok tt, f).
Proof.
  intros Hcap Hc.
  destruct (insertTuple_spec CHAR_SIZE DEFAULT_PAGE_SIZE mem
              (repeat 0%Z DEFAULT_PAGE_SIZE) (HeapFile.td f) tup)
    as (buf & _ & _ & _ & Ei).
  - apply repeat_length.
  - exact Hc.
  - rewrite (filled_to_insert_slot 0).
    + exact Hcap.
    + apply Nat.le_0_l.
    + intros j _. rewrite empty_zero_page. reflexivity.
  - unfold HeapFile.insertTuple, stub_read. rewrite Ei.
    unfold stub_write. now destruct f.
Qed.

(** C7.  The specification has the page count of a new file start at 1
    and grow when the last page is full, so that the insert after as
    many inserts as a page has slots makes it 2.  On the collaborator
    that [db/DbFile.cpp] has, the count starts at 1 and stays there:
    however many compatible tuples are inserted, every insert returns,
    the file is as the constructor made it, with one page, and every
    slot of every page is read as empty. *)
Theorem heap_file_never_grows :
  forall (CHAR_SIZE DEFAULT_PAGE_SIZE : nat) (mem : Memory) (td : TupleDesc)
         (ts : list Tuple),
    let f0 := HeapFile.make DEFAULT_PAGE_SIZE td 0 tt in
    1 <= file_capacity CHAR_SIZE DEFAULT_PAGE_SIZE f0 ->
    Forall (fun t => TupleDesc.compatible td t = Ok true) ts ->
    HeapFile.numPages f0 = 1
    /\ file_insert_all CHAR_SIZE DEFAULT_PAGE_SIZE mem
         (stub_read DEFAULT_PAGE_SIZE) stub_write f0 ts
       = (repeat (Ok tt) (length ts), f0)
    /\ (forall p s : nat,
          HeapPage.empty
            (heap_page CHAR_SIZE DEFAULT_PAGE_SIZE (stub_read DEFAULT_PAGE_SIZE)
               f0 p) s = true).
Proof.
  intros CHAR_SIZE DEFAULT_PAGE_SIZE mem td ts f0 Hcap Hcs.
  split; [|split].
  - unfold f0, HeapFile.make, DbFile.initial_numPages.
    cbn [HeapFile.numPages]. now rewrite Nat.Div0.div_0_l.
  - induction Hcs as [|t r Ht _ IH]; [reflexivity|].
    cbn [file_insert_all length repeat].
    rewrite stub_collaborator_keeps_page_count by assumption.
    now rewrite IH.
  - intros p s. unfold heap_page, stub_read. apply empty_zero_page.
Qed.

(** A new file of records on pages of 4096 bytes, 53 to a page: after 54
    inserts it has one page. *)
Lemma heap_file_never_grows_witness :
  length (repeat sample_record 54)
  = file_capacity 64 4096 (HeapFile.make 4096 record_schema 0 tt) + 1
  /\ file_insert_all 64 4096 zero_memory (stub_read 4096) stub_write
       (HeapFile.make 4096 record_schema 0 tt) (repeat sample_record 54)
     = (repeat (Ok tt) 54, HeapFile.make 4096 record_schema 0 tt)
  /\ HeapFile.numPages (HeapFile.make 4096 record_schema 0 tt) = 1.
Proof.
  assert (Hcap : 1 <= file_capacity 64 4096 (HeapFile.make 4096 record_schema 0 tt))
    by (vm_compute; lia).
  assert (Hcs : Forall (fun t => TupleDesc.compatible record_schema t = Ok true)
                  (repeat sample_record 54))
    by (apply Forall_forall; intros t Ht; apply repeat_spec in Ht; subst t;
        reflexivity).
  destruct (heap_file_never_grows 64 4096 zero_memory record_schema
              (repeat sample_record 54) Hcap Hcs) as (H1 & H2 & _).
  split; [vm_compute; reflexivity|]. split; [|exact H1].
  rewrite H2. now rewrite repeat_length.
Defined.

(** * Further properties of the code *)

(** ** Schemas *)

(** The constructor accepts a list of types and a list of names exactly
    when they have the same length and no name occurs twice; it then
    keeps both lists as they are, and it fails with
    [std::invalid_argument] otherwise. *)
Theorem constructor_accepts :
  forall (types : list type_t) (names : list string),
    match TupleDesc.make types names with
    | Ok td =>
        NoDup names /\ length types = length names
        /\ tupleTypes td = types /\ tupleNames td = names
    | Throw e =>
        e = invalid_argument
        /\ ~ (NoDup names /\ length types = length names)
    end.
Proof.
  intros types names.
  destruct (TupleDesc.make types names) as [td|e] eqn:E.
  - now apply make_inv.
  - split.
    + unfold TupleDesc.make in E.
      destruct (TupleDesc.duplicate_outer names (length names) 0);
        [congruence|].
      destruct (negb (length types =? length names)) eqn:Hl; [congruence|].
      apply negb_false_iff, Nat.eqb_eq in Hl.
      destruct (build_spec types names (length types) 0
                  {| tupleSchema := []; tupleTypes := []; tupleNames := [] |})
        as (td & Eb & _); try lia.
      congruence.
    + intros [Hnd Hlen].
      destruct (make_Ok types names Hnd Hlen) as (td & E' & _). congruence.
Qed.

Lemma index_of_loop_spec (td : TupleDesc) (name : string) (n i : nat) :
  i + n = length (tupleNames td) ->
  match TupleDesc.index_of_loop td name n i with
  | Ok k =>
      i <= k < length (tupleNames td)
      /\ nth_error (tupleNames td) k = Some name
      /\ (forall j, i <= j < k -> nth_error (tupleNames td) j <> Some name)
  | Throw e =>
      e = out_of_range
      /\ (forall j, i <= j -> nth_error (tupleNames td) j <> Some name)
  end.
Proof.
  revert i. induction n as [|n IH]; intros i Hi; cbn [TupleDesc.index_of_loop].
  - split; [reflexivity|]. intros j Hj.
    rewrite (proj2 (nth_error_None (tupleNames td) j)) by lia. discriminate.
  - rewrite (vec_at_lt _ _ i EmptyString) by lia. cbn [bind].
    assert (Hnth : nth_error (tupleNames td) i
                   = Some (nth i (tupleNames td) EmptyString))
      by (apply nth_error_nth'; lia).
    destruct (String.eqb_spec (nth i (tupleNames td) EmptyString) name)
      as [E|Hne].
    + split; [lia|]. split; [congruence|]. intros j Hj. lia.
    + specialize (IH (S i) ltac:(lia)).
      destruct (TupleDesc.index_of_loop td name n (S i)) as [k|e].
      * destruct IH as (Hk & Hat & Hbefore). split; [lia|].
        split; [assumption|]. intros j Hj.
        destruct (Nat.eq_dec j i) as [->|]; [congruence|apply Hbefore; lia].
      * destruct IH as (He & Hnone). split; [assumption|]. intros j Hj.
        destruct (Nat.eq_dec j i) as [->|]; [congruence|apply Hnone; lia].
Qed.

(** [index_of] answers the first index at which the name stands, and fails
    with [std::out_of_range] exactly when the name is not a name of the
    schema. *)
Theorem index_of_first_occurrence :
  forall (td : TupleDesc) (name : string),
    match TupleDesc.index_of td name with
    | Ok k =>
        k < length (tupleNames td)
        /\ nth_error (tupleNames td) k = Some name
        /\ (forall j, j < k -> nth_error (tupleNames td) j <> Some name)
    | Throw e => e = out_of_range /\ ~ In name (tupleNames td)
    end.
Proof.
  intros td name. unfold TupleDesc.index_of.
  pose proof (index_of_loop_spec td name (length (tupleNames td)) 0 eq_refl) as H.
  destruct (TupleDesc.index_of_loop td name (length (tupleNames td)) 0) as [k|e].
  - destruct H as (Hk & Hat & Hbefore). split; [lia|]. split; [assumption|].
    intros j Hj. apply Hbefore. lia.
  - destruct H as (He & Hnone). split; [assumption|]. intros Hin.
    apply In_nth_error in Hin. destruct Hin as (j & Hj).
    apply (Hnone j); [lia|assumption].
Qed.

(** In a schema that the constructor built, the name of the field at an
    index is found at that index. *)
Theorem index_of_field_name :
  forall (types : list type_t) (names : list string) (td : TupleDesc)
         (i : nat),
    TupleDesc.make types names = Ok td ->
    i < TupleDesc.size td ->
    TupleDesc.index_of td (nth i names EmptyString) = Ok i.
Proof.
  intros types names td i E Hi. apply make_inv in E.
  destruct E as (Hnd & Hlen & HT & HN). unfold TupleDesc.size in Hi.
  rewrite HT, Hlen in Hi. unfold TupleDesc.index_of.
  pose proof (index_of_loop_spec td (nth i names EmptyString)
                (length (tupleNames td)) 0 eq_refl) as H.
  rewrite HN in *.
  assert (Hnth : nth_error names i = Some (nth i names EmptyString))
    by (apply nth_error_nth'; lia).
  destruct (TupleDesc.index_of_loop td (nth i names EmptyString) (length names) 0)
    as [k|e].
  - destruct H as (Hk & Hat & _). f_equal.
    apply (proj1 (NoDup_nth_error names) Hnd); [lia|congruence].
  - destruct H as (_ & Hnone). now destruct (Hnone i ltac:(lia)).
Qed.

(** The third field of the record schema. *)
Lemma index_of_field_name_witness :
  TupleDesc.index_of record_schema "weight" = Ok 2.
Proof.
  apply (index_of_field_name [INT; CHAR; DOUBLE]
           ["id"%string; "name"%string; "weight"%string] record_schema 2
           eq_refl).
  vm_compute. lia.
Defined.

Lemma firstn_succ_nth (A : Type) (l : list A) (i : nat) (d : A) :
  i < length l -> firstn (S i) l = firstn i l ++ [nth i l d].
Proof.
  revert i. induction l as [|x r IH]; intros [|i] Hi; simpl in *; try lia.
  - reflexivity.
  - now rewrite <- IH by lia.
Qed.

Lemma combine_snoc (A B : Type) (l : list A) (l' : list B) (a : A) (b : B) :
  length l = length l' ->
  combine (l ++ [a]) (l' ++ [b]) = combine l l' ++ [(a, b)].
Proof.
  revert l'. induction l as [|x r IH]; intros [|y r'] H; simpl in *;
    try discriminate; [reflexivity|].
  now rewrite IH by lia.
Qed.

Lemma build_schema (types : list type_t) (names : list string) (n i : nat)
    (td td' : TupleDesc) :
  NoDup names ->
  i + n <= length names ->
  tupleSchema td = combine (firstn i names) (seq 0 i) ->
  TupleDesc.build types names n i td = Ok td' ->
  tupleSchema td' = combine (firstn (i + n) names) (seq 0 (i + n)).
Proof.
  intros Hnd. revert i td. induction n as [|n IH]; intros i td Hn Hs E.
  - cbn [TupleDesc.build] in E. injection E as <-. now rewrite Nat.add_0_r.
  - cbn [TupleDesc.build] in E.
    destruct (vec_at types i) as [ty|]; [|discriminate].
    destruct (vec_at names i) as [name|]; [|discriminate].
    cbn [bind] in E. apply IH in E; [| lia |].
    + now replace (i + S n) with (S i + n) by lia.
    + cbn [tupleSchema]. unfold schema_insert. rewrite Hs.
      destruct (existsb _ (combine (firstn i names) (seq 0 i))) eqn:Ex.
      * exfalso. apply existsb_exists in Ex. destruct Ex as ([k v] & Hin & Hk).
        cbn [fst] in Hk. apply String.eqb_eq in Hk. subst k.
        apply in_combine_l in Hin.
        rewrite <- (firstn_skipn i names) in Hnd.
        rewrite (skipn_cons_nth _ names i EmptyString) in Hnd by lia.
        apply NoDup_remove_2 in Hnd. apply Hnd. apply in_or_app. now left.
      * rewrite (firstn_succ_nth _ names i EmptyString) by lia.
        rewrite seq_S. cbn [Nat.add]. rewrite combine_snoc; [reflexivity|].
        rewrite length_firstn, length_seq. lia.
Qed.

(** The map from names to indices that the constructor fills agrees with
    the vector of names: it binds a name to an index exactly when
    [index_of] answers that index for the name. *)
Theorem schema_map_agrees_with_index_of :
  forall (types : list type_t) (names : list string) (td : TupleDesc)
         (name : string) (i : nat),
    TupleDesc.make types names = Ok td ->
    (In (name, i) (tupleSchema td) <-> TupleDesc.index_of td name = Ok i).
Proof.
  intros types names td name i E.
  pose proof (make_inv types names td E) as (Hnd & Hlen & HT & HN).
  assert (Hs : tupleSchema td = combine names (seq 0 (length names))).
  { unfold TupleDesc.make in E.
    destruct (TupleDesc.duplicate_outer names (length names) 0); [discriminate|].
    destruct (negb (length types =? length names)); [discriminate|].
    apply (build_schema types names (length types) 0 _ td Hnd) in E;
      [|lia|reflexivity].
    rewrite E. cbn [Nat.add]. rewrite Hlen. now rewrite firstn_all. }
  assert (Hin : In (name, i) (tupleSchema td) <-> nth_error names i = Some name).
  { rewrite Hs. split.
    - intros H. apply (In_nth _ _ (EmptyString, 0)) in H.
      destruct H as (k & Hk & Hnth).
      rewrite length_combine, length_seq, Nat.min_id in Hk.
      rewrite combine_nth in Hnth by now rewrite length_seq.
      rewrite seq_nth in Hnth by assumption. injection Hnth as Hname Hi.
      cbn [Nat.add] in Hi. subst i. rewrite <- Hname.
      now apply nth_error_nth'.
    - intros H.
      assert (Hi : i < length names) by (apply nth_error_Some; congruence).
      replace (name, i)
        with (nth i (combine names (seq 0 (length names))) (EmptyString, 0)).
      + apply nth_In. rewrite length_combine, length_seq, Nat.min_id. exact Hi.
      + rewrite combine_nth by now rewrite length_seq.
        rewrite seq_nth by exact Hi. cbn [Nat.add].
        now rewrite (nth_error_nth _ _ _ H). }
  rewrite Hin.
  pose proof (index_of_loop_spec td name (length (tupleNames td)) 0 eq_refl)
    as Hidx.
  unfold TupleDesc.index_of. rewrite HN in Hidx |- *. split.
  - intros Hat.
    destruct (TupleDesc.index_of_loop td name (length names) 0) as [k|e].
    + destruct Hidx as (Hk & Hatk & _). f_equal.
      apply (proj1 (NoDup_nth_error names) Hnd); [lia|congruence].
    + destruct Hidx as (_ & Hnot). now destruct (Hnot i ltac:(lia)).
  - intros Eidx. rewrite Eidx in Hidx. tauto.
Qed.

(** The binding of the second field of the record schema. *)
Lemma schema_map_agrees_with_index_of_witness :
  In ("name"%string, 1) (tupleSchema record_schema)
  <-> TupleDesc.index_of record_schema "name" = Ok 1.
Proof.
  apply (schema_map_agrees_with_index_of [INT; CHAR; DOUBLE]
           ["id"%string; "name"%string; "weight"%string]).
  reflexivity.
Defined.

Section FieldOffsets.

Variable CHAR_SIZE : nat.

Lemma width_app (l1 l2 : list type_t) :
  width CHAR_SIZE (l1 ++ l2) = width CHAR_SIZE l1 + width CHAR_SIZE l2.
Proof.
  unfold width. rewrite map_app. induction (map _ l1) as [|x r IH]; simpl; lia.
Qed.

(** The fields of a tuple lie one after the other and fill the tuple: the
    offset of the field after field [i] is the offset of field [i] plus
    its width, and the last field ends at [length()]. *)
Theorem offsets_tile_length :
  forall (td : TupleDesc) (i : nat),
    (Z.of_nat (TupleDesc.size td) <= 2 ^ 64)%Z ->
    i < TupleDesc.size td ->
    exists (o : nat) (ty : type_t),
      TupleDesc.offset_of CHAR_SIZE td i = Ok o
      /\ vec_at (tupleTypes td) i = Ok ty
      /\ o + TupleDesc.type_size CHAR_SIZE ty <= TupleDesc.length CHAR_SIZE td
      /\ (S i < TupleDesc.size td ->
          TupleDesc.offset_of CHAR_SIZE td (S i)
          = Ok (o + TupleDesc.type_size CHAR_SIZE ty))
      /\ (S i = TupleDesc.size td ->
          o + TupleDesc.type_size CHAR_SIZE ty = TupleDesc.length CHAR_SIZE td
          /\ TupleDesc.offset_of CHAR_SIZE td (S i) = Throw out_of_range).
Proof.
  intros td i Hsz Hi. unfold TupleDesc.size in *.
  exists (width CHAR_SIZE (firstn i (tupleTypes td))), (nth i (tupleTypes td) INT).
  assert (Hsplit : firstn (S i) (tupleTypes td)
                   = firstn i (tupleTypes td) ++ [nth i (tupleTypes td) INT])
    by (apply firstn_succ_nth; exact Hi).
  assert (Hw : width CHAR_SIZE (firstn (S i) (tupleTypes td))
               = width CHAR_SIZE (firstn i (tupleTypes td))
                 + TupleDesc.type_size CHAR_SIZE (nth i (tupleTypes td) INT)).
  { rewrite Hsplit, width_app. f_equal. unfold width. simpl. lia. }
  assert (Hle : width CHAR_SIZE (firstn (S i) (tupleTypes td))
                <= TupleDesc.length CHAR_SIZE td).
  { rewrite length_width.
    rewrite <- (firstn_skipn (S i) (tupleTypes td)) at 2.
    rewrite width_app. lia. }
  split; [now apply offset_of_in_range|].
  split; [now apply vec_at_lt|]. split; [lia|]. split.
  - intros Hnext. rewrite offset_of_in_range by assumption. now rewrite Hw.
  - intros Hlast. split.
    + rewrite <- Hw, Hlast, firstn_all. now rewrite length_width.
    + apply offset_of_out_of_range; unfold TupleDesc.size; lia.
Qed.

End FieldOffsets.

(** The text field of the record schema starts after the integer. *)
Lemma offsets_tile_length_witness :
  exists (o : nat) (ty : type_t),
    TupleDesc.offset_of 64 record_schema 1 = Ok o
    /\ vec_at (tupleTypes record_schema) 1 = Ok ty
    /\ o + TupleDesc.type_size 64 ty <= TupleDesc.length 64 record_schema
    /\ (2 < TupleDesc.size record_schema ->
        TupleDesc.offset_of 64 record_schema 2
        = Ok (o + TupleDesc.type_size 64 ty))
    /\ (2 = TupleDesc.size record_schema ->
        o + TupleDesc.type_size 64 ty = TupleDesc.length 64 record_schema
        /\ TupleDesc.offset_of 64 record_schema 2 = Throw out_of_range).
Proof.
  apply (offsets_tile_length 64 record_schema 1).
  - vm_compute. discriminate.
  - vm_compute. lia.
Defined.

(** [compatible] never throws, although it reads both vectors with
    [at]: it answers whether the tuple has the fields of the schema, in
    number and in type. *)
Theorem compatible_total :
  forall (td : TupleDesc) (t : Tuple),
    exists b : bool,
      TupleDesc.compatible td t = Ok b
      /\ (b = true <-> map type_of_field (fields t) = tupleTypes td).
Proof.
  intros td t. pose proof (compatible_spec td t) as Hspec.
  unfold TupleDesc.compatible, Tuple.size in *.
  destruct (Nat.eqb_spec (length (fields t)) (length (tupleTypes td)))
    as [Hlen|Hlen]; cbn [negb] in *.
  - rewrite compatible_loop_spec in * by lia.
    eexists. split; [reflexivity|]. rewrite <- Hspec.
    split; [intros ->; reflexivity|congruence].
  - exists false. split; [reflexivity|]. rewrite <- Hspec.
    split; congruence.
Qed.

(** ** The codec, whatever the tuple *)

Lemma skipn_memcpy (buf : list Z) (pos : nat) (src : list Z) (m : nat) :
  pos + length src <= m -> pos + length src <= length buf ->
  skipn m (memcpy buf pos src) = skipn m buf.
Proof.
  intros Hm Hlen. unfold memcpy.
  rewrite skipn_app, length_firstn.
  rewrite (skipn_all2 (firstn pos buf)) by (rewrite length_firstn; lia).
  replace (Nat.min pos (length buf)) with pos by lia. cbn [app].
  rewrite skipn_app, (skipn_all2 src) by lia. cbn [app].
  rewrite skipn_skipn. f_equal. lia.
Qed.

Lemma vec_at_skipn_nil (A : Type) (v : list A) (i : nat) :
  skipn i v = [] -> vec_at v i = @Throw A out_of_range.
Proof.
  intros H. apply vec_at_ge.
  apply (f_equal (@length A)) in H. rewrite length_skipn in H. simpl in H. lia.
Qed.

Section CodecOutcome.

Variable CHAR_SIZE : nat.
Variable mem : Memory.

Lemma serialize_loop_outcome (types : list type_t) (t : Tuple)
    (buf : list Z) (data offset i : nat) :
  fst (TupleDesc.serialize_loop CHAR_SIZE mem types t buf data offset i)
  = serialize_outcome types (skipn i (fields t)).
Proof.
  revert buf offset i.
  induction types as [|ty r IH]; intros buf offset i; [reflexivity|].
  destruct (skipn i (fields t)) as [|f rest] eqn:Hs.
  - apply vec_at_skipn_nil in Hs.
    cbn [TupleDesc.serialize_loop serialize_outcome]. unfold Tuple.get_field.
    destruct ty; rewrite Hs; reflexivity.
  - destruct (vec_at_skipn _ _ _ _ _ Hs) as [Hat Hs'].
    cbn [serialize_outcome].
    destruct (type_eqb (type_of_field f) ty) eqn:Hty.
    + apply type_eqb_eq in Hty.
      rewrite (serialize_loop_step CHAR_SIZE mem ty r t f buf data offset i Hat Hty).
      now rewrite IH, Hs'.
    + cbn [TupleDesc.serialize_loop]. unfold Tuple.get_field.
      destruct ty, f; try discriminate; rewrite Hat; reflexivity.
Qed.

(** Whatever the tuple, and also when it throws, [serialize] changes
    nothing but the [length()] bytes at [data], in a buffer that has room
    for them. *)
Lemma serialize_loop_region (types : list type_t) (t : Tuple)
    (buf : list Z) (data offset i : nat) :
  data + offset + width CHAR_SIZE types <= length buf ->
  let buf' := snd (TupleDesc.serialize_loop CHAR_SIZE mem types t buf data offset i) in
  length buf' = length buf
  /\ firstn (data + offset) buf' = firstn (data + offset) buf
  /\ skipn (data + offset + width CHAR_SIZE types) buf'
     = skipn (data + offset + width CHAR_SIZE types) buf.
Proof.
  revert buf offset i.
  induction types as [|ty r IH]; intros buf offset i Hlen; [now repeat split|].
  rewrite width_cons in *.
  assert (Hstep :
    forall src : list Z,
      length src = TupleDesc.type_size CHAR_SIZE ty ->
      let buf' := snd (TupleDesc.serialize_loop CHAR_SIZE mem r t
                         (memcpy buf (data + offset) src) data
                         (offset + TupleDesc.type_size CHAR_SIZE ty) (S i)) in
      length buf' = length buf
      /\ firstn (data + offset) buf' = firstn (data + offset) buf
      /\ skipn (data + offset
                + (TupleDesc.type_size CHAR_SIZE ty + width CHAR_SIZE r)) buf'
         = skipn (data + offset
                  + (TupleDesc.type_size CHAR_SIZE ty + width CHAR_SIZE r)) buf).
  { intros src Hsrc.
    destruct (IH (memcpy buf (data + offset) src)
                (offset + TupleDesc.type_size CHAR_SIZE ty) (S i))
      as (Hl & Hf & Hk); [rewrite length_memcpy; lia|].
    cbv zeta. rewrite Hl, length_memcpy by lia. split; [reflexivity|]. split.
    - transitivity (firstn (data + offset) (memcpy buf (data + offset) src));
        [|apply firstn_memcpy; lia].
      apply (f_equal (firstn (data + offset))) in Hf.
      rewrite !firstn_firstn in Hf.
      now replace (Nat.min (data + offset)
                     (data + (offset + TupleDesc.type_size CHAR_SIZE ty)))
        with (data + offset) in Hf by lia.
    - replace (data + offset + (TupleDesc.type_size CHAR_SIZE ty + width CHAR_SIZE r))
        with (data + (offset + TupleDesc.type_size CHAR_SIZE ty) + width CHAR_SIZE r)
        by lia.
      rewrite Hk. apply skipn_memcpy; lia. }
  cbn [TupleDesc.serialize_loop].
  destruct ty;
    match goal with
    | |- context [match ?c with Ok _ => _ | Throw _ => _ end] =>
        destruct c; [|now repeat split]
    end;
    apply Hstep;
    match goal with
    | |- length (le_bytes _ _) = _ => apply length_le_bytes
    | |- length (firstn _ (c_str_storage _ _ ?s _)) = _ =>
        apply (length_field_bytes CHAR_SIZE mem i (f_string s))
    end.
Qed.

Lemma serialize_outcome_Ok (types : list type_t) (fs : list field_t) :
  serialize_outcome types fs = Ok tt
  <-> map type_of_field (firstn (length types) fs) = types.
Proof.
  revert fs. induction types as [|ty r IH]; intros fs.
  - split; reflexivity.
  - destruct fs as [|f fs']; cbn [serialize_outcome length firstn map].
    + split; discriminate.
    + destruct (type_eqb (type_of_field f) ty) eqn:Hty.
      * apply type_eqb_eq in Hty. rewrite IH. split.
        -- intros ->. now rewrite Hty.
        -- intros E. now injection E.
      * split; [discriminate|]. intros E. injection E as E _.
        apply type_eqb_eq in E. congruence.
Qed.

(** Whether [serialize], on a buffer that has room for the tuple, returns
    or throws is decided by the types alone, field by field: it returns
    exactly when the tuple starts with fields of the schema's types
    (fields beyond them are ignored), it throws [std::out_of_range] at
    the first field that the tuple lacks and [std::bad_variant_access] at
    the first field of another type. *)
Theorem serialize_outcome_decided :
  forall (td : TupleDesc) (buf : list Z) (pos : nat) (t : Tuple),
    pos + TupleDesc.length CHAR_SIZE td <= length buf ->
    fst (TupleDesc.serialize CHAR_SIZE mem td buf pos t)
    = serialize_outcome (tupleTypes td) (fields t)
    /\ (fst (TupleDesc.serialize CHAR_SIZE mem td buf pos t) = Ok tt
        <-> map type_of_field (firstn (TupleDesc.size td) (fields t))
            = tupleTypes td).
Proof.
  intros td buf pos t _. unfold TupleDesc.serialize, TupleDesc.size.
  rewrite serialize_loop_outcome. cbn [skipn].
  split; [reflexivity|apply serialize_outcome_Ok].
Qed.

(** Whatever the tuple, and also when it throws half way, [serialize]
    changes nothing but the [length()] bytes at [data] of a buffer that
    has room for them. *)
Theorem serialize_touches_only_its_bytes :
  forall (td : TupleDesc) (buf : list Z) (pos : nat) (t : Tuple),
    pos + TupleDesc.length CHAR_SIZE td <= length buf ->
    let buf' := snd (TupleDesc.serialize CHAR_SIZE mem td buf pos t) in
    length buf' = length buf
    /\ firstn pos buf' = firstn pos buf
    /\ skipn (pos + TupleDesc.length CHAR_SIZE td) buf'
       = skipn (pos + TupleDesc.length CHAR_SIZE td) buf.
Proof.
  intros td buf pos t Hlen. rewrite length_width in *.
  unfold TupleDesc.serialize.
  destruct (serialize_loop_region (tupleTypes td) t buf pos 0 0)
    as (Hl & Hf & Hk); [lia|].
  rewrite Nat.add_0_r in Hf, Hk. now repeat split.
Qed.

Lemma read_bytes_sub (buf : list Z) (pos T o w : nat) :
  o + w <= T ->
  read_bytes buf (pos + o) w = firstn w (skipn o (read_bytes buf pos T)).
Proof.
  intros H. unfold read_bytes.
  rewrite skipn_firstn_comm, firstn_firstn, skipn_skipn.
  replace (Nat.min w (T - o)) with w by lia.
  now replace (o + pos) with (pos + o) by lia.
Qed.

Lemma deserialize_loop_local (types : list type_t) (buf buf' : list Z)
    (pos pos' T o : nat) (acc : list field_t) :
  read_bytes buf pos T = read_bytes buf' pos' T ->
  o + width CHAR_SIZE types <= T ->
  TupleDesc.deserialize_loop CHAR_SIZE mem types buf (pos + o) acc
  = TupleDesc.deserialize_loop CHAR_SIZE mem types buf' (pos' + o) acc.
Proof.
  intros HR. revert o acc.
  induction types as [|ty r IH]; intros o acc Ho; [reflexivity|].
  rewrite width_cons in Ho. rewrite !deserialize_loop_step.
  rewrite (read_bytes_sub buf pos T), (read_bytes_sub buf' pos' T), HR by lia.
  replace (pos + o + TupleDesc.type_size CHAR_SIZE ty)
    with (pos + (o + TupleDesc.type_size CHAR_SIZE ty)) by lia.
  replace (pos' + o + TupleDesc.type_size CHAR_SIZE ty)
    with (pos' + (o + TupleDesc.type_size CHAR_SIZE ty)) by lia.
  apply IH. lia.
Qed.

Lemma deserialize_local (td : TupleDesc) (buf buf' : list Z) (pos pos' : nat) :
  read_bytes buf pos (TupleDesc.length CHAR_SIZE td)
  = read_bytes buf' pos' (TupleDesc.length CHAR_SIZE td) ->
  TupleDesc.deserialize CHAR_SIZE mem td buf pos
  = TupleDesc.deserialize CHAR_SIZE mem td buf' pos'.
Proof.
  intros HR. unfold TupleDesc.deserialize. f_equal.
  rewrite <- (Nat.add_0_r pos), <- (Nat.add_0_r pos').
  apply (deserialize_loop_local _ _ _ _ _ (TupleDesc.length CHAR_SIZE td));
    [exact HR|rewrite length_width; lia].
Qed.

End CodecOutcome.

(** A tuple of one field for the schema of three. *)
Lemma serialize_outcome_decided_witness :
  fst (TupleDesc.serialize 64 zero_memory record_schema (repeat 0%Z 100) 0
         (mkTuple [f_int 7]))
  = serialize_outcome (tupleTypes record_schema) (fields (mkTuple [f_int 7])).
Proof.
  assert (H : 0 + TupleDesc.length 64 record_schema <= length (repeat 0%Z 100))
    by (vm_compute; lia).
  exact (proj1 (serialize_outcome_decided 64 zero_memory record_schema
                  (repeat 0%Z 100) 0 (mkTuple [f_int 7]) H)).
Defined.

(** A record schema and a tuple that lacks its last field: the buffer
    around the record is as before. *)
Lemma serialize_touches_only_its_bytes_witness :
  let buf' := snd (TupleDesc.serialize 64 zero_memory record_schema
                     (repeat 7%Z 100) 10 (mkTuple [f_int 1; f_string "ab"])) in
  length buf' = length (repeat 7%Z 100)
  /\ firstn 10 buf' = firstn 10 (repeat 7%Z 100)
  /\ skipn (10 + TupleDesc.length 64 record_schema) buf'
     = skipn (10 + TupleDesc.length 64 record_schema) (repeat 7%Z 100).
Proof.
  apply (serialize_touches_only_its_bytes 64 zero_memory record_schema
           (repeat 7%Z 100) 10 (mkTuple [f_int 1; f_string "ab"])).
  vm_compute. lia.
Defined.

(** ** Pages: cursor protocol, layout, stored tuples *)

Lemma skipn_store_byte (buf : list Z) (k m : nat) (v : Z) :
  k < m -> skipn m (store_byte buf k v) = skipn m buf.
Proof.
  revert k m. induction buf as [|b r IH]; intros [|k] [|m] H; simpl;
    try reflexivity; try lia.
  apply IH. lia.
Qed.

Lemma read_bytes_store_byte (buf : list Z) (k pos n : nat) (v : Z) :
  k < pos -> read_bytes (store_byte buf k v) pos n = read_bytes buf pos n.
Proof. intros H. unfold read_bytes. now rewrite skipn_store_byte. Qed.

Lemma read_bytes_skipn (buf buf' : list Z) (m p n : nat) :
  m <= p -> skipn m buf' = skipn m buf ->
  read_bytes buf' p n = read_bytes buf p n.
Proof.
  intros Hm E. unfold read_bytes.
  replace p with ((p - m) + m) by lia. now rewrite <- !skipn_skipn, E.
Qed.

(** The page cursor protocol, where the header bytes that the loops test
    lie in the page.  [begin()] is the smallest occupied slot, or the
    capacity when the page holds nothing.  [next] from a slot below the
    capacity is the next occupied slot after it, or the capacity; from
    the capacity on, [next] is one more than its argument: it steps past
    the end of the page. *)
Theorem page_cursor_protocol :
  forall (hp : HeapPage.t) (s : nat),
    let cap := HeapPage.capacity hp in
    let b := HeapPage.begin hp in
    let r := HeapPage.next hp s in
    HeapPage.header hp + Nat.max cap (s + 1) / 8 < length (HeapPage.page hp) ->
    (b <= cap
     /\ (forall j, j < b -> HeapPage.empty hp j = true)
     /\ (b < cap -> HeapPage.empty hp b = false))
    /\ (s < cap ->
        s < r <= cap
        /\ (forall j, s < j < r -> HeapPage.empty hp j = true)
        /\ (r < cap -> HeapPage.empty hp r = false))
    /\ (cap <= s -> r = s + 1).
Proof.
  intros hp s cap b r _. split; [|split].
  - destruct (first_occupied_spec hp 0) as (Hb & He & Ho); [lia|].
    fold cap in Hb, He, Ho. unfold b, HeapPage.begin. fold cap.
    split; [lia|]. split; [|exact Ho]. intros j Hj. apply He. lia.
  - intros Hs. unfold r, HeapPage.next. rewrite next_loop_begin_loop, Nat.add_1_r.
    destruct (first_occupied_spec hp (S s)) as (Hb & He & Ho); [fold cap; lia|].
    fold cap in Hb, He, Ho. fold cap.
    split; [lia|]. split; [|exact Ho]. intros j Hj. apply He. lia.
  - intros Hs. unfold r, HeapPage.next.
    assert (Hstop : forall n x, cap <= x -> HeapPage.next_loop hp n x = x).
    { intros [|n] x Hx; cbn [HeapPage.next_loop]; [reflexivity|].
      fold cap. rewrite (proj2 (Nat.ltb_ge x cap)) by exact Hx.
      now rewrite andb_false_r. }
    apply Hstop. lia.
Qed.

(** A cursor beyond the 53 slots of the page that holds one record. *)
Lemma page_cursor_protocol_witness :
  HeapPage.next (HeapPage.make 64 4096 one_record_page record_schema) 60
  = 60 + 1.
Proof.
  assert (H60 : HeapPage.header (HeapPage.make 64 4096 one_record_page record_schema)
                + Nat.max
                    (HeapPage.capacity
                       (HeapPage.make 64 4096 one_record_page record_schema))
                    (60 + 1) / 8
                < length (HeapPage.page
                            (HeapPage.make 64 4096 one_record_page record_schema)))
    by (vm_compute; lia).
  apply (page_cursor_protocol
           (HeapPage.make 64 4096 one_record_page record_schema) 60 H60).
  vm_compute. lia.
Defined.

Section PageTuples.

Variable CHAR_SIZE : nat.
Variable DEFAULT_PAGE_SIZE : nat.
Variable mem : Memory.

(** The slots of a page do not overlap, lie inside the page, and lie
    after every header bit that is in use. *)
Theorem slots_apart :
  forall (pg : Page) (td : TupleDesc) (s s' : nat),
    let hp := HeapPage.make CHAR_SIZE DEFAULT_PAGE_SIZE pg td in
    let T := TupleDesc.length CHAR_SIZE td in
    s < s' -> s' < HeapPage.capacity hp ->
    HeapPage.header hp + s' / 8 < HeapPage.data hp
    /\ HeapPage.data hp + s * T + T <= HeapPage.data hp + s' * T
    /\ HeapPage.data hp + s' * T + T <= DEFAULT_PAGE_SIZE.
Proof.
  intros pg td s s' hp T Hs Hs'.
  destruct (slot_in_page CHAR_SIZE DEFAULT_PAGE_SIZE pg td s' Hs') as [Hh Hd].
  fold hp T in Hh, Hd. split; [exact Hh|]. split; [nia|exact Hd].
Qed.

(** The tuple that [getTuple] reads from a slot is decided by the bytes
    of the slot. *)
Lemma getTuple_local (pg pg' : Page) (td : TupleDesc) (j : nat) :
  let hp := HeapPage.make CHAR_SIZE DEFAULT_PAGE_SIZE pg td in
  let T := TupleDesc.length CHAR_SIZE td in
  read_bytes pg' (HeapPage.data hp + j * T) T
  = read_bytes pg (HeapPage.data hp + j * T) T ->
  HeapPage.getTuple CHAR_SIZE mem
    (HeapPage.make CHAR_SIZE DEFAULT_PAGE_SIZE pg' td) j
  = HeapPage.getTuple CHAR_SIZE mem hp j.
Proof.
  intros hp T H. unfold HeapPage.getTuple.
  now apply deserialize_local.
Qed.

(** The page that [insertTuple] leaves, slot by slot. *)
Lemma insertTuple_slots (pg : Page) (td : TupleDesc) (tup : Tuple) :
  let hp := HeapPage.make CHAR_SIZE DEFAULT_PAGE_SIZE pg td in
  let T := TupleDesc.length CHAR_SIZE td in
  let s := HeapPage.insert_loop hp (HeapPage.capacity hp) 0 in
  length pg = DEFAULT_PAGE_SIZE ->
  TupleDesc.compatible td tup = Ok true ->
  s < HeapPage.capacity hp ->
  exists (pg' buf : Page),
    HeapPage.insertTuple CHAR_SIZE mem hp tup
    = (Ok true, HeapPage.make CHAR_SIZE DEFAULT_PAGE_SIZE pg' td)
    /\ length pg' = DEFAULT_PAGE_SIZE
    /\ TupleDesc.serialize CHAR_SIZE mem td pg (HeapPage.data hp + s * T) tup
       = (Ok tt, buf)
    /\ read_bytes pg' (HeapPage.data hp + s * T) T
       = read_bytes buf (HeapPage.data hp + s * T) T
    /\ (forall j, j < HeapPage.capacity hp -> j <> s ->
          read_bytes pg' (HeapPage.data hp + j * T) T
          = read_bytes pg (HeapPage.data hp + j * T) T).
Proof.
  intros hp T s Hlen Hc Hs.
  destruct (insertTuple_spec CHAR_SIZE DEFAULT_PAGE_SIZE mem pg td tup Hlen Hc Hs)
    as (buf & Es & Hl & Hfirst & Ei).
  fold hp T s in Es, Hfirst, Ei.
  destruct (slot_in_page CHAR_SIZE DEFAULT_PAGE_SIZE pg td s Hs) as [Hh Hd].
  fold hp T in Hh, Hd. change (HeapPage.header hp) with 0 in Hh.
  rewrite Nat.add_0_l in Hh.
  pose proof (serialize_touches_only_its_bytes_aux := serialize_loop_region
                CHAR_SIZE mem (tupleTypes td) tup pg (HeapPage.data hp + s * T) 0 0).
  rewrite <- length_width in serialize_touches_only_its_bytes_aux.
  fold T in serialize_touches_only_its_bytes_aux.
  destruct serialize_touches_only_its_bytes_aux as (_ & _ & Hk); [lia|].
  unfold TupleDesc.serialize in Es. rewrite Es in Hk. cbn [snd] in Hk.
  rewrite Nat.add_0_r in Hk.
  exists (store_byte buf (s / 8) (header_byte_set buf 0 s)), buf.
  split; [exact Ei|]. split; [now rewrite length_store_byte|].
  split; [exact Es|]. split.
  - apply read_bytes_store_byte. lia.
  - intros j Hj Hne. rewrite read_bytes_store_byte by lia.
    destruct (Nat.lt_trichotomy j s) as [Hlt|[Heq|Hgt]]; [|contradiction|].
    + apply (read_bytes_firstn pg buf _ _ (HeapPage.data hp + s * T));
        [nia|exact Hfirst].
    + apply (read_bytes_skipn pg buf (HeapPage.data hp + s * T + T));
        [nia|exact Hk].
Qed.

End PageTuples.

Section PageStore.

Variable CHAR_SIZE : nat.
Variable DEFAULT_PAGE_SIZE : nat.
Variable mem : Memory.

(** What [insertTuple] answers true for: the slot is below the capacity,
    its header bit is set, and a tuple that the codec carries over is
    read back from it. *)
Lemma insertTuple_reads_back (mem' : Memory) (pg : Page) (td : TupleDesc)
    (tup : Tuple) (hp' : HeapPage.t) :
  let hp := HeapPage.make CHAR_SIZE DEFAULT_PAGE_SIZE pg td in
  let s := HeapPage.insert_loop hp (HeapPage.capacity hp) 0 in
  length pg = DEFAULT_PAGE_SIZE ->
  TupleDesc.compatible td tup = Ok true ->
  HeapPage.insertTuple CHAR_SIZE mem hp tup = (Ok true, hp') ->
  s < HeapPage.capacity hp
  /\ HeapPage.empty hp' s = false
  /\ (tuple_valid tup = true ->
      forallb (text_fits CHAR_SIZE) (fields tup) = true ->
      HeapPage.getTuple CHAR_SIZE mem' hp' s = tup).
Proof.
  intros hp s Hlen Hc Ei.
  assert (Hs : s < HeapPage.capacity hp).
  { destruct (insert_slot_spec hp) as (Hle & _ & _). fold s in Hle.
    destruct (Nat.eq_dec s (HeapPage.capacity hp)) as [E|]; [|lia].
    rewrite (insertTuple_full CHAR_SIZE mem hp tup E) in Ei. discriminate. }
  split; [exact Hs|].
  destruct (insertTuple_slots CHAR_SIZE DEFAULT_PAGE_SIZE mem pg td tup Hlen Hc Hs)
    as (pg' & buf & Ei' & Hl & Es & Hread & _).
  fold hp s in Ei', Es, Hread. rewrite Ei' in Ei. injection Ei as <-.
  destruct (insertTuple_spec CHAR_SIZE DEFAULT_PAGE_SIZE mem pg td tup Hlen Hc Hs)
    as (buf0 & Es0 & Hl0 & Hfirst & Ei0).
  fold hp s in Es0, Hfirst, Ei0. rewrite Es in Es0. injection Es0 as <-.
  rewrite Ei' in Ei0. apply (f_equal snd) in Ei0. cbn [snd] in Ei0.
  split.
  - rewrite Ei0.
    rewrite (insertTuple_header CHAR_SIZE DEFAULT_PAGE_SIZE pg buf td s s
               Hlen Hl0 Hfirst Hs Hs).
    now rewrite Nat.eqb_refl.
  - intros Hv Ht.
    destruct (slot_in_page CHAR_SIZE DEFAULT_PAGE_SIZE pg td s Hs) as [_ Hd].
    fold hp in Hd.
    transitivity (TupleDesc.deserialize CHAR_SIZE mem' td buf
                    (HeapPage.data hp + s * TupleDesc.length CHAR_SIZE td)).
    + unfold HeapPage.getTuple. cbn [HeapPage.td HeapPage.page HeapPage.data
                                      HeapPage.make].
      apply deserialize_local. exact Hread.
    + apply compatible_spec in Hc.
      unfold TupleDesc.deserialize, TupleDesc.serialize in *.
      replace (HeapPage.data hp + s * TupleDesc.length CHAR_SIZE td)
        with (HeapPage.data hp + s * TupleDesc.length CHAR_SIZE td + 0) at 1 by lia.
      rewrite (roundtrip_loop CHAR_SIZE mem mem' (tupleTypes td) tup pg buf
                 (HeapPage.data hp + s * TupleDesc.length CHAR_SIZE td) 0 0 []);
        try assumption.
      * now destruct tup.
      * rewrite <- length_width. lia.
Qed.

(** A compatible tuple whose numbers are in range and whose texts are
    shorter than the fixed width and hold no NUL character is read back
    by [getTuple], whatever lies in memory, from the slot that
    [insertTuple] put it in; the slot is occupied, and [begin()] of the
    page is at or before it. *)
Theorem page_insert_then_get :
  forall (mem' : Memory) (pg : Page) (td : TupleDesc) (tup : Tuple)
         (hp' : HeapPage.t),
    let hp := HeapPage.make CHAR_SIZE DEFAULT_PAGE_SIZE pg td in
    let s := HeapPage.insert_loop hp (HeapPage.capacity hp) 0 in
    length pg = DEFAULT_PAGE_SIZE ->
    TupleDesc.compatible td tup = Ok true ->
    tuple_valid tup = true ->
    forallb (text_fits CHAR_SIZE) (fields tup) = true ->
    HeapPage.insertTuple CHAR_SIZE mem hp tup = (Ok true, hp') ->
    HeapPage.empty hp' s = false
    /\ HeapPage.getTuple CHAR_SIZE mem' hp' s = tup
    /\ HeapPage.begin hp' <= s.
Proof.
  intros mem' pg td tup hp' hp s Hlen Hc Hv Ht Ei.
  destruct (insertTuple_reads_back mem' pg td tup hp' Hlen Hc Ei)
    as (Hs & He & Hget).
  fold hp s in Hs, He, Hget.
  split; [exact He|]. split; [now apply Hget|].
  assert (Hcap : HeapPage.capacity hp' = HeapPage.capacity hp).
  { unfold HeapPage.insertTuple in Ei. fold s in Ei.
    destruct (s =? HeapPage.capacity hp); [discriminate|].
    destruct (TupleDesc.serialize _ _ _ _ _ _) as [[u|e] buf]; [|discriminate].
    apply (f_equal snd) in Ei. cbn [snd] in Ei. now subst hp'. }
  destruct (first_occupied_spec hp' 0) as (_ & Hempty & _); [lia|].
  rewrite Hcap in Hempty. unfold HeapPage.begin. rewrite Hcap.
  destruct (Nat.le_gt_cases (HeapPage.begin_loop hp' (HeapPage.capacity hp) 0) s)
    as [|Hgt]; [assumption|].
  rewrite Hempty in He by lia. discriminate.
Qed.

(** [insertTuple] leaves the tuples of the other slots as they are. *)
Theorem page_insert_keeps_other_tuples :
  forall (mem' : Memory) (pg : Page) (td : TupleDesc) (tup : Tuple)
         (hp' : HeapPage.t) (j : nat),
    let hp := HeapPage.make CHAR_SIZE DEFAULT_PAGE_SIZE pg td in
    let s := HeapPage.insert_loop hp (HeapPage.capacity hp) 0 in
    length pg = DEFAULT_PAGE_SIZE ->
    TupleDesc.compatible td tup = Ok true ->
    HeapPage.insertTuple CHAR_SIZE mem hp tup = (Ok true, hp') ->
    j < HeapPage.capacity hp -> j <> s ->
    HeapPage.getTuple CHAR_SIZE mem' hp' j = HeapPage.getTuple CHAR_SIZE mem' hp j
    /\ HeapPage.empty hp' j = HeapPage.empty hp j.
Proof.
  intros mem' pg td tup hp' j hp s Hlen Hc Ei Hj Hne.
  assert (Hs : s < HeapPage.capacity hp).
  { destruct (insert_slot_spec hp) as (Hle & _ & _). fold s in Hle.
    destruct (Nat.eq_dec s (HeapPage.capacity hp)) as [E|]; [|lia].
    rewrite (insertTuple_full CHAR_SIZE mem hp tup E) in Ei. discriminate. }
  destruct (insertTuple_slots CHAR_SIZE DEFAULT_PAGE_SIZE mem pg td tup Hlen Hc Hs)
    as (pg' & buf & Ei' & Hl & Es & _ & Hothers).
  fold hp s in Ei', Es, Hothers. rewrite Ei' in Ei. injection Ei as <-.
  split.
  - apply getTuple_local. apply Hothers; assumption.
  - destruct (insertTuple_spec CHAR_SIZE DEFAULT_PAGE_SIZE mem pg td tup Hlen Hc Hs)
      as (buf0 & Es0 & Hl0 & Hfirst & Ei0).
    fold hp s in Es0, Hfirst, Ei0. rewrite Ei' in Ei0.
    apply (f_equal snd) in Ei0. cbn [snd] in Ei0. rewrite Ei0.
    rewrite (insertTuple_header CHAR_SIZE DEFAULT_PAGE_SIZE pg buf0 td s j
               Hlen Hl0 Hfirst Hs Hj).
    destruct (Nat.eqb_spec j s); [contradiction|reflexivity].
Qed.

(** The page that [deleteTuple] leaves. *)
Lemma deleteTuple_page (pg : Page) (td : TupleDesc) (i : nat) (hp' : HeapPage.t) :
  let hp := HeapPage.make CHAR_SIZE DEFAULT_PAGE_SIZE pg td in
  HeapPage.deleteTuple hp i = (Ok tt, hp') ->
  exists v : Z,
    hp' = HeapPage.make CHAR_SIZE DEFAULT_PAGE_SIZE (store_byte pg (i / 8) v) td.
Proof.
  intros hp E. unfold HeapPage.deleteTuple in E.
  destruct (HeapPage.empty hp i); [discriminate|].
  apply (f_equal snd) in E. cbn [snd] in E. subst hp'.
  eexists. reflexivity.
Qed.

(** [deleteTuple] of a slot below the capacity clears the header bit and
    nothing else: every slot of the page still reads the tuple it read
    before, the deleted one too, and the other slots are occupied or
    empty as before. *)
Theorem page_delete_keeps_tuples :
  forall (pg : Page) (td : TupleDesc) (i : nat) (hp' : HeapPage.t),
    let hp := HeapPage.make CHAR_SIZE DEFAULT_PAGE_SIZE pg td in
    i < HeapPage.capacity hp ->
    HeapPage.deleteTuple hp i = (Ok tt, hp') ->
    HeapPage.capacity hp' = HeapPage.capacity hp
    /\ (forall j, j < HeapPage.capacity hp ->
                  HeapPage.getTuple CHAR_SIZE mem hp' j
                  = HeapPage.getTuple CHAR_SIZE mem hp j)
    /\ (forall j, j < HeapPage.capacity hp -> j <> i ->
                  HeapPage.empty hp' j = HeapPage.empty hp j).
Proof.
  intros pg td i hp' hp Hi E.
  destruct (deleteTuple_occupied hp hp' i E) as (_ & _ & Hothers).
  destruct (deleteTuple_page pg td i hp' E) as (v & ->).
  destruct (slot_in_page CHAR_SIZE DEFAULT_PAGE_SIZE pg td i Hi) as [Hh _].
  fold hp in Hh. change (HeapPage.header hp) with 0 in Hh.
  rewrite Nat.add_0_l in Hh.
  split; [reflexivity|]. split; [|intros j _; apply Hothers].
  intros j _. apply getTuple_local. apply read_bytes_store_byte.
  fold hp. lia.
Qed.

(** After a delete, the next insert takes the freed slot unless a
    smaller slot is empty: the slot it picks is the smaller of the two.
    The header bytes that the search tests lie in the page. *)
Theorem page_delete_frees_slot :
  forall (hp hp' : HeapPage.t) (i : nat),
    HeapPage.header hp + HeapPage.capacity hp / 8 < length (HeapPage.page hp) ->
    i < HeapPage.capacity hp ->
    HeapPage.deleteTuple hp i = (Ok tt, hp') ->
    HeapPage.insert_loop hp' (HeapPage.capacity hp') 0
    = Nat.min i (HeapPage.insert_loop hp (HeapPage.capacity hp) 0).
Proof.
  intros hp hp' i _ Hi E.
  destruct (deleteTuple_occupied hp hp' i E) as (Hocc & Hempty & Hothers).
  assert (Hcap : HeapPage.capacity hp' = HeapPage.capacity hp).
  { unfold HeapPage.deleteTuple in E.
    destruct (HeapPage.empty hp i); [discriminate|].
    apply (f_equal snd) in E. cbn [snd] in E. now subst hp'. }
  destruct (insert_slot_spec hp) as (Hle & Hbefore & Hat).
  set (s := HeapPage.insert_loop hp (HeapPage.capacity hp) 0) in *.
  apply insert_slot_unique; rewrite ?Hcap.
  - lia.
  - intros j Hj. rewrite Hothers by lia. apply Hbefore. lia.
  - intros Hlt. destruct (Nat.le_gt_cases i s) as [His|His].
    + now replace (Nat.min i s) with i by lia.
    + replace (Nat.min i s) with s by lia.
      rewrite Hothers by lia. apply Hat. lia.
Qed.

End PageStore.

(** Slots 3 and 5 of a page of records. *)
Lemma slots_apart_witness :
  let hp := HeapPage.make 64 4096 (repeat 0%Z 4096) record_schema in
  let T := TupleDesc.length 64 record_schema in
  HeapPage.header hp + 5 / 8 < HeapPage.data hp
  /\ HeapPage.data hp + 3 * T + T <= HeapPage.data hp + 5 * T
  /\ HeapPage.data hp + 5 * T + T <= 4096.
Proof.
  apply (slots_apart 64 4096 (repeat 0%Z 4096) record_schema 3 5).
  - lia.
  - vm_compute. lia.
Defined.

(** A second record in the page that holds one. *)
Lemma page_insert_then_get_witness :
  HeapPage.getTuple 64 zero_memory
    (snd (HeapPage.insertTuple 64 (memory_of "x")
            (HeapPage.make 64 4096 one_record_page record_schema)
            (mkTuple [f_int (-1); f_string "cd"; f_double 1])))
    (HeapPage.insert_loop
       (HeapPage.make 64 4096 one_record_page record_schema)
       (HeapPage.capacity (HeapPage.make 64 4096 one_record_page record_schema))
       0)
  = mkTuple [f_int (-1); f_string "cd"; f_double 1].
Proof.
  assert (Hlen : length one_record_page = 4096) by (vm_compute; reflexivity).
  assert (Hins : HeapPage.insertTuple 64 (memory_of "x")
                   (HeapPage.make 64 4096 one_record_page record_schema)
                   (mkTuple [f_int (-1); f_string "cd"; f_double 1])
                 = (Ok true,
                    snd (HeapPage.insertTuple 64 (memory_of "x")
                           (HeapPage.make 64 4096 one_record_page record_schema)
                           (mkTuple [f_int (-1); f_string "cd"; f_double 1]))))
    by (vm_compute; reflexivity).
  apply (page_insert_then_get 64 4096 (memory_of "x") zero_memory one_record_page
           record_schema (mkTuple [f_int (-1); f_string "cd"; f_double 1]) _
           Hlen eq_refl eq_refl eq_refl Hins).
Defined.

(** The first record is still in slot 0 after the second went in. *)
Lemma page_insert_keeps_other_tuples_witness :
  HeapPage.getTuple 64 zero_memory
    (snd (HeapPage.insertTuple 64 (memory_of "x")
            (HeapPage.make 64 4096 one_record_page record_schema)
            (mkTuple [f_int (-1); f_string "cd"; f_double 1]))) 0
  = HeapPage.getTuple 64 zero_memory
      (HeapPage.make 64 4096 one_record_page record_schema) 0.
Proof.
  assert (Hlen : length one_record_page = 4096) by (vm_compute; reflexivity).
  assert (Hins : HeapPage.insertTuple 64 (memory_of "x")
                   (HeapPage.make 64 4096 one_record_page record_schema)
                   (mkTuple [f_int (-1); f_string "cd"; f_double 1])
                 = (Ok true,
                    snd (HeapPage.insertTuple 64 (memory_of "x")
                           (HeapPage.make 64 4096 one_record_page record_schema)
                           (mkTuple [f_int (-1); f_string "cd"; f_double 1]))))
    by (vm_compute; reflexivity).
  assert (Hj : 0 < HeapPage.capacity
                     (HeapPage.make 64 4096 one_record_page record_schema))
    by (vm_compute; lia).
  assert (Hne : 0 <> HeapPage.insert_loop
                       (HeapPage.make 64 4096 one_record_page record_schema)
                       (HeapPage.capacity
                          (HeapPage.make 64 4096 one_record_page record_schema)) 0)
    by (vm_compute; discriminate).
  apply (page_insert_keeps_other_tuples 64 4096 (memory_of "x") zero_memory
           one_record_page record_schema
           (mkTuple [f_int (-1); f_string "cd"; f_double 1]) _ 0
           Hlen eq_refl Hins Hj Hne).
Defined.

(** The record of slot 0 is still read after the slot was deleted. *)
Lemma page_delete_keeps_tuples_witness :
  HeapPage.getTuple 64 zero_memory
    (snd (HeapPage.deleteTuple
            (HeapPage.make 64 4096 one_record_page record_schema) 0)) 0
  = HeapPage.getTuple 64 zero_memory
      (HeapPage.make 64 4096 one_record_page record_schema) 0.
Proof.
  assert (Hi : 0 < HeapPage.capacity
                     (HeapPage.make 64 4096 one_record_page record_schema))
    by (vm_compute; lia).
  assert (Hdel : HeapPage.deleteTuple
                   (HeapPage.make 64 4096 one_record_page record_schema) 0
                 = (Ok tt,
                    snd (HeapPage.deleteTuple
                           (HeapPage.make 64 4096 one_record_page record_schema) 0)))
    by (vm_compute; reflexivity).
  apply (page_delete_keeps_tuples 64 4096 zero_memory one_record_page
           record_schema 0 _ Hi Hdel).
  exact Hi.
Defined.

(** Slot 0 is taken again by the insert that follows its delete. *)
Lemma page_delete_frees_slot_witness :
  HeapPage.insert_loop
    (snd (HeapPage.deleteTuple
            (HeapPage.make 64 4096 one_record_page record_schema) 0))
    (HeapPage.capacity
       (snd (HeapPage.deleteTuple
               (HeapPage.make 64 4096 one_record_page record_schema) 0))) 0
  = Nat.min 0
      (HeapPage.insert_loop
         (HeapPage.make 64 4096 one_record_page record_schema)
         (HeapPage.capacity
            (HeapPage.make 64 4096 one_record_page record_schema)) 0).
Proof.
  assert (Hi : 0 < HeapPage.capacity
                     (HeapPage.make 64 4096 one_record_page record_schema))
    by (vm_compute; lia).
  assert (Hdel : HeapPage.deleteTuple
                   (HeapPage.make 64 4096 one_record_page record_schema) 0
                 = (Ok tt,
                    snd (HeapPage.deleteTuple
                           (HeapPage.make 64 4096 one_record_page record_schema) 0)))
    by (vm_compute; reflexivity).
  assert (Hin : HeapPage.header
                  (HeapPage.make 64 4096 one_record_page record_schema)
                + HeapPage.capacity
                    (HeapPage.make 64 4096 one_record_page record_schema) / 8
                < length (HeapPage.page
                            (HeapPage.make 64 4096 one_record_page record_schema)))
    by (vm_compute; lia).
  apply (page_delete_frees_slot _ _ 0 Hin Hi Hdel).
Defined.

(** ** Heap files: the page that is handed to the collaborator *)

Section FileStore.

Variable CHAR_SIZE : nat.
Variable DEFAULT_PAGE_SIZE : nat.
Variable mem : Memory.
Variable Store : Type.
Variable readPage : Store -> nat -> Page.
Variable writePage : Store -> Page -> nat -> Store.

(** Whatever the collaborator does: the insert of a tuple that the codec
    carries over (compatible, numbers in range, texts shorter than the
    fixed width and without a NUL character), into a file whose tuples
    take one byte or more and whose pages hold one tuple or more,
    returns, and calls [writePage] once, at the last index, with a page
    of which an occupied slot reads the tuple; when the last page, as
    [readPage] gave it, is full, the page count grows by one and that
    slot is slot 0. *)
Theorem file_insert_writes_tuple :
  forall (mem' : Memory) (f : HeapFile.t Store) (tup : Tuple),
    1 <= HeapFile.numPages f ->
    1 <= file_capacity CHAR_SIZE DEFAULT_PAGE_SIZE f ->
    1 <= TupleDesc.length CHAR_SIZE (HeapFile.td f) ->
    length (readPage (HeapFile.store f) (HeapFile.numPages f - 1))
    = DEFAULT_PAGE_SIZE ->
    TupleDesc.compatible (HeapFile.td f) tup = Ok true ->
    tuple_valid tup = true ->
    forallb (text_fits CHAR_SIZE) (fields tup) = true ->
    let full :=
      page_full (heap_page CHAR_SIZE DEFAULT_PAGE_SIZE readPage f
                   (HeapFile.numPages f - 1)) in
    let n' := HeapFile.numPages f + (if full then 1 else 0) in
    exists (pg' : Page) (s : nat),
      HeapFile.insertTuple CHAR_SIZE DEFAULT_PAGE_SIZE mem readPage writePage f tup
      = (Ok tt,
         HeapFile.mk (HeapFile.td f) n'
           (writePage (HeapFile.store f) pg' (n' - 1)))
      /\ length pg' = DEFAULT_PAGE_SIZE
      /\ s < file_capacity CHAR_SIZE DEFAULT_PAGE_SIZE f
      /\ (full = true -> s = 0)
      /\ HeapPage.empty
           (HeapPage.make CHAR_SIZE DEFAULT_PAGE_SIZE pg' (HeapFile.td f)) s
         = false
      /\ HeapPage.getTuple CHAR_SIZE mem'
           (HeapPage.make CHAR_SIZE DEFAULT_PAGE_SIZE pg' (HeapFile.td f)) s
         = tup.
Proof.
  intros mem' f tup _ Hcap _ Hlen Hc Hv Ht full n'.
  set (last := HeapFile.numPages f - 1) in *.
  set (hp := heap_page CHAR_SIZE DEFAULT_PAGE_SIZE readPage f last) in *.
  destruct (page_full hp) eqn:Hfull; subst full n'.
  - destruct (file_insert_full CHAR_SIZE DEFAULT_PAGE_SIZE mem Store readPage
                writePage f tup Hcap Hc Hfull)
      as (pg' & E & Ei & Hl & Hs0 & _).
    destruct (insertTuple_reads_back CHAR_SIZE DEFAULT_PAGE_SIZE mem mem'
                (repeat 0%Z DEFAULT_PAGE_SIZE) (HeapFile.td f) tup _
                (repeat_length _ _) Hc Ei) as (Hs & He & Hget).
    rewrite Hs0 in Hs, He, Hget.
    exists pg', 0. split; [exact E|]. split; [exact Hl|].
    split; [exact Hs|]. split; [reflexivity|]. split; [exact He|].
    now apply Hget.
  - destruct (file_insert_room CHAR_SIZE DEFAULT_PAGE_SIZE mem Store readPage
                writePage f tup Hlen Hc Hfull)
      as (pg' & E & Ei & Hl).
    destruct (insertTuple_reads_back CHAR_SIZE DEFAULT_PAGE_SIZE mem mem'
                (readPage (HeapFile.store f) last) (HeapFile.td f) tup _
                Hlen Hc Ei) as (Hs & He & Hget).
    eexists pg', _. rewrite Nat.add_0_r. split; [exact E|].
    split; [exact Hl|]. split; [exact Hs|]. split; [discriminate|].
    split; [exact He|]. now apply Hget.
Qed.

(** Whatever the collaborator does: the delete of a cursor whose slot is
    not empty in the page that [readPage] gave returns, leaves the page
    count and the schema, and calls [writePage] once, at the cursor's
    page index, with that page changed in one header bit: the slot is
    empty in it, the other slots are occupied or empty as they were,
    and, the slot being below the capacity, every slot reads the tuple
    it read before. *)
Theorem file_delete_writes_page :
  forall (f : HeapFile.t Store) (c : Iterator.t),
    let cap := file_capacity CHAR_SIZE DEFAULT_PAGE_SIZE f in
    let hp := heap_page CHAR_SIZE DEFAULT_PAGE_SIZE readPage f (Iterator.page c) in
    HeapPage.empty hp (Iterator.slot c) = false ->
    exists pg' : Page,
      HeapFile.deleteTuple CHAR_SIZE DEFAULT_PAGE_SIZE readPage writePage f c
      = (Ok tt,
         HeapFile.mk (HeapFile.td f) (HeapFile.numPages f)
           (writePage (HeapFile.store f) pg' (Iterator.page c)))
      /\ length pg' = length (readPage (HeapFile.store f) (Iterator.page c))
      /\ HeapPage.empty
           (HeapPage.make CHAR_SIZE DEFAULT_PAGE_SIZE pg' (HeapFile.td f))
           (Iterator.slot c) = true
      /\ (forall j, j < cap -> j <> Iterator.slot c ->
            HeapPage.empty
              (HeapPage.make CHAR_SIZE DEFAULT_PAGE_SIZE pg' (HeapFile.td f)) j
            = HeapPage.empty hp j)
      /\ (Iterator.slot c < cap ->
          forall j, j < cap ->
            HeapPage.getTuple CHAR_SIZE mem
              (HeapPage.make CHAR_SIZE DEFAULT_PAGE_SIZE pg' (HeapFile.td f)) j
            = HeapPage.getTuple CHAR_SIZE mem hp j).
Proof.
  intros f [cp cs] cap hp He. cbn [Iterator.page Iterator.slot] in *.
  set (pg := readPage (HeapFile.store f) cp) in *.
  destruct (deleteTuple_succeeds hp cs He) as (hp' & Ed & _ & _).
  destruct (deleteTuple_occupied hp hp' cs Ed) as (_ & Hempty & Hothers).
  destruct (deleteTuple_page CHAR_SIZE DEFAULT_PAGE_SIZE pg (HeapFile.td f) cs hp' Ed)
    as (v & Ehp').
  exists (store_byte pg (cs / 8) v). rewrite <- Ehp'.
  split; [|split; [|split; [|split]]].
  - unfold HeapFile.deleteTuple. cbn [Iterator.page Iterator.slot].
    fold pg.
    change (HeapPage.make CHAR_SIZE DEFAULT_PAGE_SIZE pg (HeapFile.td f)) with hp.
    rewrite Ed, Ehp'. reflexivity.
  - apply length_store_byte.
  - exact Hempty.
  - intros j _ Hj. now apply Hothers.
  - intros Hcs j _. rewrite Ehp'. apply getTuple_local.
    apply read_bytes_store_byte.
    destruct (slot_in_page CHAR_SIZE DEFAULT_PAGE_SIZE pg (HeapFile.td f) cs Hcs)
      as [Hh _].
    change (HeapPage.header _) with 0 in Hh. rewrite Nat.add_0_l in Hh.
    fold pg. lia.
Qed.

End FileStore.

(** An insert into a new file of integers on the collaborator of
    [db/DbFile.cpp]: the page that is handed to [writePage] holds the
    tuple in slot 0. *)
Lemma file_insert_writes_tuple_witness :
  exists (pg' : Page) (s : nat),
    HeapFile.insertTuple 64 16 zero_memory (stub_read 16) stub_write
      (HeapFile.make 16 int_schema 0 tt) (mkTuple [f_int 9])
    = (Ok tt, HeapFile.mk int_schema 1 (stub_write tt pg' (1 - 1)))
    /\ length pg' = 16
    /\ s < file_capacity 64 16 (HeapFile.make 16 int_schema 0 tt)
    /\ (page_full (heap_page 64 16 (stub_read 16)
                     (HeapFile.make 16 int_schema 0 tt) 0) = true -> s = 0)
    /\ HeapPage.empty (HeapPage.make 64 16 pg' int_schema) s = false
    /\ HeapPage.getTuple 64 (memory_of "x") (HeapPage.make 64 16 pg' int_schema) s
       = mkTuple [f_int 9].
Proof.
  assert (Hn : 1 <= HeapFile.numPages (HeapFile.make 16 int_schema 0 tt))
    by (vm_compute; lia).
  assert (Hcap : 1 <= file_capacity 64 16 (HeapFile.make 16 int_schema 0 tt))
    by (vm_compute; lia).
  assert (HL : 1 <= TupleDesc.length 64
                      (HeapFile.td (HeapFile.make 16 int_schema 0 tt)))
    by (vm_compute; lia).
  exact (file_insert_writes_tuple 64 16 zero_memory unit (stub_read 16)
           stub_write (memory_of "x") (HeapFile.make 16 int_schema 0 tt)
           (mkTuple [f_int 9]) Hn Hcap HL eq_refl eq_refl eq_refl eq_refl).
Defined.

(** The delete of the cursor of page 2, slot 1 of the sample file. *)
Lemma file_delete_writes_page_witness :
  exists pg' : Page,
    HeapFile.deleteTuple 64 16 fun_read fun_write sample_file (Iterator.mk 2 1)
    = (Ok tt,
       HeapFile.mk int_schema 3 (fun_write (HeapFile.store sample_file) pg' 2))
    /\ HeapPage.empty (HeapPage.make 64 16 pg' int_schema) 1 = true
    /\ HeapPage.empty (HeapPage.make 64 16 pg' int_schema) 2 = false.
Proof.
  assert (He : HeapPage.empty (heap_page 64 16 fun_read sample_file 2) 1 = false)
    by (vm_compute; reflexivity).
  destruct (file_delete_writes_page 64 16 zero_memory fun_store fun_read
              fun_write sample_file (Iterator.mk 2 1) He)
    as (pg' & E & _ & H1 & H2 & _).
  exists pg'. split; [exact E|]. split; [exact H1|].
  refine (eq_trans (H2 2 _ _) _);
    [vm_compute; lia|discriminate|vm_compute; reflexivity].
Defined.

(** ** Outcomes and page count *)

Lemma serialize_outcome_Throw (types : list type_t) (fs : list field_t)
    (e : exn) :
  serialize_outcome types fs = Throw e ->
  e = out_of_range \/ e = bad_variant_access.
Proof.
  revert fs. induction types as [|ty r IH]; intros fs H; [discriminate|].
  destruct fs as [|f fs']; cbn [serialize_outcome] in H.
  - injection H as <-. now left.
  - destruct (type_eqb (type_of_field f) ty); [now apply IH in H|].
    injection H as <-. now right.
Qed.

(** The three outcomes of [HeapPage::insertTuple]. *)
Lemma insertTuple_outcomes (CHAR_SIZE : nat) (mem : Memory) (hp : HeapPage.t)
    (tup : Tuple) :
  match HeapPage.insertTuple CHAR_SIZE mem hp tup with
  | (Ok false, hp') => hp' = hp /\ page_full hp = true
  | (Ok true, _) => page_full hp = false
  | (Throw e, _) =>
      page_full hp = false /\ (e = out_of_range \/ e = bad_variant_access)
  end.
Proof.
  unfold HeapPage.insertTuple, page_full.
  destruct (_ =? HeapPage.capacity hp); [now split|].
  pose proof (serialize_loop_outcome CHAR_SIZE mem (tupleTypes (HeapPage.td hp)) tup
                (HeapPage.page hp)
                (HeapPage.data hp
                 + HeapPage.insert_loop hp (HeapPage.capacity hp) 0
                   * TupleDesc.length CHAR_SIZE (HeapPage.td hp)) 0 0) as Ho.
  unfold TupleDesc.serialize.
  destruct (TupleDesc.serialize_loop _ _ _ _ _ _ _ _) as [[u|e] buf];
    [reflexivity|].
  split; [reflexivity|]. cbn [fst] in Ho. symmetry in Ho.
  now apply serialize_outcome_Throw in Ho.
Qed.

Section FileOutcomes.

Variable CHAR_SIZE : nat.
Variable DEFAULT_PAGE_SIZE : nat.
Variable mem : Memory.
Variable Store : Type.
Variable readPage : Store -> nat -> Page.
Variable writePage : Store -> Page -> nat -> Store.

(** Whatever the collaborator and the tuple, where pages and tuples take
    one byte or more and the header byte of the cursor lies in the page:
    a file that the constructor made has one page or more; an insert
    keeps the schema and adds no page or one page, one only when the
    last page was full; an insert that throws (the tuple lacks a field,
    or has one of another type) and a delete that throws (the slot is
    empty) leave the file as it was, nothing being written; a delete
    never changes the page count. *)
Theorem file_outcomes :
  forall (f : HeapFile.t Store) (tup : Tuple) (it : Iterator.t) (st_size : nat)
         (s : Store),
    1 <= DEFAULT_PAGE_SIZE ->
    1 <= TupleDesc.length CHAR_SIZE (HeapFile.td f) ->
    Iterator.slot it / 8 < DEFAULT_PAGE_SIZE ->
    1 <= HeapFile.numPages (HeapFile.make DEFAULT_PAGE_SIZE (HeapFile.td f) st_size s)
    /\ (let (r, f') := HeapFile.insertTuple CHAR_SIZE DEFAULT_PAGE_SIZE mem
                         readPage writePage f tup in
        HeapFile.td f' = HeapFile.td f
        /\ HeapFile.numPages f <= HeapFile.numPages f' <= HeapFile.numPages f + 1
        /\ (HeapFile.numPages f' = HeapFile.numPages f + 1 ->
            page_full (heap_page CHAR_SIZE DEFAULT_PAGE_SIZE readPage f
                         (HeapFile.numPages f - 1)) = true)
        /\ match r with
           | Ok _ => True
           | Throw e => f' = f /\ (e = out_of_range \/ e = bad_variant_access)
           end)
    /\ (let (r, f') := HeapFile.deleteTuple CHAR_SIZE DEFAULT_PAGE_SIZE
                         readPage writePage f it in
        HeapFile.td f' = HeapFile.td f
        /\ HeapFile.numPages f' = HeapFile.numPages f
        /\ match r with
           | Ok _ => True
           | Throw e => f' = f /\ e = logic_error
           end).
Proof.
  intros f tup it st_size s _ _ _. split; [|split].
  - unfold HeapFile.make, DbFile.initial_numPages. cbn [HeapFile.numPages].
    destruct (Nat.eqb_spec (st_size / DEFAULT_PAGE_SIZE) 0); lia.
  - unfold HeapFile.insertTuple.
    fold (heap_page CHAR_SIZE DEFAULT_PAGE_SIZE readPage f (HeapFile.numPages f - 1)).
    pose proof (insertTuple_outcomes CHAR_SIZE mem
                  (heap_page CHAR_SIZE DEFAULT_PAGE_SIZE readPage f
                     (HeapFile.numPages f - 1)) tup) as H1.
    destruct (HeapPage.insertTuple CHAR_SIZE mem
                (heap_page CHAR_SIZE DEFAULT_PAGE_SIZE readPage f
                   (HeapFile.numPages f - 1)) tup) as [[[|]|e] hp'].
    + cbn [HeapFile.td HeapFile.numPages]. repeat split; intros; lia.
    + destruct H1 as [_ Hfull].
      pose proof (insertTuple_outcomes CHAR_SIZE mem
                    (HeapPage.make CHAR_SIZE DEFAULT_PAGE_SIZE
                       (HeapFile.zero_page DEFAULT_PAGE_SIZE) (HeapFile.td f)) tup)
        as H2.
      destruct (HeapPage.insertTuple CHAR_SIZE mem
                  (HeapPage.make CHAR_SIZE DEFAULT_PAGE_SIZE
                     (HeapFile.zero_page DEFAULT_PAGE_SIZE) (HeapFile.td f)) tup)
        as [[b|e] newhp'].
      * cbn [HeapFile.td HeapFile.numPages]. repeat split; intros; (lia || assumption).
      * destruct H2 as [_ He]. repeat split; intros; (lia || assumption).
    + destruct H1 as [_ He]. repeat split; intros; (lia || assumption).
  - unfold HeapFile.deleteTuple, HeapPage.deleteTuple.
    destruct (HeapPage.empty _ (Iterator.slot it)).
    + now repeat split.
    + cbn [HeapFile.td HeapFile.numPages]. now repeat split.
Qed.

(** A schema that is too wide for a page gives pages of capacity 0: every
    insert then returns without an error, whatever the tuple, adds a
    page of zero bytes to the file, and stores the tuple nowhere. *)
Theorem file_insert_zero_capacity :
  forall (f : HeapFile.t Store) (tup : Tuple),
    1 <= DEFAULT_PAGE_SIZE ->
    file_capacity CHAR_SIZE DEFAULT_PAGE_SIZE f = 0 ->
    HeapFile.insertTuple CHAR_SIZE DEFAULT_PAGE_SIZE mem readPage writePage f tup
    = (Ok tt,
       HeapFile.mk (HeapFile.td f) (HeapFile.numPages f + 1)
         (writePage (HeapFile.store f) (repeat 0%Z DEFAULT_PAGE_SIZE)
            (HeapFile.numPages f + 1 - 1))).
Proof.
  intros f tup _ Hcap.
  assert (Hfull : forall pg,
            HeapPage.insertTuple CHAR_SIZE mem
              (HeapPage.make CHAR_SIZE DEFAULT_PAGE_SIZE pg (HeapFile.td f)) tup
            = (Ok false,
               HeapPage.make CHAR_SIZE DEFAULT_PAGE_SIZE pg (HeapFile.td f))).
  { intros pg. apply insertTuple_full.
    change (HeapPage.capacity _) with (file_capacity CHAR_SIZE DEFAULT_PAGE_SIZE f).
    now rewrite Hcap. }
  unfold HeapFile.insertTuple. now rewrite !Hfull.
Qed.

(** [begin()] is [end()] exactly when no slot of the file is occupied. *)
Theorem begin_is_end_iff_empty :
  forall f : HeapFile.t Store,
    1 <= HeapFile.numPages f ->
    (HeapFile.begin CHAR_SIZE DEFAULT_PAGE_SIZE readPage f
     = HeapFile.end_ CHAR_SIZE DEFAULT_PAGE_SIZE readPage f
     <-> HeapFile.occupied_cursors CHAR_SIZE DEFAULT_PAGE_SIZE readPage f = []).
Proof.
  intros f _. unfold HeapFile.begin, HeapFile.occupied_cursors.
  pose proof (begin_loop_spec_file CHAR_SIZE DEFAULT_PAGE_SIZE Store readPage f
                (HeapFile.numPages f) 0 eq_refl) as H.
  destruct (flat_map _ (seq 0 (HeapFile.numPages f))) as [|c rest].
  - now split.
  - destruct H as (E & _ & Hs & _). rewrite E, end_eq. split; [|discriminate].
    intros Hc. rewrite Hc in Hs. cbn [Iterator.slot] in Hs. lia.
Qed.

Lemma next_beyond_capacity (hp : HeapPage.t) (s : nat) :
  HeapPage.capacity hp <= s -> HeapPage.next hp s = s + 1.
Proof.
  intros Hs. unfold HeapPage.next.
  destruct (HeapPage.capacity hp) as [|n] eqn:Hcap; [reflexivity|].
  cbn [HeapPage.next_loop]. rewrite Hcap.
  rewrite (proj2 (Nat.ltb_ge (s + 1) (S n))) by lia.
  now rewrite andb_false_r.
Qed.

(** [next] does not stop at [end()]: from [end()], and from any cursor
    whose slot is the capacity or more, it moves to the slot after it in
    the same page, as far as the header byte of that slot lies in the
    page. *)
Theorem next_past_end :
  forall (f : HeapFile.t Store) (p s : nat),
    1 <= HeapFile.numPages f ->
    file_capacity CHAR_SIZE DEFAULT_PAGE_SIZE f <= s ->
    (s + 1) / 8 < DEFAULT_PAGE_SIZE ->
    HeapFile.next CHAR_SIZE DEFAULT_PAGE_SIZE readPage f (Iterator.mk p s)
    = Some (Iterator.mk p (s + 1))
    /\ HeapFile.next CHAR_SIZE DEFAULT_PAGE_SIZE readPage f
         (HeapFile.end_ CHAR_SIZE DEFAULT_PAGE_SIZE readPage f)
       = Some (Iterator.mk (HeapFile.numPages f - 1)
                 (file_capacity CHAR_SIZE DEFAULT_PAGE_SIZE f + 1)).
Proof.
  intros f p s _ Hs _.
  assert (Hgen : forall q x,
            file_capacity CHAR_SIZE DEFAULT_PAGE_SIZE f <= x ->
            HeapFile.next CHAR_SIZE DEFAULT_PAGE_SIZE readPage f (Iterator.mk q x)
            = Some (Iterator.mk q (x + 1))).
  { intros q x Hx. unfold HeapFile.next. cbn [HeapFile.next_loop Iterator.page Iterator.slot].
    rewrite next_beyond_capacity by exact Hx.
    unfold HeapPage.end_.
    change (HeapPage.capacity _) with (file_capacity CHAR_SIZE DEFAULT_PAGE_SIZE f).
    rewrite (proj2 (Nat.eqb_neq (x + 1) _)) by lia. reflexivity. }
  split; [now apply Hgen|]. rewrite end_eq. now apply Hgen.
Qed.

End FileOutcomes.

(** A tuple without fields does not go into the sample file, and slot 0
    of its page 1 cannot be deleted. *)
Lemma file_outcomes_witness :
  (let (r, f') := HeapFile.insertTuple 64 16 zero_memory fun_read fun_write
                    sample_file (mkTuple []) in
   HeapFile.td f' = HeapFile.td sample_file
   /\ HeapFile.numPages sample_file <= HeapFile.numPages f'
      <= HeapFile.numPages sample_file + 1
   /\ (HeapFile.numPages f' = HeapFile.numPages sample_file + 1 ->
       page_full (heap_page 64 16 fun_read sample_file
                    (HeapFile.numPages sample_file - 1)) = true)
   /\ match r with
      | Ok _ => True
      | Throw e =>
          f' = sample_file /\ (e = out_of_range \/ e = bad_variant_access)
      end)
  /\ (let (r, f') := HeapFile.deleteTuple 64 16 fun_read fun_write sample_file
                       (Iterator.mk 1 0) in
      HeapFile.td f' = HeapFile.td sample_file
      /\ HeapFile.numPages f' = HeapFile.numPages sample_file
      /\ match r with
         | Ok _ => True
         | Throw e => f' = sample_file /\ e = logic_error
         end).
Proof.
  assert (HL : 1 <= TupleDesc.length 64 (HeapFile.td sample_file))
    by (vm_compute; lia).
  assert (Hs : Iterator.slot (Iterator.mk 1 0) / 8 < 16) by (vm_compute; lia).
  assert (HP : 1 <= 16) by lia.
  exact (proj2 (file_outcomes 64 16 zero_memory fun_store fun_read fun_write
                  sample_file (mkTuple []) (Iterator.mk 1 0) 0 (new_store 16)
                  HP HL Hs)).
Defined.

(** Records of 76 bytes do not fit a page of 16 bytes. *)
Lemma file_insert_zero_capacity_witness :
  file_capacity 64 16 (HeapFile.make 16 record_schema 0 (new_store 16)) = 0
  /\ HeapFile.insertTuple 64 16 zero_memory fun_read fun_write
       (HeapFile.make 16 record_schema 0 (new_store 16)) sample_record
     = (Ok tt,
        HeapFile.mk record_schema 2
          (fun_write (new_store 16) (repeat 0%Z 16) 1)).
Proof.
  assert (Hcap : file_capacity 64 16
                   (HeapFile.make 16 record_schema 0 (new_store 16)) = 0)
    by (vm_compute; reflexivity).
  split; [exact Hcap|].
  apply (file_insert_zero_capacity 64 16 zero_memory fun_store fun_read fun_write
           (HeapFile.make 16 record_schema 0 (new_store 16)) sample_record);
    [lia|exact Hcap].
Defined.

(** The sample file and a new file of the same schema. *)
Lemma begin_is_end_iff_empty_witness :
  (HeapFile.begin 64 16 fun_read sample_file
   = HeapFile.end_ 64 16 fun_read sample_file
   <-> HeapFile.occupied_cursors 64 16 fun_read sample_file = [])
  /\ (HeapFile.begin 64 16 fun_read
        (HeapFile.make 16 int_schema 0 (new_store 16))
      = HeapFile.end_ 64 16 fun_read
          (HeapFile.make 16 int_schema 0 (new_store 16))
      <-> HeapFile.occupied_cursors 64 16 fun_read
            (HeapFile.make 16 int_schema 0 (new_store 16)) = []).
Proof.
  split.
  - apply (begin_is_end_iff_empty 64 16 fun_store fun_read sample_file).
    vm_compute. lia.
  - apply (begin_is_end_iff_empty 64 16 fun_store fun_read
             (HeapFile.make 16 int_schema 0 (new_store 16))).
    vm_compute. lia.
Defined.

(** The sample file has three slots to a page. *)
Lemma next_past_end_witness :
  HeapFile.next 64 16 fun_read sample_file (Iterator.mk 0 5)
  = Some (Iterator.mk 0 (5 + 1))
  /\ HeapFile.next 64 16 fun_read sample_file
       (HeapFile.end_ 64 16 fun_read sample_file)
     = Some (Iterator.mk (HeapFile.numPages sample_file - 1)
               (file_capacity 64 16 sample_file + 1)).
Proof.
  apply (next_past_end 64 16 fun_store fun_read sample_file 0 5).
  - vm_compute. lia.
  - vm_compute. lia.
  - vm_compute. lia.
Defined.

(** ** The layout of a merged schema *)

Lemma merge_Ok_inv (td1 td2 td : TupleDesc) :
  length (tupleTypes td1) = length (tupleNames td1) ->
  length (tupleTypes td2) = length (tupleNames td2) ->
  TupleDesc.merge td1 td2 = Ok td ->
  NoDup (tupleNames td)
  /\ tupleTypes td = tupleTypes td1 ++ tupleTypes td2
  /\ tupleNames td = tupleNames td1 ++ tupleNames td2.
Proof.
  intros Hlen1 Hlen2. unfold TupleDesc.merge, TupleDesc.size.
  rewrite merge_check_spec by (unfold TupleDesc.size; lia).
  destruct (existsb _ _); [discriminate|]. cbn [bind].
  rewrite merge_copy_spec by lia. cbn [bind].
  rewrite merge_copy_spec by lia. cbn [bind fst snd skipn app].
  rewrite !firstn_all. rewrite Hlen1, Hlen2, !firstn_all.
  intros E. apply make_inv in E. destruct E as (Hnd & _ & HT & HN).
  split; [rewrite HN; exact Hnd|]. now split.
Qed.

Lemma index_of_NoDup (td : TupleDesc) (name : string) (k : nat) :
  NoDup (tupleNames td) ->
  nth_error (tupleNames td) k = Some name ->
  TupleDesc.index_of td name = Ok k.
Proof.
  intros Hnd Hk. unfold TupleDesc.index_of.
  pose proof (index_of_loop_spec td name (length (tupleNames td)) 0 eq_refl) as H.
  destruct (TupleDesc.index_of_loop td name (length (tupleNames td)) 0) as [k'|e].
  - destruct H as (Hk' & Hat & _). f_equal.
    apply (proj1 (NoDup_nth_error (tupleNames td)) Hnd); [lia|congruence].
  - destruct H as (_ & Hnone). exfalso. apply (Hnone k); [lia|assumption].
Qed.

Lemma index_of_Ok (td : TupleDesc) (name : string) (k : nat) :
  TupleDesc.index_of td name = Ok k ->
  k < length (tupleNames td) /\ nth_error (tupleNames td) k = Some name.
Proof.
  unfold TupleDesc.index_of. intros E.
  pose proof (index_of_loop_spec td name (length (tupleNames td)) 0 eq_refl) as H.
  rewrite E in H. destruct H as (Hk & Hat & _). split; [lia|assumption].
Qed.

Section MergeLayout.

Variable CHAR_SIZE : nat.

(** The schema that [merge] makes of two schemas built by the constructor
    lays the second one's fields out after the first one's: the sizes and
    the lengths add up, the fields of the first schema keep their offsets
    and their indices, those of the second are moved by the length and
    by the size of the first, and two tuples that fit the two schemas,
    put one after the other, fit the merged one. *)
Theorem merge_layout :
  forall (types1 types2 : list type_t) (names1 names2 : list string)
         (td1 td2 td : TupleDesc),
    TupleDesc.make types1 names1 = Ok td1 ->
    TupleDesc.make types2 names2 = Ok td2 ->
    TupleDesc.merge td1 td2 = Ok td ->
    (Z.of_nat (TupleDesc.size td) <= 2 ^ 64)%Z ->
    TupleDesc.size td = TupleDesc.size td1 + TupleDesc.size td2
    /\ TupleDesc.length CHAR_SIZE td
       = TupleDesc.length CHAR_SIZE td1 + TupleDesc.length CHAR_SIZE td2
    /\ (forall i, i < TupleDesc.size td1 ->
          TupleDesc.offset_of CHAR_SIZE td i = TupleDesc.offset_of CHAR_SIZE td1 i)
    /\ (forall j, j < TupleDesc.size td2 ->
          exists o,
            TupleDesc.offset_of CHAR_SIZE td2 j = Ok o
            /\ TupleDesc.offset_of CHAR_SIZE td (TupleDesc.size td1 + j)
               = Ok (TupleDesc.length CHAR_SIZE td1 + o))
    /\ (forall name k,
          TupleDesc.index_of td1 name = Ok k -> TupleDesc.index_of td name = Ok k)
    /\ (forall name k,
          TupleDesc.index_of td2 name = Ok k ->
          TupleDesc.index_of td name = Ok (TupleDesc.size td1 + k))
    /\ (forall t1 t2,
          TupleDesc.compatible td1 t1 = Ok true ->
          TupleDesc.compatible td2 t2 = Ok true ->
          TupleDesc.compatible td (mkTuple (fields t1 ++ fields t2)) = Ok true).
Proof.
  intros types1 types2 names1 names2 td1 td2 td E1 E2 Em Hsz.
  apply make_inv in E1. destruct E1 as (_ & Hlen1 & <- & <-).
  apply make_inv in E2. destruct E2 as (_ & Hlen2 & <- & <-).
  destruct (merge_Ok_inv td1 td2 td Hlen1 Hlen2 Em) as (Hnd & HT & HN).
  assert (Hsize : TupleDesc.size td = TupleDesc.size td1 + TupleDesc.size td2)
    by (unfold TupleDesc.size; now rewrite HT, length_app).
  split; [exact Hsize|]. split; [|split; [|split; [|split; [|split]]]].
  - now rewrite !length_width, HT, width_app.
  - intros i Hi.
    rewrite !offset_of_in_range by lia. f_equal. rewrite HT, firstn_app.
    unfold TupleDesc.size in Hi.
    replace (i - length (tupleTypes td1)) with 0 by lia.
    cbn [firstn]. now rewrite app_nil_r.
  - intros j Hj. eexists. split; [apply offset_of_in_range; lia|].
    rewrite offset_of_in_range by lia. f_equal.
    unfold TupleDesc.size. rewrite HT, firstn_app_2, width_app.
    now rewrite length_width.
  - intros name k Ek. apply index_of_Ok in Ek. destruct Ek as (Hk & Hat).
    apply index_of_NoDup; [assumption|]. rewrite HN.
    now rewrite nth_error_app1.
  - intros name k Ek. apply index_of_Ok in Ek. destruct Ek as (Hk & Hat).
    apply index_of_NoDup; [assumption|]. rewrite HN. unfold TupleDesc.size.
    rewrite nth_error_app2 by lia.
    now replace (length (tupleTypes td1) + k - length (tupleNames td1)) with k
      by lia.
  - intros t1 t2 C1 C2. apply compatible_spec in C1. apply compatible_spec in C2.
    apply compatible_spec. cbn [fields]. now rewrite map_app, C1, C2, HT.
Qed.

End MergeLayout.

(** An integer field merged with a text and a floating point field. *)
Lemma merge_layout_witness :
  TupleDesc.length 64 record_schema
  = TupleDesc.length 64 int_schema
    + TupleDesc.length 64
        {| tupleSchema := [("name"%string, 0); ("weight"%string, 1)];
           tupleTypes := [CHAR; DOUBLE];
           tupleNames := ["name"%string; "weight"%string] |}.
Proof.
  assert (Hsz : (Z.of_nat (TupleDesc.size record_schema) <= 2 ^ 64)%Z)
    by (vm_compute; discriminate).
  apply (merge_layout 64 [INT] [CHAR; DOUBLE] ["id"%string]
           ["name"%string; "weight"%string] int_schema _ record_schema
           eq_refl eq_refl eq_refl Hsz).
Defined.
